(** * Species traits of Dungeon Crawl: a shallow embedding of
      [crawl-ref/source/species.cc]

    The file follows the source function by function.  C++ enumerations are
    integers ([Z]); their enumerators, declared in headers outside
    [species.cc], are the fields of the class [Enums].  The per-species table
    [species_data] (from [species-data.h]) is a variable of the sections and
    the procedures of other translation units are the fields of the class
    [Extern].  A failed [ASSERT], an out-of-range [FixedVector] access, a
    missing key of [std::map::at] or an [int] that overflows is the result
    [None]. *)

From stdpp Require Import base option list strings gmap sorting.
From Stdlib Require Import ZArith Lia QArith Floats.SpecFloat.

Local Open Scope Z_scope.

#[local] Set Warnings "-clear-no-such-hyp".

(** ** Enumerations and constants of the headers *)

Definition species_type := Z.
Definition equipment_type := Z.
Definition mutation_type := Z.
Definition skill_type := Z.
Definition size_type := Z.

Class Enums := {
  (* species-type.h *)
  SP_UNKNOWN : species_type;
  NUM_SPECIES : Z;
  SP_OCTOPODE : species_type;
  SP_FELID : species_type;
  SP_GNOLL : species_type;
  SP_BARACHI : species_type;
  SP_DEMONSPAWN : species_type;
  (* equipment-type.h *)
  EQ_NONE : equipment_type;
  EQ_WEAPON : equipment_type;
  EQ_HELMET : equipment_type;
  EQ_SHIELD : equipment_type;
  EQ_BODY_ARMOUR : equipment_type;
  EQ_LEFT_RING : equipment_type;
  EQ_RIGHT_RING : equipment_type;
  EQ_AMULET : equipment_type;
  EQ_RING_ONE : equipment_type;
  EQ_RING_TWO : equipment_type;
  EQ_RING_THREE : equipment_type;
  EQ_RING_FOUR : equipment_type;
  EQ_RING_FIVE : equipment_type;
  EQ_RING_SIX : equipment_type;
  EQ_RING_SEVEN : equipment_type;
  EQ_RING_EIGHT : equipment_type;
  EQ_RING_AMULET : equipment_type;
  EQ_STAFF : equipment_type;
  EQ_RINGS : equipment_type;
  EQ_RINGS_PLUS : equipment_type;
  EQ_ALL_ARMOUR : equipment_type;
  EQ_FIRST_EQUIP : equipment_type;
  NUM_EQUIP : Z;
  EQ_FIRST_JEWELLERY : equipment_type;
  EQ_LAST_JEWELLERY : equipment_type;
  (* mutation-type.h, skill-type.h *)
  NUM_MUTATIONS : Z;
  MUT_UNBREATHING : mutation_type;
  MUT_CLAWS : mutation_type;
  SK_FIRST_SKILL : skill_type;
  NUM_SKILLS : Z;
  (* species-def.h: bits of species_def::flags *)
  SPF_DRACONIAN : Z;
  SPF_SMALL_TORSO : Z;
  SPF_NO_HAIR : Z;
  SPF_NO_BONES : Z;
  (* size-part-type.h *)
  PSIZE_TORSO : Z;
  (* sizeof(std::string) of the C++ implementation *)
  sizeof_string : Z
}.

Inductive species_name_type := SPNAME_PLAIN | SPNAME_GENUS | SPNAME_ADJ.

Inductive maybe_bool := MB_FALSE | MB_MAYBE | MB_TRUE.

#[global] Instance species_name_type_eq_dec : EqDecision species_name_type.
Proof. solve_decision. Defined.

#[global] Instance maybe_bool_eq_dec : EqDecision maybe_bool.
Proof. solve_decision. Defined.

(** ** The static descriptor of a species (species-def.h) *)

Record level_up_mutation := {
  lum_mut : mutation_type;
  lum_mut_level : Z;
  lum_xp_level : Z
}.

(** The [const char*] fields that may be null are options. *)
Record species_def := {
  abbrev : string;
  name : string;
  adj_name : option string;
  genus_name : option string;
  flags : Z;
  size : size_type;
  walking_verb : option string;
  level_up_mutations : list level_up_mutation
}.

(** ** Machine integers and fixed-size arrays *)

(** Conversion to [uint8_t]. *)
Definition u8 (z : Z) : Z := z mod 256.

(** The range of [int], 32 bits wide. *)
Definition INT_MIN : Z := -2147483648.
Definition INT_MAX : Z := 2147483647.

(** [a + b] on two [int]s.  Signed overflow is undefined behaviour: the sum
    has no result, [None].  Two [int]s add up to a value outside the range
    only when they have the same sign. *)
Definition int_add (a b : Z) : option Z :=
  if bool_decide (0 < a ∧ 0 < b ∧ INT_MAX < a + b)
     || bool_decide (a < 0 ∧ b < 0 ∧ a + b < INT_MIN)
  then None
  else Some (a + b).

(** The range of [unsigned int], 32 bits wide. *)
Definition UINT_MAX : Z := 4294967295.

(** ** [float]: IEEE 754 binary32, 24 bits of precision, round to nearest
    even *)

Definition float_of_uint (n : Z) : spec_float :=
  binary_normalize 24 128 n 0 false.

Definition float_mul : spec_float → spec_float → spec_float := SFmul 24 128.
Definition float_div : spec_float → spec_float → spec_float := SFdiv 24 128.

(** A finite [float] cut to an integer, towards zero. *)
Definition float_trunc (f : spec_float) : Z :=
  match f with
  | S754_finite s m e =>
      let magnitude :=
        if bool_decide (0 ≤ e) then Z.pos m * 2 ^ e
        else Z.pos m / 2 ^ (- e) in
      if s then - magnitude else magnitude
  | _ => 0
  end.

(** The conversion of a [float] to [unsigned int]: the value is cut towards
    zero; the conversion is undefined, [None], for a value that [unsigned
    int] does not hold after the cut. *)
Definition float_to_uint (f : spec_float) : option Z :=
  match f with
  | S754_infinity _ | S754_nan => None
  | _ =>
      if bool_decide (0 ≤ float_trunc f ≤ UINT_MAX)
      then Some (float_trunc f) else None
  end.

(** The number a [float] stands for; 0 for an infinity and for a NaN. *)
Definition float_value (f : spec_float) : Q :=
  match f with
  | S754_finite s m e =>
      (inject_Z (if s then Z.neg m else Z.pos m) * Qpower 2 e)%Q
  | _ => 0%Q
  end.

(** [FixedVector::operator[]]: reading and writing inside the bounds only. *)
Definition fv_get {A} (v : list A) (i : Z) : option A :=
  if bool_decide (0 ≤ i) then v !! Z.to_nat i else None.

Definition fv_set {A} (v : list A) (i : Z) (x : A) : option (list A) :=
  if bool_decide (0 ≤ i < Z.of_nat (length v))
  then Some (<[Z.to_nat i := x]> v) else None.

(** A [switch] over enumerators: [x] is one of the labels of a case group. *)
Definition one_of (x : Z) (labels : list Z) : bool := bool_decide (x ∈ labels).

(** [for (int i = lo; i < hi; ++i)] over a fallible body. *)
Fixpoint for_each {S A} (body : A → S → option S) (l : list A) (s : S)
  : option S :=
  match l with
  | [] => Some s
  | a :: l' => s' ← body a s; for_each body l' s'
  end.

Section Species.

Context `{E : Enums}.

(** The table of [species-data.h]. *)
Variable species_data : gmap Z species_def.

(** ** Lookup of the descriptor *)

Definition get_species_def (species : species_type) : option species_def :=
  if bool_decide (species ≠ SP_UNKNOWN)
     && negb (bool_decide (0 ≤ species < NUM_SPECIES))
  then None
  else species_data !! species.

Definition get_species_abbrev (which_species : species_type) : option string :=
  abbrev <$> get_species_def which_species.

Definition species_name (speci : species_type) (spname_type : species_name_type)
  : option string :=
  def ← get_species_def speci;
  Some (match spname_type, genus_name def, adj_name def with
        | SPNAME_GENUS, Some g, _ => g
        | SPNAME_ADJ, _, Some a => a
        | _, _, _ => name def
        end).

Definition species_walking_verb (sp : species_type) : option string :=
  def ← get_species_def sp;
  Some (default "Walk"%string (walking_verb def)).

(** [str_to_species] calls [species_name] with one argument; the default of
    the second one, declared in [species.h], is the plain name. *)
Fixpoint str_to_species_loop (species : string) (range : list Z)
  : option species_type :=
  match range with
  | [] => Some SP_UNKNOWN
  | i :: rest =>
      n ← species_name i SPNAME_PLAIN;
      if String.eqb species n then Some i else str_to_species_loop species rest
  end.

Definition str_to_species (species : string) : option species_type :=
  if String.eqb species ""%string then Some SP_UNKNOWN
  else str_to_species_loop species (seqZ 0 NUM_SPECIES).

(** ** Arms and equipment slots *)

Definition species_arm_count (species : species_type) : Z :=
  if bool_decide (species = SP_OCTOPODE) then 8 else 2.

Definition species_is_draconian (species : species_type) : option bool :=
  def ← get_species_def species;
  Some (negb (Z.land (flags def) SPF_DRACONIAN =? 0)).

Definition ring_one_to_eight : list equipment_type :=
  [EQ_RING_ONE; EQ_RING_TWO; EQ_RING_THREE; EQ_RING_FOUR;
   EQ_RING_FIVE; EQ_RING_SIX; EQ_RING_SEVEN; EQ_RING_EIGHT].

Definition species_bans_eq (species : species_type) (eq : equipment_type)
  : option bool :=
  let arms := species_arm_count species in
  if one_of eq [EQ_LEFT_RING; EQ_RIGHT_RING] then Some (bool_decide (arms > 2))
  else if one_of eq ring_one_to_eight then Some (bool_decide (arms ≤ 2))
  else if one_of eq [EQ_AMULET; EQ_RING_AMULET; EQ_WEAPON; EQ_STAFF;
                     EQ_RINGS; EQ_RINGS_PLUS; EQ_ALL_ARMOUR]
  then Some false
  else
    if bool_decide (species = SP_OCTOPODE)
       && bool_decide (eq ≠ EQ_HELMET) && bool_decide (eq ≠ EQ_SHIELD)
    then Some true
    else
      dr ← species_is_draconian species;
      if dr && bool_decide (eq = EQ_BODY_ARMOUR) then Some true
      else Some false.


Definition species_sacrificial_arm (species : species_type) : equipment_type :=
  if bool_decide (species_arm_count species = 2) then EQ_LEFT_RING
  else EQ_RING_EIGHT.

(** The loop of [species_ring_slots]; [species_bans_eq] is called only for a
    slot that passed the three comparisons before it. *)
Fixpoint species_ring_slots_loop (species : species_type)
    (missing : equipment_type) (range : list Z) (result : list equipment_type)
  : option (list equipment_type) :=
  match range with
  | [] => Some result
  | eq :: rest =>
      if bool_decide (eq ≠ EQ_AMULET) && bool_decide (eq ≠ EQ_RING_AMULET)
         && bool_decide (eq ≠ missing)
      then
        banned ← species_bans_eq species eq;
        species_ring_slots_loop species missing rest
          (if negb banned then result ++ [eq] else result)
      else species_ring_slots_loop species missing rest result
  end.

Definition jewellery_range : list Z :=
  seqZ EQ_FIRST_JEWELLERY (EQ_LAST_JEWELLERY - EQ_FIRST_JEWELLERY + 1).

Definition species_ring_slots (species : species_type) (missing_hand : bool)
  : option (list equipment_type) :=
  let missing :=
    if missing_hand then species_sacrificial_arm species else EQ_NONE in
  species_ring_slots_loop species missing jewellery_range [].

(** ** Flags and sizes *)

Definition has_flag (def : species_def) (mask : Z) : bool :=
  negb (Z.land (flags def) mask =? 0).

Definition species_wears_barding (species : species_type) : option bool :=
  def ← get_species_def species; Some (has_flag def SPF_SMALL_TORSO).

Definition species_has_hair (species : species_type) : option bool :=
  def ← get_species_def species;
  Some (negb (has_flag def (Z.lor SPF_NO_HAIR SPF_DRACONIAN))).

Definition species_has_bones (species : species_type) : option bool :=
  def ← get_species_def species; Some (negb (has_flag def SPF_NO_BONES)).

Definition species_size (species : species_type) (psize : Z)
  : option size_type :=
  def ← get_species_def species;
  if bool_decide (psize = PSIZE_TORSO) && has_flag def SPF_SMALL_TORSO
  then Some (size def - 1)
  else Some (size def).

(** ** The mutation schedule *)

(** The loop of [species_mutation_level] with its running [total], an
    [int]: [total += lum.mut_level] that overflows leaves the call without a
    result. *)
Fixpoint species_mutation_level_loop (mut : mutation_type) (mut_level : Z)
    (total : Z) (lums : list level_up_mutation) : option Z :=
  match lums with
  | [] => Some 0
  | lum :: rest =>
      if bool_decide (mut = lum_mut lum) then
        total' ← int_add total (lum_mut_level lum);
        if bool_decide (total' >= mut_level) then Some (lum_xp_level lum)
        else species_mutation_level_loop mut mut_level total' rest
      else species_mutation_level_loop mut mut_level total rest
  end.

Definition species_mutation_level (species : species_type)
    (mut : mutation_type) (mut_level : Z) : option Z :=
  def ← get_species_def species;
  species_mutation_level_loop mut mut_level 0 (level_up_mutations def).

(** Callers that rely on the default [mut_level = 1] of [species.h]. *)
Definition species_is_unbreathing (species : species_type) : option bool :=
  l ← species_mutation_level species MUT_UNBREATHING 1;
  Some (negb (l =? 0)).

Definition species_has_claws (species : species_type) : option bool :=
  l ← species_mutation_level species MUT_CLAWS 1;
  Some (l =? 1).

(** ** Shouting *)

Definition shout_verbs : list string := ["shout"; "yell"; "scream"]%string.
Definition felid_shout_verbs : list string :=
  ["meow"; "yowl"; "caterwaul"]%string.
Definition frog_shout_verbs : list string :=
  ["croak"; "ribbit"; "bellow"]%string.
Definition dog_shout_verbs : list string := ["bark"; "howl"; "screech"]%string.

(** Modelled from the spec: [coinflip] of [random.h] is not part of this
    file and the spec only says that the module rolls random traits.  The
    generator is a tape of coin results with a read position; a flip returns
    the result under the head and advances it. *)
Record rng_state := { tape : nat → bool; pos : nat }.

Definition coinflip (r : rng_state) : bool * rng_state :=
  (tape r (pos r), {| tape := tape r; pos := S (pos r) |}).

(** [sizeof(shout_verbs)] is the size in bytes of an array of three
    [std::string]. *)
Definition sizeof_shout_verbs : Z := 3 * sizeof_string.

(** The index [species_shout_verb] computes from its argument. *)
Definition shout_index (screaminess : Z) : Z :=
  Z.max (Z.min screaminess (sizeof_shout_verbs - 1)) 0.

(** Reading past the end of one of the arrays is [None]. *)
Definition species_shout_verb (sp : species_type) (screaminess : Z)
    (directed : bool) (r : rng_state) : option string * rng_state :=
  let screaminess := shout_index screaminess in
  if bool_decide (sp = SP_GNOLL) then
    if bool_decide (screaminess = 0) && directed then
      let '(coin, r') := coinflip r in
      if coin then (Some "growl"%string, r')
      else (fv_get dog_shout_verbs screaminess, r')
    else (fv_get dog_shout_verbs screaminess, r)
  else if bool_decide (sp = SP_BARACHI) then
    (fv_get frog_shout_verbs screaminess, r)
  else if bool_decide (sp = SP_FELID) then
    if bool_decide (screaminess = 0) && directed then (Some "hiss"%string, r)
    else (fv_get felid_shout_verbs screaminess, r)
  else (fv_get shout_verbs screaminess, r).

End Species.

(** ** The player ([player.h]) and the rest of the program state

    Only the members of [you] that [species.cc] reads or writes are kept. *)

Record demon_trait := {
  level_gained : Z;
  dt_mutation : mutation_type
}.

(** An inventory item: its [name(DESC_YOUR)] and its quantity. *)
Record item_def := {
  your_name : string;
  quantity : Z
}.

Record player := {
  species : species_type;
  chr_species_name : string;
  experience_level : Z;
  skill_points : list Z;          (* FixedVector<unsigned int, NUM_SKILLS> *)
  mutation : list Z;              (* FixedVector<uint8_t, NUM_MUTATIONS> *)
  innate_mutation : list Z;       (* FixedVector<uint8_t, NUM_MUTATIONS> *)
  demonic_traits : list demon_trait;
  equip : list Z;                 (* FixedVector<int8_t, NUM_EQUIP>, -1: empty *)
  melded : list bool;             (* FixedBitVector<NUM_EQUIP> *)
  inv : list item_def
}.

Record game := {
  you : player;
  rng : rng_state;
  messages : list string
}.

Definition with_species (sp : species_type) (n : string) (p : player) : player :=
  {| species := sp; chr_species_name := n;
     experience_level := experience_level p; skill_points := skill_points p;
     mutation := mutation p; innate_mutation := innate_mutation p;
     demonic_traits := demonic_traits p; equip := equip p;
     melded := melded p; inv := inv p |}.

Definition with_skill_points (v : list Z) (p : player) : player :=
  {| species := species p; chr_species_name := chr_species_name p;
     experience_level := experience_level p; skill_points := v;
     mutation := mutation p; innate_mutation := innate_mutation p;
     demonic_traits := demonic_traits p; equip := equip p;
     melded := melded p; inv := inv p |}.

Definition with_mutation (v : list Z) (p : player) : player :=
  {| species := species p; chr_species_name := chr_species_name p;
     experience_level := experience_level p; skill_points := skill_points p;
     mutation := v; innate_mutation := innate_mutation p;
     demonic_traits := demonic_traits p; equip := equip p;
     melded := melded p; inv := inv p |}.

Definition with_innate_mutation (v : list Z) (p : player) : player :=
  {| species := species p; chr_species_name := chr_species_name p;
     experience_level := experience_level p; skill_points := skill_points p;
     mutation := mutation p; innate_mutation := v;
     demonic_traits := demonic_traits p; equip := equip p;
     melded := melded p; inv := inv p |}.

Definition with_equip (v : list Z) (p : player) : player :=
  {| species := species p; chr_species_name := chr_species_name p;
     experience_level := experience_level p; skill_points := skill_points p;
     mutation := mutation p; innate_mutation := innate_mutation p;
     demonic_traits := demonic_traits p; equip := v;
     melded := melded p; inv := inv p |}.

Definition with_melded (v : list bool) (p : player) : player :=
  {| species := species p; chr_species_name := chr_species_name p;
     experience_level := experience_level p; skill_points := skill_points p;
     mutation := mutation p; innate_mutation := innate_mutation p;
     demonic_traits := demonic_traits p; equip := equip p;
     melded := v; inv := inv p |}.

Definition with_you (p : player) (g : game) : game :=
  {| you := p; rng := rng g; messages := messages g |}.

Definition mprf (line : string) (g : game) : game :=
  {| you := you g; rng := rng g; messages := messages g ++ [line] |}.

(** A procedure on [you] run inside the whole state. *)
Definition on_you (f : player → option player) (g : game) : option game :=
  p ← f (you g); Some (with_you p g).

(** ** Procedures of other translation units *)

Class Extern := {
  (* skills.cc: [float species_apt_factor(skill_type, species_type)] *)
  species_apt_factor : skill_type → species_type → spec_float;
  (* mutation.cc *)
  perma_mutate : mutation_type → Z → string → game → option game;
  roll_demonspawn_mutations : game → option game;
  (* player.cc, player-equip.cc *)
  update_vision_range : game → option game;
  you_can_wear : game → equipment_type → maybe_bool;
  calc_hp : game → option game;
  calc_mp : game → option game;
  (* skills.cc *)
  fixup_skills : game → option game;
  (* output and display *)
  update_player_symbol : game → option game;
  redraw_screen : game → option game;
  update_screen : game → option game
}.

Section Player.

Context `{E : Enums} `{X : Extern}.
Variable species_data : gmap Z species_def.

(** Modelled from the spec: [player::has_innate_mutation] of [player.cc] is
    not part of this file.  By the glossary an innate mutation is a mutation
    level granted by species and level; the player has one when the innate
    level of the mutation is not zero. *)
Definition has_innate_mutation (p : player) (mut : mutation_type)
  : option bool :=
  n ← fv_get (innate_mutation p) mut; Some (bool_decide (n > 0)).

(** ** Granting the mutations of the schedule *)

Definition give_basic_mutation (lum : level_up_mutation) (p : player)
  : option player :=
  if bool_decide (lum_xp_level lum = 1) then
    inn ← fv_set (innate_mutation p) (lum_mut lum) (u8 (lum_mut_level lum));
    mu ← fv_set (mutation p) (lum_mut lum) (u8 (lum_mut_level lum));
    Some (with_mutation mu (with_innate_mutation inn p))
  else Some p.

Definition give_basic_mutations (sp : species_type) (p : player)
  : option player :=
  def ← get_species_def species_data sp;
  for_each give_basic_mutation (level_up_mutations def) p.

Definition give_level_mutation (sp : species_type) (xp_level : Z)
    (lum : level_up_mutation) (g : game) : option game :=
  if bool_decide (lum_xp_level lum = xp_level) then
    n ← species_name species_data sp SPNAME_PLAIN;
    perma_mutate (lum_mut lum) (lum_mut_level lum) (n +:+ " growth") g
  else Some g.

Definition give_level_mutations (sp : species_type) (xp_level : Z) (g : game)
  : option game :=
  def ← get_species_def species_data sp;
  for_each (give_level_mutation sp xp_level) (level_up_mutations def) g.

(** ** Exchanging two equipment slots *)

Definition _swap_equip (a b : equipment_type) (p : player) : option player :=
  ea ← fv_get (equip p) a;
  eb ← fv_get (equip p) b;
  eq1 ← fv_set (equip p) a eb;
  eq2 ← fv_set eq1 b ea;
  tmp ← fv_get (melded p) a;
  mb ← fv_get (melded p) b;
  me1 ← fv_set (melded p) a mb;
  me2 ← fv_set me1 b tmp;
  Some (with_melded me2 (with_equip eq2 p)).

(** ** [change_species_to], phase by phase *)

(** Line 623, [points *= species_apt_factor(sk, sp)
    / species_apt_factor(sk)]: the quotient of the two [float]s is a
    [float]; the [unsigned int] is converted to [float] for the product. *)
Definition apt_product (sk : skill_type) (sp old_sp : species_type)
    (pts : Z) : spec_float :=
  float_mul (float_of_uint pts)
    (float_div (species_apt_factor sk sp) (species_apt_factor sk old_sp)).

(** The product back in an [unsigned int]. *)
Definition rescale_by_apt (sk : skill_type) (sp old_sp : species_type)
    (pts : Z) : Z :=
  float_trunc (apt_product sk sp old_sp pts).

(** Lines 620-625: the skill points are rescaled; [species_apt_factor(sk)]
    reads the species the player still has. *)
Definition rescale_skill_point (sp : species_type) (sk : skill_type)
    (p : player) : option player :=
  pts ← fv_get (skill_points p) sk;
  new ← float_to_uint (apt_product sk sp (species p) pts);
  v ← fv_set (skill_points p) sk new;
  Some (with_skill_points v p).

Definition rescale_skill_points (sp : species_type) (p : player)
  : option player :=
  for_each (rescale_skill_point sp)
    (seqZ SK_FIRST_SKILL (NUM_SKILLS - SK_FIRST_SKILL)) p.

(** Lines 634-643: the innate levels are taken off; [prev_muts] records what
    is left. *)
Definition remove_innate_mutation (i : Z) (s : player * list Z)
  : option (player * list Z) :=
  let '(p, prev_muts) := s in
  inn ← has_innate_mutation p i;
  p1 ← (if inn : bool then
          m ← fv_get (mutation p) i;
          n ← fv_get (innate_mutation p) i;
          mu ← fv_set (mutation p) i (u8 (m - n));
          inn' ← fv_set (innate_mutation p) i 0;
          Some (with_innate_mutation inn' (with_mutation mu p))
        else Some p);
  m ← fv_get (mutation p1) i;
  prev_muts' ← fv_set prev_muts i m;
  Some (p1, prev_muts').

Definition remove_innate_mutations (p : player) : option (player * list Z) :=
  for_each remove_innate_mutation (seqZ 0 NUM_MUTATIONS)
    (p, replicate (Z.to_nat NUM_MUTATIONS) 0).

(** Lines 646-647: [you.experience_level] is read at every test of the loop.
    The fuel is the number of levels at the entry of the loop; it runs out
    only when [perma_mutate] raises the experience level, a run this model
    gives no result for. *)
Fixpoint give_level_mutations_from (fuel : nat) (sp : species_type) (i : Z)
    (g : game) : option game :=
  if bool_decide (i ≤ experience_level (you g)) then
    match fuel with
    | O => None
    | S fuel' =>
        g' ← give_level_mutations sp i g;
        give_level_mutations_from fuel' sp (i + 1) g'
    end
  else Some g.

(** Lines 649-656. *)
Definition settle_innate_mutation (prev_muts : list Z) (i : Z) (p : player)
  : option player :=
  prev ← fv_get prev_muts i;
  n ← fv_get (innate_mutation p) i;
  inn' ← fv_set (innate_mutation p) i
            (if bool_decide (prev > n) then 0 else u8 (n - prev));
  Some (with_innate_mutation inn' p).

Definition settle_innate_mutations (prev_muts : list Z) (p : player)
  : option player :=
  for_each (settle_innate_mutation prev_muts) (seqZ 0 NUM_MUTATIONS) p.

(** Lines 631-656 together. *)
Definition migrate_mutations (sp : species_type) (g : game) : option game :=
  '(p, prev_muts) ← remove_innate_mutations (you g);
  p ← give_basic_mutations sp p;
  g ← give_level_mutations_from (Z.to_nat (experience_level p)) sp 2
        (with_you p g);
  on_you (settle_innate_mutations prev_muts) g.

(** Lines 658-671. *)
Definition gain_demonic_trait (i : Z) (p : player) : option player :=
  t ← fv_get (demonic_traits p) i;
  let m := dt_mutation t in
  if bool_decide (level_gained t > experience_level p) then Some p
  else
    lvl ← fv_get (mutation p) m;
    mu ← fv_set (mutation p) m (u8 (lvl + 1));
    n ← fv_get (innate_mutation p) m;
    inn ← fv_set (innate_mutation p) m (u8 (n + 1));
    Some (with_innate_mutation inn (with_mutation mu p)).

Definition demonspawn_traits (sp : species_type) (g : game) : option game :=
  if bool_decide (sp = SP_DEMONSPAWN) then
    g ← roll_demonspawn_mutations g;
    on_you (for_each gain_demonic_trait
              (seqZ 0 (Z.of_nat (length (demonic_traits (you g)))))) g
  else Some g.

(** Lines 675-681. *)
Definition swap_ring_slots (old_sp sp : species_type) (p : player)
  : option player :=
  if xorb (bool_decide (old_sp = SP_OCTOPODE)) (bool_decide (sp = SP_OCTOPODE))
  then
    p ← _swap_equip EQ_LEFT_RING EQ_RING_ONE p;
    _swap_equip EQ_RIGHT_RING EQ_RING_TWO p
  else Some p.

(** Lines 683-695. *)
Definition drop_unwearable (i : Z) (g : game) : option game :=
  if bool_decide (you_can_wear g i = MB_FALSE) then
    e ← fv_get (equip (you g)) i;
    if bool_decide (e ≠ -1) then
      it ← fv_get (inv (you g)) e;
      let g := mprf (your_name it +:+ " fall"
                     +:+ (if bool_decide (quantity it > 1) then "" else "s")
                     +:+ " away.") g in
      eq' ← fv_set (equip (you g)) i (-1);
      me' ← fv_set (melded (you g)) i false;
      Some (with_you (with_melded me' (with_equip eq' (you g))) g)
    else Some g
  else Some g.

Definition drop_unwearables (g : game) : option game :=
  for_each drop_unwearable (seqZ EQ_FIRST_EQUIP (NUM_EQUIP - EQ_FIRST_EQUIP)) g.

(** Everything up to the exchange of the ring slots (lines 618-673); the
    result carries the species the player had. *)
Definition change_species_prefix (sp : species_type) (g : game)
  : option (species_type * game) :=
  if bool_decide (sp = SP_UNKNOWN) then None
  else
    g ← on_you (rescale_skill_points sp) g;
    let old_sp := species (you g) in
    n ← species_name species_data sp SPNAME_PLAIN;
    let g := with_you (with_species sp n (you g)) g in
    g ← migrate_mutations sp g;
    g ← demonspawn_traits sp g;
    g ← update_vision_range g;
    Some (old_sp, g).

(** Everything after it (lines 683-709); [init_player_doll] belongs to tile
    builds only. *)
Definition change_species_suffix (g : game) : option game :=
  g ← drop_unwearables g;
  g ← fixup_skills g;
  g ← calc_hp g;
  g ← calc_mp g;
  g ← update_player_symbol g;
  g ← redraw_screen g;
  update_screen g.

Definition change_species_to (sp : species_type) (g : game) : option game :=
  '(old_sp, g) ← change_species_prefix sp g;
  g ← on_you (swap_ring_slots old_sp sp) g;
  change_species_suffix g.

End Player.

(** ** What the headers and the table are assumed to provide *)

Section Layout.

Context `{E : Enums}.

(** The case labels of the [switch] of [species_bans_eq]. *)
Definition bans_eq_labels : list equipment_type :=
  [EQ_LEFT_RING; EQ_RIGHT_RING] ++ ring_one_to_eight
  ++ [EQ_AMULET; EQ_RING_AMULET; EQ_WEAPON; EQ_STAFF;
      EQ_RINGS; EQ_RINGS_PLUS; EQ_ALL_ARMOUR].

(** C++ rejects a [switch] with two equal case labels. *)
Definition bans_eq_labels_distinct : Prop := NoDup bans_eq_labels.

(** The jewellery slots are the two hand rings, the amulet, the eight
    tentacle rings and the amulet ring, in any order; [EQ_NONE] is not a
    slot. *)
Definition jewellery_layout : Prop :=
  jewellery_range ≡ₚ
    [EQ_LEFT_RING; EQ_RIGHT_RING; EQ_AMULET] ++ ring_one_to_eight
    ++ [EQ_RING_AMULET]
  ∧ EQ_NONE ∉ jewellery_range.


Variable species_data : gmap Z species_def.

(** Every species below [NUM_SPECIES] has an entry in the table. *)
Definition table_complete : Prop :=
  ∀ sp, 0 ≤ sp < NUM_SPECIES → is_Some (species_data !! sp).

(** The plain names of the table are not empty and no two species share
    one. *)
Definition names_distinct : Prop :=
  ∀ sp1 sp2 d1 d2,
    0 ≤ sp1 < NUM_SPECIES → 0 ≤ sp2 < NUM_SPECIES →
    species_data !! sp1 = Some d1 → species_data !! sp2 = Some d2 →
    name d1 = name d2 → sp1 = sp2.

Definition names_not_empty : Prop :=
  ∀ sp d, 0 ≤ sp < NUM_SPECIES → species_data !! sp = Some d →
          name d ≠ ""%string.

End Layout.

(** The arrays of [you] have the sizes of their declarations and every
    mutation level is a [uint8_t] that covers the innate level. *)
Record player_ok `{E : Enums} (p : player) : Prop := {
  ok_num_mutations : 0 ≤ NUM_MUTATIONS;
  ok_mutation : Z.of_nat (length (mutation p)) = NUM_MUTATIONS;
  ok_innate_mutation : Z.of_nat (length (innate_mutation p)) = NUM_MUTATIONS;
  ok_levels : ∀ i m n,
    fv_get (mutation p) i = Some m → fv_get (innate_mutation p) i = Some n →
    0 ≤ n ≤ m ∧ m < 256
}.


(** A procedure of another translation unit that leaves the mutations of
    [you] alone. *)
Definition keeps_mutations (f : game → option game) : Prop :=
  ∀ g g', f g = Some g' →
    mutation (you g') = mutation (you g)
    ∧ innate_mutation (you g') = innate_mutation (you g).


Definition bystanders_keep_mutations `{X : Extern} : Prop :=
  keeps_mutations update_vision_range ∧ keeps_mutations fixup_skills
  ∧ keeps_mutations calc_hp ∧ keeps_mutations calc_mp
  ∧ keeps_mutations update_player_symbol ∧ keeps_mutations redraw_screen
  ∧ keeps_mutations update_screen.

(** A procedure of another translation unit that leaves a part of [you]
    as it finds it. *)
Definition keeps {A} (part : player → A) (f : game → option game) : Prop :=
  ∀ g g', f g = Some g' → part (you g') = part (you g).

(** Every procedure [change_species_to] calls outside [species.cc] leaves
    that part of [you] alone. *)
Definition outside_keeps `{X : Extern} {A} (part : player → A) : Prop :=
  (∀ mut lvl reason, keeps part (perma_mutate mut lvl reason))
  ∧ keeps part roll_demonspawn_mutations
  ∧ keeps part update_vision_range ∧ keeps part fixup_skills
  ∧ keeps part calc_hp ∧ keeps part calc_mp
  ∧ keeps part update_player_symbol ∧ keeps part redraw_screen
  ∧ keeps part update_screen.

(** The skill points in the words of the spec: from [g] to [g'] the points
    of every skill are multiplied by the aptitude factor of the new species
    [sp] and divided by the one of the species the player had. *)
Definition rescales_as_specified `{E : Enums} `{X : Extern}
    (sp : species_type) (g g' : game) : Prop :=
  ∀ sk pts pts',
    SK_FIRST_SKILL ≤ sk < NUM_SKILLS →
    fv_get (skill_points (you g)) sk = Some pts →
    fv_get (skill_points (you g')) sk = Some pts' →
    (inject_Z pts'
     == inject_Z pts * float_value (species_apt_factor sk sp)
        / float_value (species_apt_factor sk (species (you g))))%Q.

(** ** Vocabulary of the properties *)

Section Vocabulary.

Context `{E : Enums}.
Variable species_data : gmap Z species_def.

(** The test of the loop of [species_ring_slots]. *)
Definition kept (sp : species_type) (missing eq : equipment_type) : Prop :=
  eq ≠ EQ_AMULET ∧ eq ≠ EQ_RING_AMULET ∧ eq ≠ missing
  ∧ species_bans_eq species_data sp eq = Some false.

#[global] Instance kept_dec sp missing eq : Decision (kept sp missing eq).
Proof. unfold kept. apply _. Defined.

(** The jewellery slots by name. *)
Definition jewellery_slots : list equipment_type :=
  [EQ_LEFT_RING; EQ_RIGHT_RING; EQ_AMULET] ++ ring_one_to_eight
  ++ [EQ_RING_AMULET].

(** The levels of [mut] that the first [k] entries of a schedule add up
    to. *)
Definition cumulative_level (lums : list level_up_mutation)
    (mut : mutation_type) (k : nat) : Z :=
  foldr Z.add 0
    (lum_mut_level <$> filter (λ lum, lum_mut lum = mut) (take k lums)).

(** Every running sum of the levels of [mut] in a schedule is an [int]. *)
Definition sums_fit_int (lums : list level_up_mutation) (mut : mutation_type)
  : Prop :=
  ∀ k, INT_MIN ≤ cumulative_level lums mut k ≤ INT_MAX.

(** The level [give_basic_mutations] leaves for [mut]: the one of the last
    entry of the schedule that grants [mut] at experience level 1. *)
Definition basic_level (lums : list level_up_mutation) (mut : mutation_type)
  : option Z :=
  (λ lum, u8 (lum_mut_level lum))
  <$> last (filter (λ lum, lum_mut lum = mut ∧ lum_xp_level lum = 1) lums).

(** What an array holds at an index after a grant of [l], if any. *)
Definition granted (l : option Z) (before : option Z) : option Z :=
  match l with Some _ => l | None => before end.

(** The acquired level of a mutation: what the player has of it beyond the
    innate level. *)
Definition acquired_level (p : player) (mut : mutation_type) : option Z :=
  m ← fv_get (mutation p) mut;
  n ← fv_get (innate_mutation p) mut;
  Some (m - n).




(** Two players with the same mutations and experience level. *)
Definition same_mutations (p q : player) : Prop :=
  mutation q = mutation p ∧ innate_mutation q = innate_mutation p
  ∧ experience_level q = experience_level p.

(** The loop of lines 634-643 has handled the mutations below [k]. *)
Definition removed_upto (p0 : player) (k : nat) (s : player * list Z) : Prop :=
  length (mutation s.1) = length (mutation p0)
  ∧ length (innate_mutation s.1) = length (innate_mutation p0)
  ∧ length s.2 = Z.to_nat NUM_MUTATIONS
  ∧ experience_level s.1 = experience_level p0
  ∧ ∀ (i : nat) m n,
      mutation p0 !! i = Some m → innate_mutation p0 !! i = Some n →
      if decide (i < k)%nat
      then mutation s.1 !! i = Some (m - n)
           ∧ innate_mutation s.1 !! i = Some 0
           ∧ s.2 !! i = Some (m - n)
      else mutation s.1 !! i = Some m ∧ innate_mutation s.1 !! i = Some n.

(** The loop of lines 649-656 has handled the mutations below [k]. *)
Definition settled_upto (prev : list Z) (p0 : player) (k : nat) (p : player)
  : Prop :=
  mutation p = mutation p0
  ∧ length (innate_mutation p) = length (innate_mutation p0)
  ∧ experience_level p = experience_level p0
  ∧ ∀ (i : nat) pv n,
      prev !! i = Some pv → innate_mutation p0 !! i = Some n →
      innate_mutation p !! i
      = Some (if decide (i < k)%nat
              then if bool_decide (pv > n) then 0 else u8 (n - pv)
              else n).

(** The slot whose content ends in [eq] when [a] and [b] are exchanged. *)
Definition transposed (a b eq : equipment_type) : equipment_type :=
  if decide (eq = b) then a else if decide (eq = a) then b else eq.





End Vocabulary.


(** ** A small instance to run the model on

    Seven species, the equipment slots in the order of [equipment-type.h],
    six mutations and three skills. *)

Module Sample.

Definition SP_HUMAN : species_type := 0.
Definition SP_TROLL : species_type := 1.
Definition MUT_TOUGH_SKIN : mutation_type := 0.
Definition MUT_REGENERATION : mutation_type := 2.
Definition MUT_PAWS : mutation_type := 3.
Definition MUT_TENTACLE_ARMS : mutation_type := 5.

#[export] Instance enums : Enums := {|
  SP_UNKNOWN := 100; NUM_SPECIES := 7;
  SP_FELID := 2; SP_OCTOPODE := 3; SP_GNOLL := 4; SP_BARACHI := 5;
  SP_DEMONSPAWN := 6;
  EQ_NONE := -1; EQ_WEAPON := 0; EQ_HELMET := 2; EQ_SHIELD := 5;
  EQ_BODY_ARMOUR := 6; EQ_LEFT_RING := 7; EQ_RIGHT_RING := 8;
  EQ_AMULET := 9; EQ_RING_ONE := 10; EQ_RING_TWO := 11;
  EQ_RING_THREE := 12; EQ_RING_FOUR := 13; EQ_RING_FIVE := 14;
  EQ_RING_SIX := 15; EQ_RING_SEVEN := 16; EQ_RING_EIGHT := 17;
  EQ_RING_AMULET := 18; EQ_STAFF := 100; EQ_RINGS := 101;
  EQ_RINGS_PLUS := 102; EQ_ALL_ARMOUR := 103;
  EQ_FIRST_EQUIP := 0; NUM_EQUIP := 19;
  EQ_FIRST_JEWELLERY := 7; EQ_LAST_JEWELLERY := 18;
  NUM_MUTATIONS := 6; MUT_CLAWS := 1; MUT_UNBREATHING := 4;
  SK_FIRST_SKILL := 0; NUM_SKILLS := 3;
  SPF_DRACONIAN := 2; SPF_SMALL_TORSO := 4; SPF_NO_HAIR := 8;
  SPF_NO_BONES := 16;
  PSIZE_TORSO := 0;
  sizeof_string := 32
|}.

Definition plain (abbr nm : string) (sz : size_type)
    (lums : list level_up_mutation) : species_def :=
  {| abbrev := abbr; name := nm; adj_name := None; genus_name := None;
     flags := 0; size := sz; walking_verb := None;
     level_up_mutations := lums |}.

Definition lum (m : mutation_type) (l x : Z) : level_up_mutation :=
  {| lum_mut := m; lum_mut_level := l; lum_xp_level := x |}.

Definition troll : species_def :=
  plain "Tr" "Troll" 4
    [lum MUT_TOUGH_SKIN 2 1; lum MUT_REGENERATION 1 1; lum MUT_CLAWS 3 1].

Definition species_data : gmap Z species_def :=
  list_to_map
    [ (SP_HUMAN, plain "Hu" "Human" 3 []);
      (SP_TROLL, troll);
      (SP_FELID, plain "Fe" "Felid" 1 [lum MUT_PAWS 1 1; lum MUT_CLAWS 1 1]);
      (SP_OCTOPODE, plain "Op" "Octopode" 3 [lum MUT_TENTACLE_ARMS 1 1]);
      (SP_GNOLL, plain "Gn" "Gnoll" 3 []);
      (SP_BARACHI, plain "Ba" "Barachi" 3 []);
      (SP_DEMONSPAWN, plain "Ds" "Demonspawn" 3 []) ].

(** Procedures of the other translation units that do nothing. *)
#[export] Instance idle : Extern := {|
  species_apt_factor := λ _ _, float_of_uint 1;
  perma_mutate := λ _ _ _ g, Some g;
  roll_demonspawn_mutations := Some;
  update_vision_range := Some;
  you_can_wear := λ _ _, MB_TRUE;
  calc_hp := Some; calc_mp := Some; fixup_skills := Some;
  update_player_symbol := Some; redraw_screen := Some; update_screen := Some
|}.

(** A level-1 human with one acquired level of claws, a ring on each hand
    (inventory items 0 and 1), the left one melded. *)
Definition human : player :=
  {| species := SP_HUMAN; chr_species_name := "Human";
     experience_level := 1;
     skill_points := [10; 20; 30];
     mutation := [0; 1; 0; 0; 0; 0];
     innate_mutation := [0; 0; 0; 0; 0; 0];
     demonic_traits := [];
     equip := [-1; -1; -1; -1; -1; -1; -1; 0; 1; -1;
               -1; -1; -1; -1; -1; -1; -1; -1; -1];
     melded := [false; false; false; false; false; false; false; true; false;
                false; false; false; false; false; false; false; false; false;
                false];
     inv := [ {| your_name := "your ring of ice"; quantity := 1 |};
              {| your_name := "your ring of fire"; quantity := 1 |} ] |}.

Definition heads_then_tails : rng_state :=
  {| tape := λ n, bool_decide (n = 0%nat); pos := 0 |}.

Definition start : game :=
  {| you := human; rng := heads_then_tails; messages := [] |}.

(** The same human with two acquired levels of claws. *)
Definition clawed : game :=
  {| you := with_mutation [0; 2; 0; 0; 0; 0] human;
     rng := heads_then_tails; messages := [] |}.


Definition as_troll : game :=
  default start (change_species_to species_data SP_TROLL start).

Definition as_felid : game :=
  default clawed (change_species_to species_data SP_FELID clawed).

End Sample.

(** ** More of [species.cc]: lookups by abbreviation and by part of a name *)

Class MoreEnums := {
  (* species-type.h *)
  SP_BASE_DRACONIAN : species_type;
  SP_MOTTLED_DRACONIAN : species_type;
  (* tag-version.h *)
  TAG_MAJOR_VERSION : Z
}.

(** [std::string::find] from position 0; [None] is [npos]. *)
Definition string_find (s sub : string) : option nat := String.index 0 sub s.

(** [species_data] is a [map<species_type, species_def>] (species-data.h):
    a loop over it meets the entries by increasing key. *)
Definition key_le (x y : Z * species_def) : Prop := x.1 ≤ y.1.

#[global] Instance key_le_dec x y : Decision (key_le x y).
Proof. unfold key_le. apply _. Defined.

#[global] Instance key_le_trans : Transitive key_le.
Proof. intros x y z. unfold key_le. lia. Qed.

#[global] Instance key_le_total : Total key_le.
Proof. intros x y. unfold key_le. lia. Qed.

(** The member [recommended_jobs] of [species_def], beside the members
    kept above. *)
Record species_def_jobs := {
  shown : species_def;
  recommended_jobs : list Z
}.

Section MoreSpecies.

Context `{E : Enums} `{M : MoreEnums}.
Variable species_data : gmap Z species_def.

(** [lowercase_string] of [stringutil.h]. *)
Variable lowercase_string : string → string.

Definition species_entries : list (species_type * species_def) :=
  merge_sort key_le (map_to_list species_data).

Fixpoint get_species_by_abbrev_loop (abbr : string)
    (entries : list (species_type * species_def)) : species_type :=
  match entries with
  | [] => SP_UNKNOWN
  | entry :: rest =>
      if String.eqb (lowercase_string abbr) (lowercase_string (abbrev entry.2))
      then entry.1
      else get_species_by_abbrev_loop abbr rest
  end.

Definition get_species_by_abbrev (abbr : string) : species_type :=
  if String.eqb (lowercase_string abbr) "dr" then SP_BASE_DRACONIAN
  else get_species_by_abbrev_loop abbr species_entries.

(** The loop of [find_species_from_string]; [sp] is the match found so
    far. *)
Fixpoint find_species_from_string_loop (spec : string) (initial_only : bool)
    (range : list Z) (sp : species_type) : option species_type :=
  match range with
  | [] => Some sp
  | si :: rest =>
      n ← species_name species_data si SPNAME_PLAIN;
      let sp_name := lowercase_string n in
      match string_find sp_name spec with
      | Some pos =>
          if bool_decide (pos = 0%nat) then Some si
          else if negb initial_only
               then find_species_from_string_loop spec initial_only rest si
               else find_species_from_string_loop spec initial_only rest sp
      | None => find_species_from_string_loop spec initial_only rest sp
      end
  end.

Definition find_species_from_string (species : string) (initial_only : bool)
  : option species_type :=
  let spec := lowercase_string species in
  find_species_from_string_loop spec initial_only (seqZ 0 NUM_SPECIES)
    SP_UNKNOWN.

(** The table with the recommended jobs. *)
Variable species_jobs : gmap Z species_def_jobs.

Definition get_species_def_jobs (species : species_type)
  : option species_def_jobs :=
  if bool_decide (species ≠ SP_UNKNOWN)
     && negb (bool_decide (0 ≤ species < NUM_SPECIES))
  then None
  else species_jobs !! species.

Definition is_starting_species (species : species_type) : option bool :=
  if bool_decide (species < NUM_SPECIES) then
    def ← get_species_def_jobs species;
    Some (negb (bool_decide (recommended_jobs def = [])))
  else Some false.

Definition species_is_removed (species : species_type) : option bool :=
  if bool_decide (TAG_MAJOR_VERSION = 34)
     && bool_decide (species = SP_MOTTLED_DRACONIAN)
  then Some true
  else
    dr ← species_is_draconian (shown <$> species_jobs) species;
    if dr : bool then Some false
    else
      def ← get_species_def_jobs species;
      if bool_decide (recommended_jobs def = []) then Some true
      else Some false.

End MoreSpecies.

(** ** A random draconian colour *)

Section RandomColour.

Context `{E : Enums} `{M : MoreEnums}.
Variable species_jobs : gmap Z species_def_jobs.

(** [random_range] of [random.h], over the state [R] of the generator. *)
Variable R : Type.
Variable random_range : Z → Z → R → Z * R.

(** One turn of the [do ... while] of [random_draconian_colour]: the
    species drawn and the value of the loop condition, whose [||] calls
    [species_is_removed] for a draconian only. *)
Definition random_draconian_colour_turn (r : R)
  : option (species_type * bool * R) :=
  let '(species, r') := random_range 0 (NUM_SPECIES - 1) r in
  dr ← species_is_draconian (shown <$> species_jobs) species;
  again ← (if negb dr then Some true
           else
             removed ← species_is_removed species_jobs species;
             if removed : bool then Some true
             else Some (bool_decide (species = SP_BASE_DRACONIAN)));
  Some (species, again, r').

(** The loop has no bound in the source: the fuel is the number of turns
    the model follows it for, and [None] with fuel left is an assertion
    of a callee. *)
Fixpoint random_draconian_colour (fuel : nat) (r : R)
  : option (species_type * R) :=
  match fuel with
  | O => None
  | S fuel' =>
      '(species, again, r') ← random_draconian_colour_turn r;
      if again : bool then random_draconian_colour fuel' r'
      else Some (species, r')
  end.

(** A species the loop of [random_draconian_colour] stops at. *)
Definition fit_colour (sp : species_type) : Prop :=
  species_is_draconian (shown <$> species_jobs) sp = Some true
  ∧ species_is_removed species_jobs sp = Some false
  ∧ sp ≠ SP_BASE_DRACONIAN.

(** [random_range] answers inside the range it is given. *)
Definition random_range_in_range : Prop :=
  ∀ lo hi r, lo ≤ hi → lo ≤ (random_range lo hi r).1 ≤ hi.

End RandomColour.

Section MoreVocabulary.

Context `{E : Enums}.
Variable species_data : gmap Z species_def.
Variable lowercase_string : string → string.

(** The plain name of a species in lower case, empty without an entry. *)
Definition lower_name (sp : species_type) : string :=
  lowercase_string (default ""%string
                      (species_name species_data sp SPNAME_PLAIN)).

(** [spec] starts the lower-case name of [sp], or occurs in it. *)
Definition starts_name (spec : string) (sp : species_type) : Prop :=
  string_find (lower_name sp) spec = Some 0%nat.

Definition in_name (spec : string) (sp : species_type) : Prop :=
  is_Some (string_find (lower_name sp) spec).

#[global] Instance starts_name_dec spec sp : Decision (starts_name spec sp).
Proof. unfold starts_name. apply _. Defined.

#[global] Instance in_name_dec spec sp : Decision (in_name spec sp).
Proof. unfold in_name. apply _. Defined.

(** The abbreviation of a table entry is [abbr] up to case. *)
Definition abbrev_is (abbr : string) (def : species_def) : Prop :=
  lowercase_string (abbrev def) = lowercase_string abbr.

End MoreVocabulary.

(** The slot [i] holds in [t] what it held in [g], or it has been emptied
    by the loop of lines 685-695. *)
Definition kept_or_emptied `{E : Enums} (g t : game) (i : equipment_type)
  : Prop :=
  (fv_get (equip (you t)) i = fv_get (equip (you g)) i
   ∧ fv_get (melded (you t)) i = fv_get (melded (you g)) i)
  ∨ (EQ_FIRST_EQUIP ≤ i < NUM_EQUIP
     ∧ fv_get (equip (you t)) i = Some (-1)
     ∧ fv_get (melded (you t)) i = Some false).

(** The demonic traits for the mutation [mut] that the player has reached
    at the experience level [xl]. *)
Definition traits_gained (traits : list demon_trait) (xl : Z)
    (mut : mutation_type) : list demon_trait :=
  filter (λ t, dt_mutation t = mut ∧ level_gained t ≤ xl) traits.

(** A procedure of another translation unit that keeps the mutation levels
    of [you] well formed. *)
Definition keeps_player_ok `{E : Enums} (f : game → option game) : Prop :=
  ∀ g g', f g = Some g' → player_ok (you g) → player_ok (you g').

(** ** The functions that return a value, as programs

    To tell a lookup from a function that touches the program state, every
    function of [species.cc] that returns a value is written as a program:
    a tree whose nodes are the accesses the function makes outside its
    arguments and locals, in the order of the source.  [Lookup] and
    [Entries] read the constant table [species_data]; the other nodes read
    [you] or call the random generator. *)

Class QueryEnums := {
  (* species-type.h *)
  SP_NAGA : species_type;
  SP_TENGU : species_type;
  SP_MUMMY : species_type;
  SP_DEEP_ELF : species_type;
  SP_HILL_ORC : species_type;
  SP_DEMIGOD : species_type;
  SP_RED_DRACONIAN : species_type;
  SP_WHITE_DRACONIAN : species_type;
  SP_GREEN_DRACONIAN : species_type;
  SP_YELLOW_DRACONIAN : species_type;
  SP_GREY_DRACONIAN : species_type;
  SP_BLACK_DRACONIAN : species_type;
  SP_PURPLE_DRACONIAN : species_type;
  SP_PALE_DRACONIAN : species_type;
  (* mutation-type.h *)
  MUT_TENTACLE_ARMS : mutation_type;
  MUT_PAWS : mutation_type;
  (* undead-state-type.h, habitat-type.h, size-type.h *)
  US_ALIVE : Z;
  HT_WATER : Z;
  HT_AMPHIBIOUS : Z;
  SIZE_LARGE : size_type;
  (* species.h: the default of the parameter [psize] of [species_size] *)
  species_size_psize : Z;
  (* weapon-type.h, skill-type.h, object-class-type.h *)
  WPN_THROWN : Z;
  WPN_UNARMED : Z;
  SK_THROWING : skill_type;
  SK_UNARMED_COMBAT : skill_type;
  OBJ_WEAPONS : Z;
  (* monster-type.h *)
  MONS_ICE_DRAGON : Z;
  MONS_SWAMP_DRAGON : Z;
  MONS_GOLDEN_DRAGON : Z;
  MONS_IRON_DRAGON : Z;
  MONS_STORM_DRAGON : Z;
  MONS_QUICKSILVER_DRAGON : Z;
  MONS_STEAM_DRAGON : Z;
  MONS_FIRE_DRAGON : Z;
  (* ability-type.h *)
  ABIL_BREATHE_MEPHITIC : Z;
  ABIL_BREATHE_FIRE : Z;
  ABIL_BREATHE_FROST : Z;
  ABIL_BREATHE_ACID : Z;
  ABIL_BREATHE_LIGHTNING : Z;
  ABIL_BREATHE_POWER : Z;
  ABIL_BREATHE_STEAM : Z;
  ABIL_NON_ABILITY : Z
}.

(** A [species_def] with the further members the functions read: [basics]
    holds the members modelled above, [base_s] and [base_d] are the members
    [s] and [d]. *)
Record species_entry := {
  basics : species_def_jobs;
  undeadness : Z;
  habitat : Z;
  monster_species : Z;
  xp_mod : Z;
  hp_mod : Z;
  mp_mod : Z;
  wl_mod : Z;
  base_s : Z;
  base_d : Z;
  recommended_weapons : list skill_type;
  terse_fake_mutations : list string;
  verbose_fake_mutations : list string;
  altar_action : option string
}.

(** The accesses of a program. *)
Inductive prog (A : Type) : Type :=
  | Ret (a : A)
  (* a failed [ASSERT], a read outside an array, a key [at] does not find,
     an [int] that overflows: the call has no result *)
  | Fail
  (* [species_data] read at a key *)
  | Lookup (sp : species_type) (k : option species_entry → prog A)
  (* [species_data] gone through in the order of its keys *)
  | Entries (k : list (species_type * species_entry) → prog A)
  (* [you.species] *)
  | YouSpecies (k : species_type → prog A)
  (* [coinflip()], [random_range(lo, hi)] and [random2(n)] of random.h *)
  | Coinflip (k : bool → prog A)
  | RandomRange (lo hi : Z) (k : Z → prog A)
  | Random2 (n : Z) (k : Z → prog A).

Arguments Ret {A} a.
Arguments Fail {A}.
Arguments Lookup {A} sp k.
Arguments Entries {A} k.
Arguments YouSpecies {A} k.
Arguments Coinflip {A} k.
Arguments RandomRange {A} lo hi k.
Arguments Random2 {A} n k.

Fixpoint prog_bind {A B} (k : A → prog B) (m : prog A) : prog B :=
  match m with
  | Ret a => k a
  | Fail => Fail
  | Lookup sp c => Lookup sp (λ o, prog_bind k (c o))
  | Entries c => Entries (λ l, prog_bind k (c l))
  | YouSpecies c => YouSpecies (λ sp, prog_bind k (c sp))
  | Coinflip c => Coinflip (λ b, prog_bind k (c b))
  | RandomRange lo hi c => RandomRange lo hi (λ z, prog_bind k (c z))
  | Random2 n c => Random2 n (λ z, prog_bind k (c z))
  end.

#[global] Instance prog_mret : MRet prog := @Ret.
#[global] Instance prog_mbind : MBind prog := @prog_bind.
#[global] Instance prog_fmap : FMap prog :=
  λ A B f, prog_bind (λ a, Ret (f a)).

(** An optional value of a callee without accesses. *)
Definition of_option {A} (o : option A) : prog A :=
  match o with Some a => Ret a | None => Fail end.

(** [random_range] and [random2] of random.h draw from the generator. *)
Class Generator := {
  random_range : Z → Z → rng_state → Z * rng_state;
  random2 : Z → rng_state → Z * rng_state
}.

(** [species_data] is gone through by increasing key. *)
Definition entry_le (x y : Z * species_entry) : Prop := x.1 ≤ y.1.

#[global] Instance entry_le_dec x y : Decision (entry_le x y).
Proof. unfold entry_le. apply _. Defined.

Definition with_rng (r : rng_state) (g : game) : game :=
  {| you := you g; rng := r; messages := messages g |}.

(** A program run in a program state: the value it returns and the state
    it leaves. *)
Fixpoint run `{O : Generator} {A} (table : gmap Z species_entry) (p : prog A)
    (g : game) : option (A * game) :=
  match p with
  | Ret a => Some (a, g)
  | Fail => None
  | Lookup sp k => run table (k (table !! sp)) g
  | Entries k => run table (k (merge_sort entry_le (map_to_list table))) g
  | YouSpecies k => run table (k (species (you g))) g
  | Coinflip k =>
      let '(coin, r) := coinflip (rng g) in run table (k coin) (with_rng r g)
  | RandomRange lo hi k =>
      let '(z, r) := random_range lo hi (rng g) in
      run table (k z) (with_rng r g)
  | Random2 n k =>
      let '(z, r) := random2 n (rng g) in run table (k z) (with_rng r g)
  end.

(** A program is a stateless lookup when it leaves every state as it found
    it and two calls of it, in whatever states, return equal results: the
    same value, or no value both. *)
Definition stateless_lookup `{O : Generator} {A}
    (table : gmap Z species_entry) (p : prog A) : Prop :=
  (∀ g a g', run table p g = Some (a, g') → g' = g)
  ∧ (∀ g1 g2, fst <$> run table p g1 = fst <$> run table p g2).

(** A call that returns [o] and leaves the state [g] as it is. *)
Definition returns {A} (o : option A) (g : game) : option (A * game) :=
  (λ a, (a, g)) <$> o.

(** The descriptors of a table, with the members of the model above. *)
Definition descriptors (table : gmap Z species_entry) : gmap Z species_def :=
  (shown ∘ basics) <$> table.

(** A program whose only accesses are reads of [species_data]. *)
Inductive lookup_only {A} : prog A → Prop :=
  | lookup_only_Ret a : lookup_only (Ret a)
  | lookup_only_Fail : lookup_only Fail
  | lookup_only_Lookup sp k :
      (∀ o, lookup_only (k o)) → lookup_only (Lookup sp k)
  | lookup_only_Entries k :
      (∀ l, lookup_only (k l)) → lookup_only (Entries k).

Module Prog.

Section Programs.

Context `{E : Enums} `{M : MoreEnums} `{Q : QueryEnums}.

(** [lowercase_string] of stringutil.h, [item_attack_skill] of item-prop.h
    and the result of [playable_species()] of playable.h. *)
Variable lowercase_string : string → string.
Variable item_attack_skill : Z → Z → skill_type.
Variable playable_species : list species_type.

Definition get_species_def (species : species_type) : prog species_entry :=
  if bool_decide (species ≠ SP_UNKNOWN)
     && negb (bool_decide (0 ≤ species < NUM_SPECIES))
  then Fail
  else Lookup species of_option.

Definition get_species_abbrev (which_species : species_type) : prog string :=
  def ← get_species_def which_species;
  Ret (abbrev (shown (basics def))).

Fixpoint get_species_by_abbrev_loop (abbr : string)
    (entries : list (species_type * species_entry)) : species_type :=
  match entries with
  | [] => SP_UNKNOWN
  | entry :: rest =>
      if String.eqb (lowercase_string abbr)
           (lowercase_string (abbrev (shown (basics entry.2))))
      then entry.1
      else get_species_by_abbrev_loop abbr rest
  end.

Definition get_species_by_abbrev (abbr : string) : prog species_type :=
  if String.eqb (lowercase_string abbr) "dr" then Ret SP_BASE_DRACONIAN
  else Entries (λ entries, Ret (get_species_by_abbrev_loop abbr entries)).

Definition species_name (speci : species_type)
    (spname_type : species_name_type) : prog string :=
  def ← get_species_def speci;
  let def := shown (basics def) in
  Ret (match spname_type, genus_name def, adj_name def with
       | SPNAME_GENUS, Some g, _ => g
       | SPNAME_ADJ, _, Some a => a
       | _, _, _ => name def
       end).

Fixpoint str_to_species_loop (species : string) (range : list Z)
  : prog species_type :=
  match range with
  | [] => Ret SP_UNKNOWN
  | i :: rest =>
      n ← species_name i SPNAME_PLAIN;
      if String.eqb species n then Ret i else str_to_species_loop species rest
  end.

Definition str_to_species (species : string) : prog species_type :=
  if String.eqb species ""%string then Ret SP_UNKNOWN
  else str_to_species_loop species (seqZ 0 NUM_SPECIES).

Definition species_walking_verb (sp : species_type) : prog string :=
  def ← get_species_def sp;
  Ret (default "Walk"%string (walking_verb (shown (basics def)))).

Definition species_is_draconian (species : species_type) : prog bool :=
  def ← get_species_def species;
  Ret (has_flag (shown (basics def)) SPF_DRACONIAN).

Definition species_skin_name (species : species_type) (adj : bool)
  : prog string :=
  dr ← species_is_draconian species;
  Ret (if dr || bool_decide (species = SP_NAGA)
       then if adj then "scaled" else "scales"
       else if bool_decide (species = SP_TENGU)
       then if adj then "feathered" else "feathers"
       else if bool_decide (species = SP_FELID)
       then if adj then "furry" else "fur"
       else if bool_decide (species = SP_MUMMY)
       then if adj then "bandage-wrapped" else "bandages"
       else if adj then "fleshy" else "skin")%string.

Definition species_arm_count (species : species_type) : prog Z :=
  Ret (if bool_decide (species = SP_OCTOPODE) then 8 else 2).

Definition species_bans_eq (species : species_type) (eq : equipment_type)
  : prog bool :=
  arms ← species_arm_count species;
  if one_of eq [EQ_LEFT_RING; EQ_RIGHT_RING] then Ret (bool_decide (arms > 2))
  else if one_of eq ring_one_to_eight then Ret (bool_decide (arms ≤ 2))
  else if one_of eq [EQ_AMULET; EQ_RING_AMULET; EQ_WEAPON; EQ_STAFF;
                     EQ_RINGS; EQ_RINGS_PLUS; EQ_ALL_ARMOUR]
  then Ret false
  else
    if bool_decide (species = SP_OCTOPODE)
       && bool_decide (eq ≠ EQ_HELMET) && bool_decide (eq ≠ EQ_SHIELD)
    then Ret true
    else
      dr ← species_is_draconian species;
      if dr && bool_decide (eq = EQ_BODY_ARMOUR) then Ret true
      else Ret false.

Definition species_sacrificial_arm (species : species_type)
  : prog equipment_type :=
  arms ← species_arm_count species;
  Ret (if bool_decide (arms = 2) then EQ_LEFT_RING else EQ_RING_EIGHT).

Fixpoint species_ring_slots_loop (species : species_type)
    (missing : equipment_type) (range : list Z) (result : list equipment_type)
  : prog (list equipment_type) :=
  match range with
  | [] => Ret result
  | eq :: rest =>
      if bool_decide (eq ≠ EQ_AMULET) && bool_decide (eq ≠ EQ_RING_AMULET)
         && bool_decide (eq ≠ missing)
      then
        banned ← species_bans_eq species eq;
        species_ring_slots_loop species missing rest
          (if negb banned then result ++ [eq] else result)
      else species_ring_slots_loop species missing rest result
  end.

Definition species_ring_slots (species : species_type) (missing_hand : bool)
  : prog (list equipment_type) :=
  missing ← (if missing_hand then species_sacrificial_arm species
             else Ret EQ_NONE);
  species_ring_slots_loop species missing jewellery_range [].

(** The loop goes through the schedule of the descriptor it was handed and
    accesses nothing else: it is the loop of the model above. *)
Definition species_mutation_level (species : species_type)
    (mut : mutation_type) (mut_level : Z) : prog Z :=
  def ← get_species_def species;
  of_option (species_mutation_level_loop mut mut_level 0
               (level_up_mutations (shown (basics def)))).

(** The [int] a condition tests is true when it is not 0. *)
Definition species_arm_name (species : species_type) : prog string :=
  tentacles ← species_mutation_level species MUT_TENTACLE_ARMS 1;
  Ret (if negb (tentacles =? 0) then "tentacle"%string
       else if bool_decide (species = SP_FELID) then "leg"%string
       else "arm"%string).

Definition species_hand_name (species : species_type) : prog string :=
  paws ← species_mutation_level species MUT_PAWS 1;
  if negb (paws =? 0) then Ret "paw"%string
  else
    tentacles ← species_mutation_level species MUT_TENTACLE_ARMS 1;
    if negb (tentacles =? 0) then Ret "tentacle"%string
    else
      claws ← species_mutation_level species MUT_CLAWS 1;
      if negb (claws =? 0) then Ret "claw"%string
      else Ret "hand"%string.

Definition species_undead_type (species : species_type) : prog Z :=
  def ← get_species_def species; Ret (undeadness def).

Definition species_is_undead (species : species_type) : prog bool :=
  us ← species_undead_type species; Ret (bool_decide (us ≠ US_ALIVE)).

Definition species_can_swim (species : species_type) : prog bool :=
  def ← get_species_def species; Ret (bool_decide (habitat def = HT_WATER)).

(** The operands of [||] are evaluated from the left until one is true. *)
Definition species_likes_water (species : species_type) : prog bool :=
  swims ← species_can_swim species;
  if swims : bool then Ret true
  else
    def ← get_species_def species;
    if bool_decide (habitat def = HT_AMPHIBIOUS) then Ret true
    else
      l ← species_mutation_level species MUT_UNBREATHING 2;
      Ret (negb (l =? 0)).

Definition species_size (species : species_type) (psize : Z)
  : prog size_type :=
  def ← get_species_def species;
  let size := size (shown (basics def)) in
  if bool_decide (psize = PSIZE_TORSO) then
    def' ← get_species_def species;
    if has_flag (shown (basics def')) SPF_SMALL_TORSO then Ret (size - 1)
    else Ret size
  else Ret size.

Definition species_can_throw_large_rocks (species : species_type)
  : prog bool :=
  size ← species_size species species_size_psize;
  Ret (bool_decide (size >= SIZE_LARGE)).

Definition species_wears_barding (species : species_type) : prog bool :=
  def ← get_species_def species;
  Ret (has_flag (shown (basics def)) SPF_SMALL_TORSO).

Definition species_is_elven (species : species_type) : prog bool :=
  Ret (bool_decide (species = SP_DEEP_ELF)).

Definition species_is_orcish (species : species_type) : prog bool :=
  Ret (bool_decide (species = SP_HILL_ORC)).

Definition species_has_hair (species : species_type) : prog bool :=
  def ← get_species_def species;
  Ret (negb (has_flag (shown (basics def)) (Z.lor SPF_NO_HAIR SPF_DRACONIAN))).

Definition species_has_bones (species : species_type) : prog bool :=
  def ← get_species_def species;
  Ret (negb (has_flag (shown (basics def)) SPF_NO_BONES)).

Definition species_shout_verb (sp : species_type) (screaminess : Z)
    (directed : bool) : prog string :=
  let screaminess := shout_index screaminess in
  if bool_decide (sp = SP_GNOLL) then
    if bool_decide (screaminess = 0) && directed then
      Coinflip (λ coin,
        if coin then Ret "growl"%string
        else of_option (fv_get dog_shout_verbs screaminess))
    else of_option (fv_get dog_shout_verbs screaminess)
  else if bool_decide (sp = SP_BARACHI) then
    of_option (fv_get frog_shout_verbs screaminess)
  else if bool_decide (sp = SP_FELID) then
    if bool_decide (screaminess = 0) && directed then Ret "hiss"%string
    else of_option (fv_get felid_shout_verbs screaminess)
  else of_option (fv_get shout_verbs screaminess).

(** [find(begin, end, x) != end]: the three arguments of [find] each call
    [get_species_def]. *)
Definition species_recommends_job (species : species_type) (job : Z)
  : prog bool :=
  def ← get_species_def species;
  _ ← get_species_def species;
  _ ← get_species_def species;
  Ret (bool_decide (job ∈ recommended_jobs (basics def))).

Definition species_recommends_weapon (species : species_type) (wpn : Z)
  : prog bool :=
  let sk :=
    if bool_decide (wpn = WPN_THROWN) then SK_THROWING
    else if bool_decide (wpn = WPN_UNARMED) then SK_UNARMED_COMBAT
    else item_attack_skill OBJ_WEAPONS wpn in
  def ← get_species_def species;
  _ ← get_species_def species;
  _ ← get_species_def species;
  Ret (bool_decide (sk ∈ recommended_weapons def)).

Definition player_species_to_mons_species (species : species_type)
  : prog Z :=
  def ← get_species_def species; Ret (monster_species def).

Definition fake_mutations (species : species_type) (terse : bool)
  : prog (list string) :=
  def ← get_species_def species;
  Ret (if terse then terse_fake_mutations def
       else verbose_fake_mutations def).

Definition species_prayer_action (species : species_type) : prog string :=
  def ← get_species_def species;
  Ret (default "kneel at"%string (altar_action def)).

Definition scale_type (species : species_type) : prog string :=
  Ret (if bool_decide (species = SP_RED_DRACONIAN) then "fiery red"
       else if bool_decide (species = SP_WHITE_DRACONIAN) then "icy white"
       else if bool_decide (species = SP_GREEN_DRACONIAN) then "lurid green"
       else if bool_decide (species = SP_YELLOW_DRACONIAN)
       then "golden yellow"
       else if bool_decide (species = SP_GREY_DRACONIAN)
       then "dull iron-grey"
       else if bool_decide (species = SP_BLACK_DRACONIAN) then "glossy black"
       else if bool_decide (species = SP_PURPLE_DRACONIAN) then "rich purple"
       else if bool_decide (species = SP_PALE_DRACONIAN)
       then "pale cyan-grey"
       else if bool_decide (species = SP_BASE_DRACONIAN) then "plain brown"
       else "")%string.

Definition dragon_form_dragon_type : prog Z :=
  YouSpecies (λ species,
    Ret (if bool_decide (species = SP_WHITE_DRACONIAN) then MONS_ICE_DRAGON
         else if bool_decide (species = SP_GREEN_DRACONIAN)
         then MONS_SWAMP_DRAGON
         else if bool_decide (species = SP_YELLOW_DRACONIAN)
         then MONS_GOLDEN_DRAGON
         else if bool_decide (species = SP_GREY_DRACONIAN)
         then MONS_IRON_DRAGON
         else if bool_decide (species = SP_BLACK_DRACONIAN)
         then MONS_STORM_DRAGON
         else if bool_decide (species = SP_PURPLE_DRACONIAN)
         then MONS_QUICKSILVER_DRAGON
         else if bool_decide (species = SP_PALE_DRACONIAN)
         then MONS_STEAM_DRAGON
         else MONS_FIRE_DRAGON)).

Definition draconian_breath (species : species_type) : prog Z :=
  dr ← species_is_draconian species;
  if dr : bool then
    Ret (if bool_decide (species = SP_GREEN_DRACONIAN)
         then ABIL_BREATHE_MEPHITIC
         else if bool_decide (species = SP_RED_DRACONIAN)
         then ABIL_BREATHE_FIRE
         else if bool_decide (species = SP_WHITE_DRACONIAN)
         then ABIL_BREATHE_FROST
         else if bool_decide (species = SP_YELLOW_DRACONIAN)
         then ABIL_BREATHE_ACID
         else if bool_decide (species = SP_BLACK_DRACONIAN)
         then ABIL_BREATHE_LIGHTNING
         else if bool_decide (species = SP_PURPLE_DRACONIAN)
         then ABIL_BREATHE_POWER
         else if bool_decide (species = SP_PALE_DRACONIAN)
         then ABIL_BREATHE_STEAM
         else ABIL_NON_ABILITY)
  else Fail.

Definition species_is_unbreathing (species : species_type) : prog bool :=
  l ← species_mutation_level species MUT_UNBREATHING 1;
  Ret (negb (l =? 0)).

Definition species_has_claws (species : species_type) : prog bool :=
  l ← species_mutation_level species MUT_CLAWS 1;
  Ret (l =? 1).

Definition species_exp_modifier (species : species_type) : prog Z :=
  def ← get_species_def species; Ret (xp_mod def).

Definition species_hp_modifier (species : species_type) : prog Z :=
  def ← get_species_def species; Ret (hp_mod def).

Definition species_mp_modifier (species : species_type) : prog Z :=
  def ← get_species_def species; Ret (mp_mod def).

Definition species_wl_modifier (species : species_type) : prog Z :=
  def ← get_species_def species; Ret (wl_mod def).

Definition species_has_low_str (species : species_type) : prog bool :=
  def ← get_species_def species;
  def' ← get_species_def species;
  Ret (bool_decide (base_d def >= base_s def')).

Definition species_stat_gain_multiplier (species : species_type) : prog Z :=
  Ret (if bool_decide (species = SP_DEMIGOD) then 4 else 1).

Fixpoint find_species_from_string_loop (spec : string) (initial_only : bool)
    (range : list Z) (sp : species_type) : prog species_type :=
  match range with
  | [] => Ret sp
  | si :: rest =>
      n ← species_name si SPNAME_PLAIN;
      let sp_name := lowercase_string n in
      match string_find sp_name spec with
      | Some pos =>
          if bool_decide (pos = 0%nat) then Ret si
          else if negb initial_only
               then find_species_from_string_loop spec initial_only rest si
               else find_species_from_string_loop spec initial_only rest sp
      | None => find_species_from_string_loop spec initial_only rest sp
      end
  end.

Definition find_species_from_string (species : string) (initial_only : bool)
  : prog species_type :=
  let spec := lowercase_string species in
  find_species_from_string_loop spec initial_only (seqZ 0 NUM_SPECIES)
    SP_UNKNOWN.

Definition random_starting_species : prog species_type :=
  let species := playable_species in
  Random2 (Z.of_nat (length species)) (λ i, of_option (fv_get species i)).

Definition is_starting_species (species : species_type) : prog bool :=
  if bool_decide (species < NUM_SPECIES) then
    def ← get_species_def species;
    Ret (negb (bool_decide (recommended_jobs (basics def) = [])))
  else Ret false.

Definition species_is_removed (species : species_type) : prog bool :=
  if bool_decide (TAG_MAJOR_VERSION = 34)
     && bool_decide (species = SP_MOTTLED_DRACONIAN)
  then Ret true
  else
    dr ← species_is_draconian species;
    if dr : bool then Ret false
    else
      def ← get_species_def species;
      Ret (bool_decide (recommended_jobs (basics def) = [])).

(** The [do ... while] of [random_draconian_colour], followed for [turns]
    turns at most. *)
Fixpoint random_draconian_colour (turns : nat) : prog species_type :=
  match turns with
  | O => Fail
  | S turns' =>
      RandomRange 0 (NUM_SPECIES - 1) (λ species,
        dr ← species_is_draconian species;
        again ← (if negb dr then Ret true
                 else
                   removed ← species_is_removed species;
                   if removed : bool then Ret true
                   else Ret (bool_decide (species = SP_BASE_DRACONIAN)));
        if again : bool then random_draconian_colour turns'
        else Ret species)
  end.

End Programs.

End Prog.

(** A call of one of the functions. *)
Inductive query :=
  | Q_get_species_def (species : species_type)
  | Q_get_species_abbrev (which_species : species_type)
  | Q_get_species_by_abbrev (abbr : string)
  | Q_str_to_species (species : string)
  | Q_species_name (speci : species_type) (spname_type : species_name_type)
  | Q_species_walking_verb (sp : species_type)
  | Q_species_skin_name (species : species_type) (adj : bool)
  | Q_species_arm_count (species : species_type)
  | Q_species_bans_eq (species : species_type) (eq : equipment_type)
  | Q_species_sacrificial_arm (species : species_type)
  | Q_species_ring_slots (species : species_type) (missing_hand : bool)
  | Q_species_arm_name (species : species_type)
  | Q_species_hand_name (species : species_type)
  | Q_species_undead_type (species : species_type)
  | Q_species_is_undead (species : species_type)
  | Q_species_can_swim (species : species_type)
  | Q_species_likes_water (species : species_type)
  | Q_species_can_throw_large_rocks (species : species_type)
  | Q_species_wears_barding (species : species_type)
  | Q_species_is_elven (species : species_type)
  | Q_species_is_draconian (species : species_type)
  | Q_species_is_orcish (species : species_type)
  | Q_species_has_hair (species : species_type)
  | Q_species_has_bones (species : species_type)
  | Q_species_shout_verb (sp : species_type) (screaminess : Z)
      (directed : bool)
  | Q_species_size (species : species_type) (psize : Z)
  | Q_species_recommends_job (species : species_type) (job : Z)
  | Q_species_recommends_weapon (species : species_type) (wpn : Z)
  | Q_player_species_to_mons_species (species : species_type)
  | Q_fake_mutations (species : species_type) (terse : bool)
  | Q_species_prayer_action (species : species_type)
  | Q_scale_type (species : species_type)
  | Q_dragon_form_dragon_type
  | Q_draconian_breath (species : species_type)
  | Q_species_is_unbreathing (species : species_type)
  | Q_species_has_claws (species : species_type)
  | Q_species_mutation_level (species : species_type) (mut : mutation_type)
      (mut_level : Z)
  | Q_species_exp_modifier (species : species_type)
  | Q_species_hp_modifier (species : species_type)
  | Q_species_mp_modifier (species : species_type)
  | Q_species_wl_modifier (species : species_type)
  | Q_species_has_low_str (species : species_type)
  | Q_species_stat_gain_multiplier (species : species_type)
  | Q_find_species_from_string (species : string) (initial_only : bool)
  | Q_random_starting_species
  | Q_is_starting_species (species : species_type)
  | Q_random_draconian_colour (turns : nat)
  | Q_species_is_removed (species : species_type).

Inductive answer :=
  | A_def (def : species_entry)
  | A_string (s : string)
  | A_strings (l : list string)
  | A_int (z : Z)
  | A_bool (b : bool)
  | A_slots (l : list equipment_type).

Section Queries.

Context `{E : Enums} `{M : MoreEnums} `{Q : QueryEnums}.
Variable lowercase_string : string → string.
Variable item_attack_skill : Z → Z → skill_type.
Variable playable_species : list species_type.

(** The program of a call. *)
Definition call (q : query) : prog answer :=
  match q with
  | Q_get_species_def species => A_def <$> Prog.get_species_def species
  | Q_get_species_abbrev sp => A_string <$> Prog.get_species_abbrev sp
  | Q_get_species_by_abbrev abbr =>
      A_int <$> Prog.get_species_by_abbrev lowercase_string abbr
  | Q_str_to_species species => A_int <$> Prog.str_to_species species
  | Q_species_name sp t => A_string <$> Prog.species_name sp t
  | Q_species_walking_verb sp => A_string <$> Prog.species_walking_verb sp
  | Q_species_skin_name sp adj => A_string <$> Prog.species_skin_name sp adj
  | Q_species_arm_count sp => A_int <$> Prog.species_arm_count sp
  | Q_species_bans_eq sp eq => A_bool <$> Prog.species_bans_eq sp eq
  | Q_species_sacrificial_arm sp =>
      A_int <$> Prog.species_sacrificial_arm sp
  | Q_species_ring_slots sp missing_hand =>
      A_slots <$> Prog.species_ring_slots sp missing_hand
  | Q_species_arm_name sp => A_string <$> Prog.species_arm_name sp
  | Q_species_hand_name sp => A_string <$> Prog.species_hand_name sp
  | Q_species_undead_type sp => A_int <$> Prog.species_undead_type sp
  | Q_species_is_undead sp => A_bool <$> Prog.species_is_undead sp
  | Q_species_can_swim sp => A_bool <$> Prog.species_can_swim sp
  | Q_species_likes_water sp => A_bool <$> Prog.species_likes_water sp
  | Q_species_can_throw_large_rocks sp =>
      A_bool <$> Prog.species_can_throw_large_rocks sp
  | Q_species_wears_barding sp => A_bool <$> Prog.species_wears_barding sp
  | Q_species_is_elven sp => A_bool <$> Prog.species_is_elven sp
  | Q_species_is_draconian sp => A_bool <$> Prog.species_is_draconian sp
  | Q_species_is_orcish sp => A_bool <$> Prog.species_is_orcish sp
  | Q_species_has_hair sp => A_bool <$> Prog.species_has_hair sp
  | Q_species_has_bones sp => A_bool <$> Prog.species_has_bones sp
  | Q_species_shout_verb sp screaminess directed =>
      A_string <$> Prog.species_shout_verb sp screaminess directed
  | Q_species_size sp psize => A_int <$> Prog.species_size sp psize
  | Q_species_recommends_job sp job =>
      A_bool <$> Prog.species_recommends_job sp job
  | Q_species_recommends_weapon sp wpn =>
      A_bool <$> Prog.species_recommends_weapon item_attack_skill sp wpn
  | Q_player_species_to_mons_species sp =>
      A_int <$> Prog.player_species_to_mons_species sp
  | Q_fake_mutations sp terse => A_strings <$> Prog.fake_mutations sp terse
  | Q_species_prayer_action sp => A_string <$> Prog.species_prayer_action sp
  | Q_scale_type sp => A_string <$> Prog.scale_type sp
  | Q_dragon_form_dragon_type => A_int <$> Prog.dragon_form_dragon_type
  | Q_draconian_breath sp => A_int <$> Prog.draconian_breath sp
  | Q_species_is_unbreathing sp => A_bool <$> Prog.species_is_unbreathing sp
  | Q_species_has_claws sp => A_bool <$> Prog.species_has_claws sp
  | Q_species_mutation_level sp mut mut_level =>
      A_int <$> Prog.species_mutation_level sp mut mut_level
  | Q_species_exp_modifier sp => A_int <$> Prog.species_exp_modifier sp
  | Q_species_hp_modifier sp => A_int <$> Prog.species_hp_modifier sp
  | Q_species_mp_modifier sp => A_int <$> Prog.species_mp_modifier sp
  | Q_species_wl_modifier sp => A_int <$> Prog.species_wl_modifier sp
  | Q_species_has_low_str sp => A_bool <$> Prog.species_has_low_str sp
  | Q_species_stat_gain_multiplier sp =>
      A_int <$> Prog.species_stat_gain_multiplier sp
  | Q_find_species_from_string species initial_only =>
      A_int
      <$> Prog.find_species_from_string lowercase_string species initial_only
  | Q_random_starting_species =>
      A_int <$> Prog.random_starting_species playable_species
  | Q_is_starting_species sp => A_bool <$> Prog.is_starting_species sp
  | Q_random_draconian_colour turns =>
      A_int <$> Prog.random_draconian_colour turns
  | Q_species_is_removed sp => A_bool <$> Prog.species_is_removed sp
  end.

(** The calls that are no lookups: a gnoll shouting at somebody at the
    lowest loudness flips a coin, [dragon_form_dragon_type] reads
    [you.species], and the two random choices draw from the generator. *)
Definition touches_state (q : query) : Prop :=
  match q with
  | Q_species_shout_verb sp screaminess directed =>
      sp = SP_GNOLL ∧ shout_index screaminess = 0 ∧ directed = true
  | Q_dragon_form_dragon_type => True
  | Q_random_starting_species => True
  | Q_random_draconian_colour _ => True
  | _ => False
  end.

End Queries.

(** ** More of the sample instance *)

Module Sample2.

Import Sample.

#[export] Instance more_enums : MoreEnums := {|
  SP_BASE_DRACONIAN := 50; SP_MOTTLED_DRACONIAN := 51;
  TAG_MAJOR_VERSION := 34
|}.

(** ASCII lower case. *)
Definition lower_ascii (c : Ascii.ascii) : Ascii.ascii :=
  let n := Ascii.nat_of_ascii c in
  if (65 <=? n)%nat && (n <=? 90)%nat then Ascii.ascii_of_nat (n + 32)
  else c.

Fixpoint lowercase (s : string) : string :=
  match s with
  | EmptyString => EmptyString
  | String c rest => String (lower_ascii c) (lowercase rest)
  end.

(** Every species of the sample table recommends one job, but the troll. *)
Definition species_jobs : gmap Z species_def_jobs :=
  map_imap
    (λ sp def,
       Some {| shown := def;
               recommended_jobs :=
                 if bool_decide (sp = SP_TROLL) then [] else [0] |})
    species_data.

(** The sample table with the felid made a draconian colour. *)
Definition dragon_jobs : gmap Z species_def_jobs :=
  map_imap
    (λ sp def,
       Some {| shown :=
                 if bool_decide (sp = SP_FELID)
                 then {| abbrev := abbrev def; name := name def;
                         adj_name := adj_name def;
                         genus_name := genus_name def;
                         flags := SPF_DRACONIAN; size := size def;
                         walking_verb := walking_verb def;
                         level_up_mutations := level_up_mutations def |}
                 else def;
               recommended_jobs := [] |})
    species_data.

(** A generator that counts: its draws go round the range. *)
Definition counting (lo hi : Z) (r : nat) : Z * nat :=
  (lo + Z.of_nat r mod (hi - lo + 1), S r).

(** A level-3 demonspawn with two demonic traits, the second one for a
    level it has not reached. *)
Definition fiend : game :=
  {| you :=
       {| species := SP_DEMONSPAWN; chr_species_name := "Demonspawn";
          experience_level := 3;
          skill_points := [10; 20; 30];
          mutation := [0; 1; 0; 0; 0; 0];
          innate_mutation := [0; 0; 0; 0; 0; 0];
          demonic_traits :=
            [ {| level_gained := 2; dt_mutation := MUT_CLAWS |};
              {| level_gained := 9; dt_mutation := MUT_CLAWS |} ];
          equip := replicate 19 (-1);
          melded := replicate 19 false;
          inv := [] |};
     rng := heads_then_tails; messages := [] |}.

Definition fiend_traits : game :=
  default fiend (demonspawn_traits (X := idle) SP_DEMONSPAWN fiend).

(** Procedures that refuse to wear the left ring and do nothing else; a
    troll has twice the aptitude factor of the others. *)
Definition no_left_ring : Extern := {|
  species_apt_factor :=
    λ _ sp, float_of_uint (if bool_decide (sp = SP_TROLL) then 2 else 1);
  perma_mutate := λ _ _ _ g, Some g;
  roll_demonspawn_mutations := Some;
  update_vision_range := Some;
  you_can_wear := λ _ eq, if bool_decide (eq = 7) then MB_FALSE else MB_TRUE;
  calc_hp := Some; calc_mp := Some; fixup_skills := Some;
  update_player_symbol := Some; redraw_screen := Some; update_screen := Some
|}.

Definition start_dropped : game :=
  default start (drop_unwearables (X := no_left_ring) start).

Definition human_rescaled : player :=
  default human
    (rescale_skill_points (X := no_left_ring) SP_TROLL human).

Definition human_basic : player :=
  default human
    (give_basic_mutations species_data SP_TROLL human).

(** A table with one draconian, bald by the flag of its kind alone. *)
Definition dragons : gmap Z species_def :=
  {[ 0 := {| abbrev := "Dr"; name := "Draconian"; adj_name := None;
             genus_name := None; flags := SPF_DRACONIAN; size := 3;
             walking_verb := None; level_up_mutations := [] |} ]}.

(** Procedures that do nothing, but for [perma_mutate], which adds the
    levels it is asked for to the total and to the innate level. *)
Definition growing : Extern := {|
  species_apt_factor := λ _ _, float_of_uint 1;
  perma_mutate := λ mut lvl _ g,
    m ← fv_get (mutation (you g)) mut;
    n ← fv_get (innate_mutation (you g)) mut;
    mu ← fv_set (mutation (you g)) mut (u8 (m + lvl));
    inn ← fv_set (innate_mutation (you g)) mut (u8 (n + lvl));
    Some (with_you (with_innate_mutation inn (with_mutation mu (you g))) g);
  roll_demonspawn_mutations := Some;
  update_vision_range := Some;
  you_can_wear := λ _ _, MB_TRUE;
  calc_hp := Some; calc_mp := Some; fixup_skills := Some;
  update_player_symbol := Some; redraw_screen := Some; update_screen := Some
|}.

(** A table whose second species grows claws at the levels 1 and 2 and a
    tough skin at the levels 3 and 7. *)
Definition ogre : species_def :=
  plain "Og" "Ogre" 4
    [lum MUT_CLAWS 1 1; lum MUT_CLAWS 2 2; lum MUT_TOUGH_SKIN 1 3;
     lum MUT_TOUGH_SKIN 1 7].

Definition ogres : gmap Z species_def := {[ SP_TROLL := ogre ]}.

(** The level-3 [fiend], with one acquired level of claws, as an ogre. *)
Definition fiend_as_ogre : game :=
  default fiend (change_species_to (X := growing) ogres SP_TROLL fiend).

(** A schedule whose levels of claws do not add up in an [int]. *)
Definition hoarder : species_def :=
  plain "Ho" "Hoarder" 3
    [lum MUT_CLAWS 2147483646 1; lum MUT_CLAWS 2 5].

Definition hoarders : gmap Z species_def := {[ SP_TROLL := hoarder ]}.

(** The human of [start] after long training in the first skill. *)
Definition veteran : game :=
  {| you := with_skill_points [16777217; 20; 30] human;
     rng := heads_then_tails; messages := [] |}.

Definition veteran_as_troll : game :=
  default veteran (change_species_to species_data SP_TROLL veteran).


Definition human_as_octopode : player :=
  default human
    (swap_ring_slots SP_HUMAN SP_OCTOPODE human).

(** The further enumerators, the generator and the table with every member
    the functions read. *)
#[export] Instance query_enums : QueryEnums :=
  Build_QueryEnums
    (* species *) 52 53 54 55 56 57 58 59 60 61 62 63 64 65
    (* MUT_TENTACLE_ARMS, MUT_PAWS *) 5 3
    (* US_ALIVE, HT_WATER, HT_AMPHIBIOUS, SIZE_LARGE *) 0 1 2 4
    (* the default psize: PSIZE_BODY *) 1
    (* WPN_THROWN, WPN_UNARMED, SK_THROWING, SK_UNARMED_COMBAT, OBJ_WEAPONS *)
    100 101 1 2 0
    (* monsters *) 1 2 3 4 5 6 7 8
    (* abilities *) 1 2 3 4 5 6 7 0.

(** A generator that counts its draws: the next one is the number of draws
    made so far, brought into the range. *)
#[export] Instance counting_generator : Generator := {|
  random_range := λ lo hi r,
    (lo + Z.of_nat (pos r) mod (hi - lo + 1),
     {| tape := tape r; pos := S (pos r) |});
  random2 := λ n r,
    (Z.of_nat (pos r) mod n, {| tape := tape r; pos := S (pos r) |})
|}.

Definition entry_of (d : species_def_jobs) : species_entry :=
  {| basics := d; undeadness := 0; habitat := 0; monster_species := 0;
     xp_mod := 0; hp_mod := 0; mp_mod := 0; wl_mod := 0;
     base_s := 8; base_d := 8; recommended_weapons := [];
     terse_fake_mutations := []; verbose_fake_mutations := [];
     altar_action := None |}.

Definition species_table : gmap Z species_entry := entry_of <$> species_jobs.

Definition dragon_table : gmap Z species_entry := entry_of <$> dragon_jobs.

Definition playable : list species_type := [SP_HUMAN; SP_FELID; SP_GNOLL].

(** The state [start] with a white draconian as the player. *)
Definition white_dragon : game :=
  with_you (with_species SP_WHITE_DRACONIAN "White Draconian" human) start.

(** The calls of the functions on the sample instance. *)
Definition sample_call : query → prog answer :=
  call lowercase (λ _ wpn, wpn) playable.

End Sample2.

(** * Properties *)

(** ** Arrays and loops *)

Section Arrays.

Context {A : Type}.
Implicit Types (v : list A) (i : Z) (x : A).

Lemma fv_get_Some v i x :
  fv_get v i = Some x ↔ 0 ≤ i ∧ v !! Z.to_nat i = Some x.
Proof.
  unfold fv_get. case_bool_decide.
  - split; [by intros ? | by intros [_ ?]].
  - split; [done|]. intros [? _]. lia.
Qed.

Lemma fv_get_of_nat v (k : nat) : fv_get v (Z.of_nat k) = v !! k.
Proof.
  unfold fv_get. rewrite bool_decide_eq_true_2 by lia. by rewrite Nat2Z.id.
Qed.

Lemma fv_get_in_range v i x :
  fv_get v i = Some x → 0 ≤ i < Z.of_nat (length v).
Proof.
  intros [? Hl]%fv_get_Some. apply lookup_lt_Some in Hl. lia.
Qed.

Lemma fv_get_is_Some v i :
  0 ≤ i < Z.of_nat (length v) → is_Some (fv_get v i).
Proof.
  intros ?. unfold fv_get. rewrite bool_decide_eq_true_2 by lia.
  apply lookup_lt_is_Some. lia.
Qed.

Lemma fv_get_None_ge v i : Z.of_nat (length v) ≤ i → fv_get v i = None.
Proof.
  intros ?. unfold fv_get. case_bool_decide; [|done].
  apply lookup_ge_None. lia.
Qed.

Lemma fv_set_Some v i x v' :
  fv_set v i x = Some v' ↔
  0 ≤ i < Z.of_nat (length v) ∧ v' = <[Z.to_nat i := x]> v.
Proof.
  unfold fv_set. case_bool_decide.
  - split; [by intros [= <-] | by intros [_ ->]].
  - split; [done | by intros [? _]].
Qed.

Lemma fv_set_length v i x v' : fv_set v i x = Some v' → length v' = length v.
Proof. intros [_ ->]%fv_set_Some. apply length_insert. Qed.

Lemma fv_get_set_eq v i x v' : fv_set v i x = Some v' → fv_get v' i = Some x.
Proof.
  intros [? ->]%fv_set_Some. apply fv_get_Some. split; [lia|].
  apply list_lookup_insert_eq. lia.
Qed.

Lemma fv_get_set_ne v i j x v' :
  fv_set v i x = Some v' → i ≠ j → fv_get v' j = fv_get v j.
Proof.
  intros [? ->]%fv_set_Some ?. unfold fv_get. case_bool_decide; [|done].
  apply list_lookup_insert_ne. lia.
Qed.

Lemma fv_set_is_Some v i x :
  0 ≤ i < Z.of_nat (length v) → is_Some (fv_set v i x).
Proof. intros ?. unfold fv_set. rewrite bool_decide_eq_true_2 by done. eauto. Qed.

End Arrays.

Lemma for_each_app {S A} (body : A → S → option S) (l1 l2 : list A) (s : S) :
  for_each body (l1 ++ l2) s = for_each body l1 s ≫= for_each body l2.
Proof.
  revert s. induction l1 as [|a l1 IH]; intros s; simpl; [done|].
  destruct (body a s) as [s'|]; simpl; [apply IH | done].
Qed.

(** A loop whose body keeps an invariant keeps it. *)
Lemma for_each_invariant {S A} (I : S → Prop) (body : A → S → option S)
    (l : list A) (s s' : S) :
  (∀ a t t', a ∈ l → I t → body a t = Some t' → I t') →
  I s → for_each body l s = Some s' → I s'.
Proof.
  revert s. induction l as [|a l IH]; intros s Hbody Hs Hrun; simpl in *.
  - by simplify_eq.
  - destruct (body a s) as [t|] eqn:Ht; simpl in *; [|done].
    apply (IH t); [| |done].
    + intros b u u' ?. apply Hbody. by right.
    + apply (Hbody a s t); [by left|done..].
Qed.

Lemma seqZ_snoc (m : Z) (k : nat) :
  seqZ m (Z.of_nat (S k)) = seqZ m (Z.of_nat k) ++ [m + Z.of_nat k].
Proof.
  replace (Z.of_nat (S k)) with (Z.of_nat k + 1) by lia.
  rewrite seqZ_app by lia. done.
Qed.

Lemma one_of_true (x : Z) (l : list Z) : x ∈ l → one_of x l = true.
Proof. intros. by apply bool_decide_eq_true_2. Qed.

Lemma one_of_false (x : Z) (l : list Z) : x ∉ l → one_of x l = false.
Proof. intros. by apply bool_decide_eq_false_2. Qed.

Lemma filter_iff_on {A} (P Q : A → Prop) `{∀ x, Decision (P x)}
    `{∀ x, Decision (Q x)} (l : list A) :
  (∀ x, x ∈ l → (P x ↔ Q x)) → filter P l = filter Q l.
Proof.
  induction l as [|a l IH]; intros Hiff; [done|].
  rewrite !filter_cons.
  rewrite IH by (intros x ?; apply Hiff; by right).
  pose proof (Hiff a ltac:(by left)).
  repeat case_decide; tauto.
Qed.

Lemma filter_none {A} (P : A → Prop) `{∀ x, Decision (P x)} (l : list A) :
  (∀ x, x ∈ l → ¬ P x) → filter P l = [].
Proof.
  induction l as [|a l IH]; intros Hno; [done|].
  rewrite filter_cons_False by (apply Hno; by left).
  apply IH. intros x ?. apply Hno. by right.
Qed.

(** ** Ring and amulet slots *)

Section Slots.

Context `{E : Enums}.
Variable species_data : gmap Z species_def.

Lemma arm_count_cases (sp : species_type) :
  (sp = SP_OCTOPODE ∧ species_arm_count sp = 8)
  ∨ (sp ≠ SP_OCTOPODE ∧ species_arm_count sp = 2).
Proof. unfold species_arm_count. case_bool_decide; auto. Qed.

Lemma arm_count_octopode : species_arm_count SP_OCTOPODE = 8.
Proof. unfold species_arm_count. by rewrite bool_decide_eq_true_2. Qed.

Lemma bans_eq_hand_ring (sp : species_type) (eq : equipment_type) :
  eq ∈ [EQ_LEFT_RING; EQ_RIGHT_RING] →
  species_bans_eq species_data sp eq
  = Some (bool_decide (species_arm_count sp > 2)).
Proof. intros Hin. unfold species_bans_eq. by rewrite one_of_true. Qed.

Lemma bans_eq_tentacle_ring (sp : species_type) (eq : equipment_type) :
  bans_eq_labels_distinct → eq ∈ ring_one_to_eight →
  species_bans_eq species_data sp eq
  = Some (bool_decide (species_arm_count sp ≤ 2)).
Proof.
  intros Hlabels Hin. apply NoDup_app in Hlabels as (_ & Hdisj & _).
  unfold species_bans_eq.
  rewrite one_of_false, one_of_true; [done..|].
  intros Hhand. apply (Hdisj _ Hhand). apply elem_of_app. by left.
Qed.

Lemma bans_eq_unhandled (sp : species_type) (eq : equipment_type) :
  bans_eq_labels_distinct →
  eq ∈ [EQ_AMULET; EQ_RING_AMULET; EQ_WEAPON; EQ_STAFF;
        EQ_RINGS; EQ_RINGS_PLUS; EQ_ALL_ARMOUR] →
  species_bans_eq species_data sp eq = Some false.
Proof.
  intros Hlabels Hin. apply NoDup_app in Hlabels as (_ & Hdisj & Hrest).
  apply NoDup_app in Hrest as (_ & Hdisj' & _).
  unfold species_bans_eq.
  rewrite one_of_false, one_of_false, one_of_true; [done..| |].
  - intros Hring. by apply (Hdisj' _ Hring).
  - intros Hhand. apply (Hdisj _ Hhand). apply elem_of_app. by right.
Qed.

(** C5: for every species the two hand-ring slots are banned exactly when
    the species has more than two arms, and the slots [EQ_RING_ONE] to
    [EQ_RING_EIGHT] are banned exactly when it has at most two arms. *)
Theorem species_bans_eq_ring_slots (sp : species_type) (eq : equipment_type) :
  bans_eq_labels_distinct →
  (eq ∈ [EQ_LEFT_RING; EQ_RIGHT_RING] →
     species_bans_eq species_data sp eq
     = Some (bool_decide (species_arm_count sp > 2)))
  ∧ (eq ∈ ring_one_to_eight →
     species_bans_eq species_data sp eq
     = Some (bool_decide (species_arm_count sp ≤ 2))).
Proof.
  intros Hlabels. split; intros Hin.
  - by apply bans_eq_hand_ring.
  - by apply bans_eq_tentacle_ring.
Qed.

(** C10: no species bans the amulet slot or the amulet-ring slot. *)
Theorem species_bans_eq_amulets (sp : species_type) :
  bans_eq_labels_distinct →
  species_bans_eq species_data sp EQ_AMULET = Some false
  ∧ species_bans_eq species_data sp EQ_RING_AMULET = Some false.
Proof.
  intros Hlabels.
  split; apply bans_eq_unhandled; [done| |done|]; set_solver.
Qed.

End Slots.

(** ** The ring slots of a species *)

Section RingSlots.

Context `{E : Enums}.
Variable species_data : gmap Z species_def.

Lemma ring_slots_loop_filter sp missing range result :
  (∀ eq, eq ∈ range → is_Some (species_bans_eq species_data sp eq)) →
  species_ring_slots_loop species_data sp missing range result
  = Some (result ++ filter (kept species_data sp missing) range).
Proof.
  revert result. induction range as [|eq range IH]; intros result Hdef.
  - simpl. by rewrite app_nil_r.
  - assert (Hrest : ∀ eq', eq' ∈ range →
              is_Some (species_bans_eq species_data sp eq'))
      by (intros eq' ?; apply Hdef; by right).
    destruct (Hdef eq) as [banned Hbanned]; [by left|].
    cbn [species_ring_slots_loop].
    destruct (decide (kept species_data sp missing eq)) as [Hk|Hk].
    + destruct Hk as (H1 & H2 & H3 & H4).
      rewrite !bool_decide_eq_true_2 by done. simpl.
      rewrite H4. simpl. rewrite IH by done.
      rewrite filter_cons_True by done.
      by rewrite <- app_assoc.
    + rewrite filter_cons_False by done.
      repeat case_bool_decide; simpl; rewrite ?Hbanned; simpl;
        try (by apply IH).
      destruct banned; simpl; [by apply IH|].
      destruct Hk. done.
Qed.

Hypothesis labels : bans_eq_labels_distinct.
Hypothesis layout : jewellery_layout.

Lemma jewellery_range_slots : jewellery_range ≡ₚ jewellery_slots.
Proof. apply layout. Qed.

Lemma jewellery_slot_not_none eq : eq ∈ jewellery_slots → eq ≠ EQ_NONE.
Proof.
  intros Hin ->. destruct layout as [Hperm Hnone]. apply Hnone.
  by rewrite Hperm.
Qed.

Lemma jewellery_slot_bans sp eq :
  eq ∈ jewellery_slots → is_Some (species_bans_eq species_data sp eq).
Proof.
  unfold jewellery_slots. rewrite !elem_of_app. intros [Hin|[Hin|Hin]].
  - apply elem_of_cons in Hin as [->|Hin].
    { rewrite bans_eq_hand_ring by set_solver. eauto. }
    apply elem_of_cons in Hin as [->|Hin].
    { rewrite bans_eq_hand_ring by set_solver. eauto. }
    rewrite bans_eq_unhandled; [eauto|done|set_solver].
  - rewrite bans_eq_tentacle_ring by done. eauto.
  - rewrite bans_eq_unhandled; [eauto|done|set_solver].
Qed.

Lemma ring_slots_filter sp missing_hand :
  species_ring_slots species_data sp missing_hand
  = Some (filter
            (kept species_data sp (if missing_hand then species_sacrificial_arm sp
                      else EQ_NONE))
            jewellery_range).
Proof.
  unfold species_ring_slots. rewrite ring_slots_loop_filter; [done|].
  intros eq Hin. apply jewellery_slot_bans. by rewrite <- jewellery_range_slots.
Qed.

(** The labels of the jewellery slots are pairwise different. *)
Lemma jewellery_slots_distinct : NoDup jewellery_slots.
Proof.
  pose proof labels as Hl. unfold bans_eq_labels in Hl.
  apply NoDup_app in Hl as (Hhand & Hdisj & Hrest).
  apply NoDup_app in Hrest as (Hring & Hdisj' & Hother).
  unfold jewellery_slots.
  assert (Hperm : [EQ_LEFT_RING; EQ_RIGHT_RING; EQ_AMULET] ++ ring_one_to_eight
            ++ [EQ_RING_AMULET]
          ≡ₚ [EQ_LEFT_RING; EQ_RIGHT_RING] ++ ring_one_to_eight
             ++ [EQ_AMULET; EQ_RING_AMULET]).
  { simpl. do 2 f_equiv. rewrite (Permutation_cons_append _ EQ_AMULET).
    unfold ring_one_to_eight. simpl. do 8 f_equiv. apply Permutation_swap. }
  rewrite Hperm. apply NoDup_app. split_and!; [done| |].
  - intros x Hx Hin. apply (Hdisj x Hx). set_solver.
  - apply NoDup_app. split_and!; [done| |].
    + intros x Hx Hin. apply (Hdisj' x Hx). set_solver.
    + apply NoDup_cons in Hother as [Hn _].
      apply not_elem_of_cons in Hn as [Hn _].
      apply NoDup_cons. split; [|apply NoDup_singleton].
      by intros ?%list_elem_of_singleton.
Qed.

Lemma kept_hand sp missing eq :
  sp ≠ SP_OCTOPODE → eq ∈ [EQ_LEFT_RING; EQ_RIGHT_RING] → eq ≠ missing →
  kept species_data sp missing eq.
Proof.
  intros Hsp Hin Hmiss. pose proof jewellery_slots_distinct as Hnd.
  unfold jewellery_slots in Hnd. simpl in Hnd.
  rewrite !NoDup_cons, !not_elem_of_cons in Hnd. destruct_and!.
  unfold kept. rewrite bans_eq_hand_ring by done.
  destruct (arm_count_cases sp) as [[? _]|[_ ->]]; [done|].
  rewrite bool_decide_eq_false_2 by lia.
  set_unfold in Hin. destruct Hin as [->|[->|[]]]; by split_and!.
Qed.

Lemma not_kept_hand missing eq :
  eq ∈ [EQ_LEFT_RING; EQ_RIGHT_RING] → ¬ kept species_data SP_OCTOPODE missing eq.
Proof.
  intros Hin (_ & _ & _ & Hb). rewrite bans_eq_hand_ring in Hb by done.
  rewrite arm_count_octopode in Hb.
  by rewrite bool_decide_eq_true_2 in Hb by lia.
Qed.

Lemma kept_tentacle missing eq :
  eq ∈ ring_one_to_eight → eq ≠ missing → kept species_data SP_OCTOPODE missing eq.
Proof.
  intros Hin Hmiss. pose proof jewellery_slots_distinct as Hnd.
  unfold jewellery_slots in Hnd. simpl in Hnd.
  rewrite !NoDup_cons, !not_elem_of_cons in Hnd. destruct_and!.
  unfold kept. rewrite bans_eq_tentacle_ring by done.
  rewrite arm_count_octopode, bool_decide_eq_false_2 by lia.
  unfold ring_one_to_eight in Hin. set_unfold in Hin.
  repeat (destruct Hin as [->|Hin]; [by split_and!|]). done.
Qed.

Lemma not_kept_tentacle sp missing eq :
  sp ≠ SP_OCTOPODE → eq ∈ ring_one_to_eight → ¬ kept species_data sp missing eq.
Proof.
  intros Hsp Hin (_ & _ & _ & Hb). rewrite bans_eq_tentacle_ring in Hb by done.
  destruct (arm_count_cases sp) as [[? _]|[_ Harms]]; [done|].
  rewrite Harms in Hb. by rewrite bool_decide_eq_true_2 in Hb by lia.
Qed.

Lemma not_kept_amulet sp missing eq :
  eq ∈ [EQ_AMULET; EQ_RING_AMULET] → ¬ kept species_data sp missing eq.
Proof. intros Hin (H1 & H2 & _). set_unfold in Hin. naive_solver. Qed.

Lemma not_kept_missing sp missing : ¬ kept species_data sp missing missing.
Proof. by intros (_ & _ & ? & _). Qed.

(** What the loop keeps of the jewellery slots, for a species with two arms
    and for one with eight. *)
Lemma jewellery_slots_split :
  jewellery_slots
  = [EQ_LEFT_RING; EQ_RIGHT_RING] ++ [EQ_AMULET] ++ ring_one_to_eight
    ++ [EQ_RING_AMULET].
Proof. done. Qed.

Lemma kept_two_arms sp missing :
  sp ≠ SP_OCTOPODE →
  filter (kept species_data sp missing) jewellery_slots
  = filter (λ eq, eq ≠ missing) [EQ_LEFT_RING; EQ_RIGHT_RING].
Proof.
  intros Hsp. rewrite jewellery_slots_split, !filter_app.
  rewrite (filter_none (kept species_data sp missing) [EQ_AMULET])
    by (intros; apply not_kept_amulet; set_solver).
  rewrite (filter_none (kept species_data sp missing) ring_one_to_eight)
    by (intros; by apply not_kept_tentacle).
  rewrite (filter_none (kept species_data sp missing) [EQ_RING_AMULET])
    by (intros; apply not_kept_amulet; set_solver).
  rewrite !app_nil_r. apply filter_iff_on.
  intros eq Hin. split; [by intros (_ & _ & ? & _)|]. by apply kept_hand.
Qed.

Lemma kept_eight_arms missing :
  filter (kept species_data SP_OCTOPODE missing) jewellery_slots
  = filter (λ eq, eq ≠ missing) ring_one_to_eight.
Proof.
  rewrite jewellery_slots_split, !filter_app.
  rewrite (filter_none (kept species_data SP_OCTOPODE missing) [EQ_LEFT_RING; EQ_RIGHT_RING])
    by (intros; by apply not_kept_hand).
  rewrite (filter_none (kept species_data SP_OCTOPODE missing) [EQ_AMULET])
    by (intros; apply not_kept_amulet; set_solver).
  rewrite (filter_none (kept species_data SP_OCTOPODE missing) [EQ_RING_AMULET])
    by (intros; apply not_kept_amulet; set_solver).
  rewrite app_nil_r. simpl. apply filter_iff_on.
  intros eq Hin. split; [by intros (_ & _ & ? & _)|]. by apply kept_tentacle.
Qed.

Lemma sacrificial_arm_cases sp :
  (sp = SP_OCTOPODE ∧ species_sacrificial_arm sp = EQ_RING_EIGHT)
  ∨ (sp ≠ SP_OCTOPODE ∧ species_sacrificial_arm sp = EQ_LEFT_RING).
Proof.
  unfold species_sacrificial_arm.
  destruct (arm_count_cases sp) as [[? ->]|[? ->]]; [left|right]; done.
Qed.

Lemma sacrificial_arm_kept sp :
  kept species_data sp EQ_NONE (species_sacrificial_arm sp).
Proof.
  destruct (sacrificial_arm_cases sp) as [[-> ->]|[? ->]].
  - apply kept_tentacle; [unfold ring_one_to_eight; set_solver|].
    apply jewellery_slot_not_none. unfold jewellery_slots, ring_one_to_eight.
    set_solver.
  - apply kept_hand; [done|set_solver|].
    apply jewellery_slot_not_none. unfold jewellery_slots. set_solver.
Qed.

Lemma ring_slots_count sp missing_hand :
  Z.of_nat (length (filter (kept species_data sp (if missing_hand : bool
                                     then species_sacrificial_arm sp
                                     else EQ_NONE)) jewellery_slots))
  = if missing_hand then species_arm_count sp - 1 else species_arm_count sp.
Proof.
  pose proof jewellery_slots_distinct as Hnd.
  unfold jewellery_slots in Hnd. simpl in Hnd.
  rewrite !NoDup_cons, !not_elem_of_cons in Hnd. destruct_and!.
  assert (Hnone : Forall (λ eq, eq ≠ EQ_NONE) jewellery_slots)
    by (apply Forall_forall; apply jewellery_slot_not_none).
  unfold jewellery_slots, ring_one_to_eight in Hnone. simpl in Hnone.
  rewrite !Forall_cons in Hnone. destruct_and!.
  destruct (sacrificial_arm_cases sp) as [[-> ->]|[Hsp ->]].
  - rewrite kept_eight_arms, arm_count_octopode. unfold ring_one_to_eight.
    destruct missing_hand.
    + do 7 (rewrite filter_cons_True by done).
      by rewrite filter_cons_False by (by intros []).
    + by do 8 (rewrite filter_cons_True by done).
  - rewrite kept_two_arms by done.
    destruct (arm_count_cases sp) as [[? _]|[_ ->]]; [done|].
    destruct missing_hand.
    + rewrite filter_cons_False by (by intros []).
      by rewrite filter_cons_True by done.
    + by do 2 (rewrite filter_cons_True by done).
Qed.

End RingSlots.

(** C9: the list [species_ring_slots] returns holds only slots that
    [species_bans_eq] does not ban, holds neither amulet slot, and has as
    many slots as the species has arms, or one fewer with [missing_hand],
    the slot left out being [species_sacrificial_arm]. *)
Theorem species_ring_slots_spec `{E : Enums}
    (species_data : gmap Z species_def) (sp : species_type)
    (missing_hand : bool) :
  bans_eq_labels_distinct → jewellery_layout →
  ∃ slots full,
    species_ring_slots species_data sp missing_hand = Some slots
    ∧ species_ring_slots species_data sp false = Some full
    ∧ (∀ eq, eq ∈ slots →
         species_bans_eq species_data sp eq = Some false
         ∧ eq ≠ EQ_AMULET ∧ eq ≠ EQ_RING_AMULET)
    ∧ Z.of_nat (length slots)
      = (if missing_hand then species_arm_count sp - 1
         else species_arm_count sp)
    ∧ (missing_hand = true →
         species_sacrificial_arm sp ∈ full
         ∧ slots = filter (λ eq, eq ≠ species_sacrificial_arm sp) full).
Proof.
  intros labels layout.
  eexists _, _. split; [by apply ring_slots_filter|].
  split; [by apply ring_slots_filter|]. split_and!.
  - intros eq (Hk & _)%list_elem_of_filter.
    destruct Hk as (? & ? & _ & ?). done.
  - rewrite jewellery_range_slots by done. by apply ring_slots_count.
  - intros ->. split.
    + apply list_elem_of_filter. split; [by apply sacrificial_arm_kept|].
      rewrite jewellery_range_slots by done.
      destruct (sacrificial_arm_cases sp) as [[_ ->]|[_ ->]];
        unfold jewellery_slots, ring_one_to_eight; set_solver.
    + rewrite list_filter_filter. apply filter_iff_on.
      intros eq Hin. unfold kept. split.
      * intros (? & ? & ? & ?). split_and!; try done.
        intros ->. by apply layout in Hin.
      * intros (? & ? & ? & _ & ?). done.
Qed.

(** ** Shouting *)

Section Shout.

Context `{E : Enums}.

Lemma shout_index_clamped (screaminess : Z) :
  1 ≤ sizeof_string →
  shout_index screaminess
  = if bool_decide (screaminess < 0) then 0
    else if bool_decide (screaminess < 3 * sizeof_string) then screaminess
    else 3 * sizeof_string - 1.
Proof.
  intros ?. unfold shout_index, sizeof_shout_verbs.
  repeat case_bool_decide; lia.
Qed.

(** C8 fails on the code: the clamp of [species_shout_verb] is bounded by
    the byte size of the array, not by its length.  As soon as a
    [std::string] takes two bytes or more, the loudness 3 is left as it is
    and each of the four three-element tables is read past its end. *)
Theorem species_shout_verb_reads_past_end (sp : species_type)
    (directed : bool) (r : rng_state) :
  2 ≤ sizeof_string →
  shout_index 3 = 3
  ∧ ¬ (0 ≤ shout_index 3 ≤ 2)
  ∧ (species_shout_verb sp 3 directed r).1 = None.
Proof.
  intros Hsize.
  assert (Hidx : shout_index 3 = 3)
    by (unfold shout_index, sizeof_shout_verbs; lia).
  split; [done|]. split; [lia|].
  unfold species_shout_verb. rewrite Hidx.
  rewrite (bool_decide_eq_false_2 (3 = 0)) by done. simpl.
  repeat case_bool_decide; done.
Qed.

(** X13.  With the clamp the doc comment promises, loudness in [0, 2],
    every read is inside the tables. *)
Lemma species_shout_verb_in_range (sp : species_type) (screaminess : Z)
    (directed : bool) (r : rng_state) :
  1 ≤ sizeof_string → screaminess ≤ 2 →
  0 ≤ shout_index screaminess ≤ 2
  ∧ is_Some (species_shout_verb sp screaminess directed r).1.
Proof.
  intros Hsize Hle.
  assert (Hidx : 0 ≤ shout_index screaminess ≤ 2)
    by (unfold shout_index, sizeof_shout_verbs; lia).
  split; [done|]. unfold species_shout_verb.
  assert (Hget : ∀ t : list string, length t = 3%nat →
            is_Some (fv_get t (shout_index screaminess))).
  { intros t Ht. apply fv_get_is_Some. rewrite Ht. lia. }
  repeat case_bool_decide; simpl; try destruct directed; simpl;
    try destruct (tape r (pos r)); simpl; eauto.
Qed.

End Shout.

(** ** Which functions are stateless lookups *)

Section Stateless.

Context `{E : Enums} `{M : MoreEnums} `{Q : QueryEnums} `{O : Generator}.
Variable table : gmap Z species_entry.
Variable lowercase_string : string → string.
Variable item_attack_skill : Z → Z → skill_type.
Variable playable_species : list species_type.

Lemma with_rng_same (g : game) : with_rng (rng g) g = g.
Proof. by destruct g. Qed.

(** A program that only reads the table returns the same in every state and
    leaves the state alone. *)
Lemma lookup_only_run {A} (p : prog A) :
  lookup_only p → ∃ result, ∀ g, run table p g = (λ a, (a, g)) <$> result.
Proof using Type.
  induction 1 as [a| |sp k _ IH|k _ IH]; simpl.
  - by exists (Some a).
  - by exists None.
  - apply IH.
  - apply IH.
Qed.

Lemma lookup_only_stateless {A} (p : prog A) :
  lookup_only p → stateless_lookup table p.
Proof using Type.
  intros (result & Hrun)%lookup_only_run. split.
  - intros g a g'. rewrite Hrun. destruct result; simpl; congruence.
  - intros g1 g2. rewrite !Hrun. by destruct result.
Qed.

Lemma lookup_only_bind {A B} (m : prog A) (k : A → prog B) :
  lookup_only m → (∀ a, lookup_only (k a)) → lookup_only (prog_bind k m).
Proof.
  intros Hm Hk. induction Hm; simpl; auto; by constructor.
Qed.

Lemma lookup_only_fmap {A B} (f : A → B) (m : prog A) :
  lookup_only m → lookup_only (f <$> m).
Proof. intros Hm. apply lookup_only_bind; [done|]. intros a. constructor. Qed.

Lemma lookup_only_of_option {A} (o : option A) : lookup_only (of_option o).
Proof. destruct o; constructor. Qed.

Create HintDb lookup.

Ltac lookup_step :=
  lazymatch goal with
  | |- lookup_only (mbind _ _) => apply lookup_only_bind
  | |- lookup_only (fmap _ _) => apply lookup_only_fmap
  | |- lookup_only (Ret _) => constructor
  | |- lookup_only Fail => constructor
  | |- lookup_only (Lookup _ _) => constructor
  | |- lookup_only (Entries _) => constructor
  | |- lookup_only (of_option _) => apply lookup_only_of_option
  | |- lookup_only (if ?b then _ else _) => destruct b
  | |- lookup_only (match ?x with _ => _ end) => destruct x
  | |- ∀ _, _ => intro
  | |- _ => solve [eauto with lookup]
  end.

Ltac lookup_tac := repeat lookup_step.

Lemma get_species_def_lookup species :
  lookup_only (Prog.get_species_def species).
Proof. unfold Prog.get_species_def. lookup_tac. Qed.

#[local] Hint Resolve get_species_def_lookup : lookup.

Lemma species_name_lookup speci spname_type :
  lookup_only (Prog.species_name speci spname_type).
Proof. unfold Prog.species_name. lookup_tac. Qed.

#[local] Hint Resolve species_name_lookup : lookup.

Lemma str_to_species_loop_lookup species range :
  lookup_only (Prog.str_to_species_loop species range).
Proof. induction range; simpl; lookup_tac. Qed.

Lemma species_is_draconian_lookup species :
  lookup_only (Prog.species_is_draconian species).
Proof. unfold Prog.species_is_draconian. lookup_tac. Qed.

#[local] Hint Resolve species_is_draconian_lookup : lookup.

Lemma species_arm_count_lookup species :
  lookup_only (Prog.species_arm_count species).
Proof. unfold Prog.species_arm_count. lookup_tac. Qed.

#[local] Hint Resolve species_arm_count_lookup : lookup.

Lemma species_bans_eq_lookup species eq :
  lookup_only (Prog.species_bans_eq species eq).
Proof. unfold Prog.species_bans_eq. lookup_tac. Qed.

#[local] Hint Resolve species_bans_eq_lookup : lookup.

Lemma species_sacrificial_arm_lookup species :
  lookup_only (Prog.species_sacrificial_arm species).
Proof. unfold Prog.species_sacrificial_arm. lookup_tac. Qed.

#[local] Hint Resolve species_sacrificial_arm_lookup : lookup.

Lemma species_ring_slots_loop_lookup species missing range result :
  lookup_only (Prog.species_ring_slots_loop species missing range result).
Proof. revert result. induction range; intros result; simpl; lookup_tac. Qed.

#[local] Hint Resolve species_ring_slots_loop_lookup : lookup.

Lemma species_mutation_level_lookup species mut mut_level :
  lookup_only (Prog.species_mutation_level species mut mut_level).
Proof. unfold Prog.species_mutation_level. lookup_tac. Qed.

#[local] Hint Resolve species_mutation_level_lookup : lookup.

Lemma species_undead_type_lookup species :
  lookup_only (Prog.species_undead_type species).
Proof. unfold Prog.species_undead_type. lookup_tac. Qed.

Lemma species_can_swim_lookup species :
  lookup_only (Prog.species_can_swim species).
Proof. unfold Prog.species_can_swim. lookup_tac. Qed.

Lemma species_size_lookup species psize :
  lookup_only (Prog.species_size species psize).
Proof. unfold Prog.species_size. lookup_tac. Qed.

#[local] Hint Resolve species_undead_type_lookup species_can_swim_lookup
  species_size_lookup : lookup.

Lemma find_species_from_string_loop_lookup spec initial_only range sp :
  lookup_only
    (Prog.find_species_from_string_loop lowercase_string spec initial_only
       range sp).
Proof. revert sp. induction range; intros sp; simpl; lookup_tac. Qed.

Lemma species_is_removed_lookup species :
  lookup_only (Prog.species_is_removed species).
Proof. unfold Prog.species_is_removed. lookup_tac. Qed.

(** Away from the coin flip [species_shout_verb] only reads its arrays. *)
Lemma species_shout_verb_lookup sp screaminess directed :
  ¬ (sp = SP_GNOLL ∧ shout_index screaminess = 0 ∧ directed = true) →
  lookup_only (Prog.species_shout_verb sp screaminess directed).
Proof.
  intros Hno. unfold Prog.species_shout_verb.
  destruct (decide (sp = SP_GNOLL)) as [->|Hsp].
  - rewrite bool_decide_eq_true_2 by done.
    destruct (decide (shout_index screaminess = 0)) as [Hz|Hz].
    + rewrite (bool_decide_eq_true_2 _ Hz).
      destruct directed; [exfalso; by apply Hno|]. simpl. lookup_tac.
    + rewrite (bool_decide_eq_false_2 _ Hz). simpl. lookup_tac.
  - rewrite (bool_decide_eq_false_2 _ Hsp). lookup_tac.
Qed.

#[local] Hint Unfold Prog.get_species_abbrev Prog.get_species_by_abbrev
  Prog.str_to_species Prog.species_walking_verb Prog.species_skin_name
  Prog.species_ring_slots Prog.species_arm_name Prog.species_hand_name
  Prog.species_is_undead Prog.species_likes_water
  Prog.species_can_throw_large_rocks Prog.species_wears_barding
  Prog.species_is_elven Prog.species_is_orcish Prog.species_has_hair
  Prog.species_has_bones Prog.species_recommends_job
  Prog.species_recommends_weapon Prog.player_species_to_mons_species
  Prog.fake_mutations Prog.species_prayer_action Prog.scale_type
  Prog.draconian_breath Prog.species_is_unbreathing Prog.species_has_claws
  Prog.species_exp_modifier Prog.species_hp_modifier
  Prog.species_mp_modifier Prog.species_wl_modifier Prog.species_has_low_str
  Prog.species_stat_gain_multiplier Prog.find_species_from_string
  Prog.is_starting_species : lookup.

#[local] Hint Resolve str_to_species_loop_lookup
  find_species_from_string_loop_lookup species_is_removed_lookup : lookup.

(** Every call but the four kinds of [touches_state] only reads the
    table. *)
Lemma call_lookup_only (q : query) :
  ¬ touches_state q →
  lookup_only (call lowercase_string item_attack_skill playable_species q).
Proof.
  intros Hno.
  destruct q; simpl in Hno; try (exfalso; by apply Hno);
    simpl call; apply lookup_only_fmap.
  all: try (by apply species_shout_verb_lookup).
  all: autounfold with lookup; lookup_tac.
Qed.

(** The gnoll's directed shout at the lowest loudness is never a stateless
    lookup: the coin flip moves the generator. *)
Lemma coin_flip_moves_state (screaminess : Z) :
  shout_index screaminess = 0 →
  ¬ stateless_lookup table (Prog.species_shout_verb SP_GNOLL screaminess true).
Proof using Type.
  intros Hz [Hstate _].
  pose (g := {| you := {| species := 0; chr_species_name := "";
                          experience_level := 0; skill_points := [];
                          mutation := []; innate_mutation := [];
                          demonic_traits := []; equip := []; melded := [];
                          inv := [] |};
                rng := {| tape := λ _, true; pos := 0 |};
                messages := [] |}).
  specialize (Hstate g "growl"%string (with_rng (coinflip (rng g)).2 g)).
  unfold Prog.species_shout_verb in Hstate.
  rewrite bool_decide_eq_true_2, (bool_decide_eq_true_2 _ Hz) in Hstate by done.
  simpl in Hstate. specialize (Hstate eq_refl).
  apply (f_equal (λ g, pos (rng g))) in Hstate. discriminate Hstate.
Qed.

(** A call that moves the generator, or that answers differently in two
    states, is no stateless lookup. *)
Lemma moves_generator_not_stateless {A} (p : prog A) g a g' :
  run table p g = Some (a, g') → pos (rng g') ≠ pos (rng g) →
  ¬ stateless_lookup table p.
Proof using Type.
  intros Hrun Hpos [Hstate _]. apply Hpos. by rewrite (Hstate g a g' Hrun).
Qed.

Lemma answers_differ_not_stateless {A} (p : prog A) g1 g2 :
  fst <$> run table p g1 ≠ fst <$> run table p g2 →
  ¬ stateless_lookup table p.
Proof using Type. intros Hne [_ Hsame]. apply Hne, Hsame. Qed.

(** C6, as the code has it: every function of [species.cc] that returns a
    value is a stateless lookup (it leaves every program state as it found
    it, and two calls with equal arguments return equal results), but for
    four: [species_shout_verb] for a gnoll's directed shout at the lowest
    loudness, [dragon_form_dragon_type], [random_starting_species] and
    [random_draconian_colour]. *)
Theorem queries_stateless (q : query) :
  ¬ touches_state q →
  stateless_lookup table
    (call lowercase_string item_attack_skill playable_species q).
Proof.
  intros Hno. by apply lookup_only_stateless, call_lookup_only.
Qed.

End Stateless.

(** ** The programs against the functions of the model

    On a table [table] the programs return what the functions above return
    on the descriptors of [table], and leave the state as it is. *)

Section Refinement.

Context `{E : Enums} `{M : MoreEnums} `{Q : QueryEnums} `{O : Generator}.
Variable table : gmap Z species_entry.

Lemma run_bind {A B} (m : prog A) (k : A → prog B) (g : game) :
  run table (prog_bind k m) g
  = run table m g ≫= λ '(a, g'), run table (k a) g'.
Proof.
  revert g. induction m as [a| |sp c IH|c IH|c IH|c IH|lo hi c IH|n c IH];
    intros g; simpl; try done.
  - by destruct (random_range lo hi (rng g)).
  - by destruct (random2 n (rng g)).
Qed.

(** The descriptor a call of [get_species_def] finds. *)
Lemma run_get_species_def species g :
  run table (Prog.get_species_def species) g
  = returns (if bool_decide (species ≠ SP_UNKNOWN)
                && negb (bool_decide (0 ≤ species < NUM_SPECIES))
             then None else table !! species) g
  ∧ get_species_def (descriptors table) species
    = (shown ∘ basics)
      <$> (if bool_decide (species ≠ SP_UNKNOWN)
              && negb (bool_decide (0 ≤ species < NUM_SPECIES))
           then None else table !! species).
Proof using Type.
  unfold Prog.get_species_def, get_species_def, descriptors.
  destruct (bool_decide (species ≠ SP_UNKNOWN) && _); [done|]. simpl.
  rewrite lookup_fmap. by destruct (table !! species).
Qed.

Ltac run_lookup species g :=
  unfold mbind, prog_mbind;
  rewrite run_bind;
  destruct (run_get_species_def species g) as [Hrun Hdef];
  rewrite Hrun, ?Hdef;
  let entry := fresh "entry" in
  let Hentry := fresh "Hentry" in
  destruct (if bool_decide (species ≠ SP_UNKNOWN) && _ then None
            else table !! species) as [entry|] eqn:Hentry; [simpl|done].

Lemma run_species_name speci spname_type g :
  run table (Prog.species_name speci spname_type) g
  = returns (species_name (descriptors table) speci spname_type) g.
Proof using Type.
  unfold Prog.species_name, species_name. by run_lookup speci g.
Qed.

Lemma run_species_is_draconian species g :
  run table (Prog.species_is_draconian species) g
  = returns (species_is_draconian (descriptors table) species) g.
Proof using Type.
  unfold Prog.species_is_draconian, species_is_draconian.
  by run_lookup species g.
Qed.

Lemma run_species_size species psize g :
  run table (Prog.species_size species psize) g
  = returns (species_size (descriptors table) species psize) g.
Proof using Type.
  unfold Prog.species_size, species_size. run_lookup species g.
  destruct (bool_decide (psize = PSIZE_TORSO)); [|done]. simpl.
  unfold mbind, prog_mbind. rewrite run_bind.
  destruct (run_get_species_def species g) as [Hrun' _].
  rewrite Hrun', Hentry. simpl.
  by destruct (has_flag _ _).
Qed.

Lemma run_species_bans_eq species eq g :
  run table (Prog.species_bans_eq species eq) g
  = returns (species_bans_eq (descriptors table) species eq) g.
Proof using Type.
  unfold Prog.species_bans_eq, species_bans_eq, mbind, prog_mbind.
  simpl prog_bind.
  repeat (destruct (one_of eq _); [done|]).
  destruct (_ && _); [done|].
  rewrite run_bind, run_species_is_draconian.
  destruct (species_is_draconian (descriptors table) species) as [dr|];
    [|done].
  simpl. by destruct (dr && _).
Qed.

Lemma run_species_mutation_level species mut mut_level g :
  run table (Prog.species_mutation_level species mut mut_level) g
  = returns (species_mutation_level (descriptors table) species mut mut_level)
      g.
Proof using Type.
  unfold Prog.species_mutation_level, species_mutation_level.
  run_lookup species g.
  by destruct (species_mutation_level_loop _ _ _ _).
Qed.

Lemma run_species_shout_verb sp screaminess directed g :
  run table (Prog.species_shout_verb sp screaminess directed) g
  = let '(verb, r) := species_shout_verb sp screaminess directed (rng g) in
    (λ v, (v, with_rng r g)) <$> verb.
Proof using Type.
  unfold Prog.species_shout_verb, species_shout_verb.
  assert (Hopt : ∀ o : option string,
            run table (of_option o) g = (λ v, (v, with_rng (rng g) g)) <$> o).
  { intros [v|]; simpl; by rewrite ?with_rng_same. }
  repeat case_bool_decide; simpl; try destruct directed; simpl;
    try destruct (tape (rng g) (pos (rng g))); simpl;
    rewrite ?Hopt, ?with_rng_same; try done.
  all: by destruct (fv_get _ _).
Qed.

End Refinement.

(** ** The mutation schedule *)

Section Schedule.

Context `{E : Enums}.
Variable species_data : gmap Z species_def.

Lemma cumulative_level_cons_same lum lums mut k :
  lum_mut lum = mut →
  cumulative_level (lum :: lums) mut (S k)
  = lum_mut_level lum + cumulative_level lums mut k.
Proof.
  intros Hm. unfold cumulative_level. simpl.
  by rewrite filter_cons_True by done.
Qed.

Lemma cumulative_level_cons_other lum lums mut k :
  lum_mut lum ≠ mut →
  cumulative_level (lum :: lums) mut (S k) = cumulative_level lums mut k.
Proof.
  intros Hm. unfold cumulative_level. simpl.
  by rewrite filter_cons_False by done.
Qed.

Lemma cumulative_level_0 lums mut : cumulative_level lums mut 0 = 0.
Proof. done. Qed.

(** The loop with a running total [total] stops at the first entry for
    [mut] at which the total reaches [mut_level]. *)
Lemma int_add_in_range (a b : Z) :
  INT_MIN ≤ a + b ≤ INT_MAX → int_add a b = Some (a + b).
Proof.
  intros Hsum. unfold int_add.
  rewrite (bool_decide_eq_false_2 (0 < a ∧ 0 < b ∧ INT_MAX < a + b)) by lia.
  by rewrite (bool_decide_eq_false_2 (a < 0 ∧ b < 0 ∧ a + b < INT_MIN)) by lia.
Qed.

Lemma species_mutation_level_loop_spec mut mut_level lums : ∀ total,
  (∀ k, INT_MIN ≤ total + cumulative_level lums mut k ≤ INT_MAX) →
  (∃ k lum,
      lums !! k = Some lum ∧ lum_mut lum = mut
      ∧ mut_level ≤ total + cumulative_level lums mut (S k)
      ∧ (∀ j lum', (j < k)%nat → lums !! j = Some lum' → lum_mut lum' = mut →
           total + cumulative_level lums mut (S j) < mut_level)
      ∧ species_mutation_level_loop mut mut_level total lums
        = Some (lum_xp_level lum))
  ∨ ((∀ k lum, lums !! k = Some lum → lum_mut lum = mut →
        total + cumulative_level lums mut (S k) < mut_level)
     ∧ species_mutation_level_loop mut mut_level total lums = Some 0).
Proof.
  induction lums as [|lum lums IH]; intros total Hfit.
  - right. split; [|done]. intros k lum Hk. by rewrite lookup_nil in Hk.
  - cbn [species_mutation_level_loop]. case_bool_decide as Hmut.
    + symmetry in Hmut.
      assert (Hone : INT_MIN ≤ total + lum_mut_level lum ≤ INT_MAX).
      { specialize (Hfit 1%nat).
        by rewrite cumulative_level_cons_same, cumulative_level_0,
          Z.add_0_r in Hfit by done. }
      rewrite int_add_in_range by done. simpl.
      assert (Hrest : ∀ k, INT_MIN ≤ total + lum_mut_level lum
                                    + cumulative_level lums mut k ≤ INT_MAX).
      { intros k. specialize (Hfit (S k)).
        rewrite cumulative_level_cons_same in Hfit by done. lia. }
      case_bool_decide as Hreach.
      * left. exists 0%nat, lum. split_and!; try done.
        -- rewrite cumulative_level_cons_same, cumulative_level_0 by done. lia.
        -- intros j ? Hj. lia.
      * destruct (IH (total + lum_mut_level lum) Hrest)
          as [(k & lum' & Hk & Hm & Hge & Hmin & Hres)|[Hnone Hres]].
        -- left. exists (S k), lum'. split_and!; try done.
           ++ rewrite cumulative_level_cons_same by done. lia.
           ++ intros [|j] lum'' Hj Hlook Hm'.
              ** rewrite cumulative_level_cons_same, cumulative_level_0
                   by done. lia.
              ** rewrite cumulative_level_cons_same by done.
                 specialize (Hmin j lum'' ltac:(lia) Hlook Hm'). lia.
        -- right. split; [|done]. intros [|k] lum' Hlook Hm'.
           ++ rewrite cumulative_level_cons_same, cumulative_level_0
                by done. lia.
           ++ rewrite cumulative_level_cons_same by done.
              specialize (Hnone k lum' Hlook Hm'). lia.
    + assert (Hne : lum_mut lum ≠ mut) by congruence.
      assert (Hrest : ∀ k, INT_MIN ≤ total + cumulative_level lums mut k
                           ≤ INT_MAX).
      { intros k. specialize (Hfit (S k)).
        by rewrite cumulative_level_cons_other in Hfit by done. }
      destruct (IH total Hrest)
        as [(k & lum' & Hk & Hm & Hge & Hmin & Hres)|[Hnone Hres]].
      * left. exists (S k), lum'. split_and!; try done.
        -- by rewrite cumulative_level_cons_other.
        -- intros [|j] lum'' Hj Hlook Hm'.
           ++ simpl in Hlook. congruence.
           ++ rewrite cumulative_level_cons_other by done.
              apply (Hmin j lum''); [lia|done..].
      * right. split; [|done]. intros [|k] lum' Hlook Hm'.
        -- simpl in Hlook. congruence.
        -- rewrite cumulative_level_cons_other by done.
           by apply (Hnone k lum').
Qed.

(** C4: for a schedule whose running sums are [int]s,
    [species_mutation_level] returns the experience level of the first
    entry of the schedule at which the levels of [mut], added up in the
    order of the list, reach [mut_level], and 0 when they never do. *)
Theorem species_mutation_level_first_reach (sp : species_type)
    (mut : mutation_type) (mut_level : Z) (def : species_def) :
  get_species_def species_data sp = Some def →
  let lums := level_up_mutations def in
  sums_fit_int lums mut →
  (∃ k lum,
      lums !! k = Some lum ∧ lum_mut lum = mut
      ∧ mut_level ≤ cumulative_level lums mut (S k)
      ∧ (∀ j lum', (j < k)%nat → lums !! j = Some lum' → lum_mut lum' = mut →
           cumulative_level lums mut (S j) < mut_level)
      ∧ species_mutation_level species_data sp mut mut_level
        = Some (lum_xp_level lum))
  ∨ ((∀ k lum, lums !! k = Some lum → lum_mut lum = mut →
        cumulative_level lums mut (S k) < mut_level)
     ∧ species_mutation_level species_data sp mut mut_level = Some 0).
Proof.
  intros Hdef lums Hfit. subst lums.
  unfold species_mutation_level. rewrite Hdef. simpl.
  destruct (species_mutation_level_loop_spec mut mut_level
              (level_up_mutations def) 0)
    as [(k & lum & Hk & Hm & Hge & Hmin & Hres)|[Hnone Hres]].
  { intros k. rewrite Z.add_0_l. apply Hfit. }
  - left. exists k, lum. split_and!; [done|done|lia| |by rewrite Hres].
    intros j lum' Hj Hlook Hm'. specialize (Hmin j lum' Hj Hlook Hm'). lia.
  - right. split; [|by rewrite Hres].
    intros k lum Hlook Hm. specialize (Hnone k lum Hlook Hm). lia.
Qed.

End Schedule.

(** ** Names *)

Section Names.

Context `{E : Enums}.
Variable species_data : gmap Z species_def.

Lemma get_species_def_in_range sp :
  0 ≤ sp < NUM_SPECIES → get_species_def species_data sp = species_data !! sp.
Proof.
  intros ?. unfold get_species_def.
  rewrite (bool_decide_eq_true_2 (0 ≤ sp < NUM_SPECIES)) by done.
  by rewrite andb_false_r.
Qed.

Lemma species_name_plain sp def :
  get_species_def species_data sp = Some def →
  species_name species_data sp SPNAME_PLAIN = Some (name def).
Proof. intros Hdef. unfold species_name. rewrite Hdef. done. Qed.

Hypothesis complete : table_complete species_data.
Hypothesis distinct : names_distinct species_data.

Lemma str_to_species_loop_finds sp def range :
  0 ≤ sp < NUM_SPECIES → species_data !! sp = Some def →
  sp ∈ range → (∀ i, i ∈ range → 0 ≤ i < NUM_SPECIES) →
  str_to_species_loop species_data (name def) range = Some sp.
Proof.
  intros Hsp Hdef. induction range as [|i range IH]; intros Hin Hrange.
  - by apply elem_of_nil in Hin.
  - assert (Hi : 0 ≤ i < NUM_SPECIES) by (apply Hrange; by left).
    destruct (complete i Hi) as [di Hdi].
    cbn [str_to_species_loop].
    rewrite (species_name_plain i di)
      by (by rewrite get_species_def_in_range).
    simpl. destruct (String.eqb (name def) (name di)) eqn:Hname.
    + apply String.eqb_eq in Hname.
      by rewrite (distinct sp i def di Hsp Hi Hdef Hdi Hname).
    + apply String.eqb_neq in Hname.
      apply elem_of_cons in Hin as [->|Hin]; [congruence|].
      apply IH; [done|]. intros j ?. apply Hrange. by right.
Qed.

End Names.

(** C7: for a species below [NUM_SPECIES], looking up its plain name with
    [str_to_species] gives the species back. *)
Theorem str_to_species_species_name `{E : Enums}
    (species_data : gmap Z species_def) (sp : species_type) :
  table_complete species_data →
  names_distinct species_data →
  names_not_empty species_data →
  0 ≤ sp < NUM_SPECIES →
  ∃ n, species_name species_data sp SPNAME_PLAIN = Some n
       ∧ str_to_species species_data n = Some sp.
Proof.
  intros complete distinct Hne Hsp. destruct (complete sp Hsp) as [def Hdef].
  exists (name def). split.
  - apply species_name_plain. by rewrite get_species_def_in_range.
  - unfold str_to_species.
    destruct (String.eqb (name def) "") eqn:Hempty.
    + apply String.eqb_eq in Hempty. by destruct (Hne sp def Hsp Hdef).
    + apply str_to_species_loop_finds; [done..| |].
      * apply elem_of_seqZ. lia.
      * intros i Hi%elem_of_seqZ. lia.
Qed.

(** ** Changing the species: loops over the mutations *)

Lemma for_each_index_invariant {S} (body : Z → S → option S)
    (I : nat → S → Prop) (N : nat) (s s' : S) :
  I 0%nat s →
  (∀ k t t', (k < N)%nat → I k t → body (Z.of_nat k) t = Some t' →
             I (Datatypes.S k) t') →
  for_each body (seqZ 0 (Z.of_nat N)) s = Some s' → I N s'.
Proof.
  intros H0. revert s'. induction N as [|N IH]; intros s' Hstep Hrun.
  - simpl in Hrun. by simplify_eq.
  - rewrite seqZ_snoc, for_each_app in Hrun.
    destruct (for_each body (seqZ 0 (Z.of_nat N)) s) as [t|] eqn:Ht;
      simpl in Hrun; [|done].
    destruct (body (0 + Z.of_nat N) t) as [t'|] eqn:Hbody;
      simpl in Hrun; [|done].
    simplify_eq. apply (Hstep N t); [lia| |done].
    apply IH; [|done]. intros k u u' ?. apply Hstep. lia.
Qed.

Lemma fv_set_of_nat {A} (v v' : list A) (k : nat) (x : A) :
  fv_set v (Z.of_nat k) x = Some v' →
  (k < length v)%nat ∧ v' = <[k := x]> v.
Proof.
  intros [? ->]%fv_set_Some. rewrite Nat2Z.id. split; [lia|done].
Qed.

Lemma u8_small (z : Z) : 0 ≤ z < 256 → u8 z = z.
Proof. intros ?. unfold u8. by apply Z.mod_small. Qed.

Lemma u8_range (z : Z) : 0 ≤ u8 z < 256.
Proof. unfold u8. by apply Z.mod_pos_bound. Qed.

Section Migration.

Context `{E : Enums} `{X : Extern}.
Variable species_data : gmap Z species_def.

(** *** Taking the innate levels off *)

Lemma player_ok_levels (p : player) (i : nat) m n :
  player_ok p → mutation p !! i = Some m → innate_mutation p !! i = Some n →
  0 ≤ n ≤ m ∧ m < 256.
Proof.
  intros Hok Hm Hn. apply (ok_levels p Hok (Z.of_nat i)); by rewrite fv_get_of_nat.
Qed.

Lemma remove_innate_mutation_step (p0 : player) (k : nat) s s' :
  player_ok p0 → (k < Z.to_nat NUM_MUTATIONS)%nat →
  removed_upto p0 k s →
  remove_innate_mutation (Z.of_nat k) s = Some s' →
  removed_upto p0 (S k) s'.
Proof.
  intros Hok Hk (Hlm & Hli & Hlp & Hxl & Hpt) Hrun.
  destruct s as [p prev]. simpl in *.
  assert (Hkm : (k < length (mutation p0))%nat).
  { pose proof (ok_mutation p0 Hok). lia. }
  assert (Hki : (k < length (innate_mutation p0))%nat).
  { pose proof (ok_innate_mutation p0 Hok). lia. }
  destruct (lookup_lt_is_Some_2 _ _ Hkm) as [mk Hmk].
  destruct (lookup_lt_is_Some_2 _ _ Hki) as [nk Hnk].
  destruct (player_ok_levels p0 k mk nk Hok Hmk Hnk) as [Hnm Hm256].
  pose proof (Hpt k mk nk Hmk Hnk) as Hcur.
  rewrite decide_False in Hcur by lia. destruct Hcur as [Hpm Hpn].
  unfold remove_innate_mutation, has_innate_mutation in Hrun.
  rewrite !fv_get_of_nat, Hpn in Hrun.
  apply bind_Some in Hrun as (inn & [= <-] & Hrun).
  apply bind_Some in Hrun as (p1 & Hp1 & Hrun).
  apply bind_Some in Hrun as (m1 & Hm1 & Hrun).
  apply bind_Some in Hrun as (prev' & Hprev & [= <-]).
  rewrite ?fv_get_of_nat in Hm1.
  apply fv_set_of_nat in Hprev as [? ->]. simpl.
  case_bool_decide as Hpos.
  - rewrite ?fv_get_of_nat, ?Hpm, ?Hpn in Hp1.
    apply bind_Some in Hp1 as (? & [= <-] & Hp1).
    apply bind_Some in Hp1 as (? & [= <-] & Hp1).
    apply bind_Some in Hp1 as (mu & Hmu & Hp1).
    apply bind_Some in Hp1 as (inn & Hinn & [= <-]).
    apply fv_set_of_nat in Hmu as [? ->]. apply fv_set_of_nat in Hinn as [? ->].
    simpl in *. rewrite list_lookup_insert_eq in Hm1 by done.
    injection Hm1 as <-.
    unfold removed_upto. simpl. rewrite !length_insert. split_and!; try done.
    intros i m n Hm Hn. specialize (Hpt i m n Hm Hn).
    destruct (decide (i = k)) as [->|Hne].
    + rewrite decide_True by lia. simplify_eq.
      rewrite !list_lookup_insert_eq by lia.
      rewrite u8_small by lia. done.
    + rewrite !list_lookup_insert_ne by done.
      destruct (decide (i < k)%nat); [rewrite decide_True by lia|
                                      rewrite decide_False by lia]; done.
  - injection Hp1 as <-. rewrite Hpm in Hm1. injection Hm1 as <-.
    unfold removed_upto. simpl. rewrite !length_insert. split_and!; try done.
    intros i m n Hm Hn. specialize (Hpt i m n Hm Hn).
    assert (nk = 0) as -> by lia.
    destruct (decide (i = k)) as [->|Hne].
    + rewrite decide_True by lia. simplify_eq.
      rewrite !list_lookup_insert_eq by lia.
      rewrite Z.sub_0_r. done.
    + rewrite !list_lookup_insert_ne by done.
      destruct (decide (i < k)%nat); [rewrite decide_True by lia|
                                      rewrite decide_False by lia]; done.
Qed.

Lemma remove_innate_mutations_spec (p0 p1 : player) (prev : list Z) :
  player_ok p0 →
  remove_innate_mutations p0 = Some (p1, prev) →
  removed_upto p0 (Z.to_nat NUM_MUTATIONS) (p1, prev).
Proof.
  intros Hok Hrun. unfold remove_innate_mutations in Hrun.
  pose proof (ok_num_mutations p0 Hok) as Hnn.
  rewrite <- (Z2Nat.id NUM_MUTATIONS) in Hrun at 1 by done.
  revert Hrun. apply for_each_index_invariant.
  - unfold removed_upto. simpl. rewrite length_replicate.
    split_and!; try done.
  - intros k t t' Hk. by apply remove_innate_mutation_step.
Qed.

(** *** Granting the level-1 mutations *)

Lemma basic_level_snoc lums lum mut :
  basic_level (lums ++ [lum]) mut
  = if decide (lum_mut lum = mut ∧ lum_xp_level lum = 1)
    then Some (u8 (lum_mut_level lum)) else basic_level lums mut.
Proof.
  unfold basic_level. rewrite filter_app, filter_cons, filter_nil.
  case_decide; [by rewrite last_snoc | by rewrite app_nil_r].
Qed.

Lemma give_basic_mutations_spec lums : ∀ p p',
  for_each give_basic_mutation lums p = Some p' →
  length (mutation p') = length (mutation p)
  ∧ length (innate_mutation p') = length (innate_mutation p)
  ∧ experience_level p' = experience_level p
  ∧ ∀ i : nat,
      (i < length (mutation p))%nat → (i < length (innate_mutation p))%nat →
      mutation p' !! i
      = granted (basic_level lums (Z.of_nat i)) (mutation p !! i)
      ∧ innate_mutation p' !! i
        = granted (basic_level lums (Z.of_nat i)) (innate_mutation p !! i).
Proof.
  induction lums as [|lum lums IH] using rev_ind; intros p p' Hrun.
  - simpl in Hrun. by simplify_eq.
  - rewrite for_each_app in Hrun.
    apply bind_Some in Hrun as (q & Hq & Hrun).
    destruct (IH p q Hq) as (Hlm & Hli & Hxl & Hpt). clear IH Hq.
    simpl in Hrun. apply bind_Some in Hrun as (q' & Hstep & [= <-]).
    unfold give_basic_mutation in Hstep.
    case_bool_decide as Hxp.
    + apply bind_Some in Hstep as (inn & Hinn & Hstep).
      apply bind_Some in Hstep as (mu & Hmu & [= <-]).
      apply fv_set_Some in Hinn as [Hri ->].
      apply fv_set_Some in Hmu as [Hrm ->].
      simpl. rewrite !length_insert. split_and!; try done.
      intros i Him Hii. rewrite basic_level_snoc.
      destruct (Hpt i Him Hii) as [Hm Hn].
      destruct (decide (lum_mut lum = Z.of_nat i)) as [Heq|Hne].
      * rewrite decide_True by done. rewrite Heq, Nat2Z.id. simpl.
        rewrite !list_lookup_insert_eq by lia. done.
      * rewrite decide_False by (by intros [? _]).
        rewrite !list_lookup_insert_ne by lia. done.
    + injection Hstep as <-. split_and!; try done.
      intros i Him Hii. rewrite basic_level_snoc.
      rewrite decide_False by (by intros [_ ?]). by apply Hpt.
Qed.

(** *** Levels 2 and above: what [perma_mutate] adds *)







(** *** Settling the innate levels against [prev_muts] *)

Lemma settle_innate_mutation_step prev p0 (k : nat) p p' :
  settled_upto prev p0 k p →
  settle_innate_mutation prev (Z.of_nat k) p = Some p' →
  settled_upto prev p0 (S k) p'.
Proof.
  intros (Hm & Hl & Hxl & Hpt) Hrun. unfold settle_innate_mutation in Hrun.
  rewrite !fv_get_of_nat in Hrun.
  apply bind_Some in Hrun as (pv & Hpv & Hrun).
  apply bind_Some in Hrun as (n & Hn & Hrun).
  apply bind_Some in Hrun as (inn & Hinn & [= <-]).
  apply fv_set_of_nat in Hinn as [Hk ->].
  unfold settled_upto. simpl. rewrite length_insert. split_and!; try done.
  intros i pv' n' Hpv' Hn'.
  assert (is_Some (innate_mutation p0 !! k)) as [n0 Hn0].
  { apply lookup_lt_is_Some. lia. }
  pose proof (Hpt k pv n0 Hpv Hn0) as Hcur.
  rewrite decide_False in Hcur by lia. simplify_eq.
  destruct (decide (i = k)) as [->|Hne].
  - rewrite decide_True by lia. simplify_eq.
    by rewrite list_lookup_insert_eq by done.
  - rewrite list_lookup_insert_ne by done.
    rewrite (Hpt i pv' n' Hpv' Hn').
    destruct (decide (i < k)%nat); [rewrite decide_True by lia|
                                    rewrite decide_False by lia]; done.
Qed.

Lemma settle_innate_mutations_spec prev p0 p' :
  0 ≤ NUM_MUTATIONS →
  settle_innate_mutations prev p0 = Some p' →
  settled_upto prev p0 (Z.to_nat NUM_MUTATIONS) p'.
Proof.
  intros Hnn Hrun. unfold settle_innate_mutations in Hrun.
  rewrite <- (Z2Nat.id NUM_MUTATIONS) in Hrun at 1 by done.
  revert Hrun. apply for_each_index_invariant.
  - unfold settled_upto. split_and!; try done.
  - intros k t t' Hk. apply settle_innate_mutation_step.
Qed.

(** *** Lines 631-656 as a whole *)

Lemma basic_level_range lums mut l :
  basic_level lums mut = Some l → 0 ≤ l < 256.
Proof.
  unfold basic_level. intros (lum & _ & ->)%fmap_Some. apply u8_range.
Qed.


(** *** What the other phases leave alone *)

Lemma rescale_skill_points_frame sp (p p' : player) :
  rescale_skill_points sp p = Some p' →
  same_mutations p p' ∧ species p' = species p.
Proof.
  unfold rescale_skill_points.
  apply (for_each_invariant (λ t, same_mutations p t ∧ species t = species p)).
  - intros sk t t' _ [(? & ? & ?) ?] Hstep. unfold rescale_skill_point in Hstep.
    apply bind_Some in Hstep as (pts & _ & Hstep).
    apply bind_Some in Hstep as (new & _ & Hstep).
    apply bind_Some in Hstep as (v & _ & [= <-]). done.
  - done.
Qed.

Lemma swap_equip_frame a b (p p' : player) :
  _swap_equip a b p = Some p' → same_mutations p p'.
Proof.
  unfold _swap_equip. intros Hrun.
  repeat (apply bind_Some in Hrun as (? & _ & Hrun)).
  by injection Hrun as <-.
Qed.

Lemma swap_ring_slots_frame old_sp sp (p p' : player) :
  swap_ring_slots old_sp sp p = Some p' → same_mutations p p'.
Proof.
  unfold swap_ring_slots. destruct (xorb _ _); [|by intros [= <-]].
  intros Hrun. apply bind_Some in Hrun as (q & Hq & Hrun).
  apply swap_equip_frame in Hq as (? & ? & ?).
  apply swap_equip_frame in Hrun as (? & ? & ?).
  unfold same_mutations. split_and!; congruence.
Qed.

Lemma drop_unwearables_frame (g g' : game) :
  drop_unwearables g = Some g' → same_mutations (you g) (you g').
Proof.
  unfold drop_unwearables.
  apply (for_each_invariant (λ t, same_mutations (you g) (you t))); [|done].
  intros i t t' _ Hsame Hstep. unfold drop_unwearable in Hstep.
  case_bool_decide; [|by simplify_eq].
  apply bind_Some in Hstep as (e & _ & Hstep).
  case_bool_decide; [|by simplify_eq].
  repeat (apply bind_Some in Hstep as (? & _ & Hstep)).
  by injection Hstep as <-.
Qed.

Lemma player_ok_same (p q : player) :
  same_mutations p q → player_ok p → player_ok q.
Proof.
  intros (Hm & Hn & _) [H0 H1 H2 H3].
  split; rewrite ?Hm, ?Hn; done.
Qed.

(** The mutations after [change_species_to] are those [migrate_mutations]
    leaves, when the species is not the demonspawn one. *)
Lemma change_species_to_mutations sp (g g' : game) :
  bystanders_keep_mutations → sp ≠ SP_DEMONSPAWN →
  change_species_to species_data sp g = Some g' →
  ∃ g0 g1,
    same_mutations (you g) (you g0)
    ∧ migrate_mutations species_data sp g0 = Some g1
    ∧ mutation (you g') = mutation (you g1)
    ∧ innate_mutation (you g') = innate_mutation (you g1).
Proof.
  intros (Hvis & Hfix & Hhp & Hmp & Hsym & Hred & Hupd) Hds Hrun.
  unfold change_species_to in Hrun.
  apply bind_Some in Hrun as ([old_sp ge] & Hprefix & Hrun).
  apply bind_Some in Hrun as (gs & Hswap & Hsuffix).
  unfold change_species_prefix in Hprefix.
  case_bool_decide; [done|].
  apply bind_Some in Hprefix as (ga & Hrescale & Hprefix).
  apply bind_Some in Hprefix as (n & Hname & Hprefix).
  apply bind_Some in Hprefix as (gc & Hmigrate & Hprefix).
  apply bind_Some in Hprefix as (gd & Hdemon & Hprefix).
  apply bind_Some in Hprefix as (ge' & Hvision & [= <- <-]).
  apply bind_Some in Hrescale as (pa & Hrescale & [= <-]).
  apply rescale_skill_points_frame in Hrescale as [Hsame _].
  unfold demonspawn_traits in Hdemon.
  rewrite bool_decide_eq_false_2 in Hdemon by done. injection Hdemon as <-.
  apply Hvis in Hvision as [Hv1 Hv2].
  apply bind_Some in Hswap as (ps & Hswap & [= <-]).
  apply swap_ring_slots_frame in Hswap as (Hs1 & Hs2 & _).
  unfold change_species_suffix in Hsuffix.
  apply bind_Some in Hsuffix as (g1 & Hdrop & Hsuffix).
  apply bind_Some in Hsuffix as (g2 & H2 & Hsuffix).
  apply bind_Some in Hsuffix as (g3 & H3 & Hsuffix).
  apply bind_Some in Hsuffix as (g4 & H4 & Hsuffix).
  apply bind_Some in Hsuffix as (g5 & H5 & Hsuffix).
  apply bind_Some in Hsuffix as (g6 & H6 & H7).
  apply drop_unwearables_frame in Hdrop as (Hd1 & Hd2 & _). simpl in Hd1, Hd2.
  apply Hfix in H2 as [? ?]. apply Hhp in H3 as [? ?].
  apply Hmp in H4 as [? ?]. apply Hsym in H5 as [? ?].
  apply Hred in H6 as [? ?]. apply Hupd in H7 as [? ?].
  eexists _, gc. split; [|split; [exact Hmigrate|]].
  - simpl. exact Hsame.
  - split; congruence.
Qed.


End Migration.

(** ** Changing the species: the ring slots *)

Lemma fv_swap_get {A} (v v1 v2 : list A) (a b : Z) (xa xb : A) :
  fv_get v a = Some xa → fv_get v b = Some xb →
  fv_set v a xb = Some v1 → fv_set v1 b xa = Some v2 →
  ∀ i, fv_get v2 i = fv_get v (transposed a b i).
Proof.
  intros Ha Hb H1 H2 i. unfold transposed.
  case_decide as Hib.
  - subst i. by rewrite (fv_get_set_eq _ _ _ _ H2), Ha.
  - rewrite (fv_get_set_ne _ _ _ _ _ H2) by done.
    case_decide as Hia.
    + subst i. by rewrite (fv_get_set_eq _ _ _ _ H1), Hb.
    + by rewrite (fv_get_set_ne _ _ _ _ _ H1).
Qed.

Section RingSwap.

Context `{E : Enums} `{X : Extern}.
Variable species_data : gmap Z species_def.


Lemma swapped_slots_distinct :
  bans_eq_labels_distinct →
  NoDup [EQ_LEFT_RING; EQ_RIGHT_RING; EQ_RING_ONE; EQ_RING_TWO].
Proof.
  intros Hl. unfold bans_eq_labels_distinct, bans_eq_labels in Hl.
  rewrite app_assoc in Hl. apply NoDup_app in Hl as (Hl & _ & _).
  unfold ring_one_to_eight in Hl. simpl in Hl.
  rewrite !NoDup_cons, !not_elem_of_cons in Hl. destruct_and!.
  rewrite !NoDup_cons, !not_elem_of_cons.
  split_and!; first [done | apply not_elem_of_nil | apply NoDup_nil_2].
Qed.

End RingSwap.

(** ** Looking a species up by its name *)

Section NameLookup.

Context `{E : Enums}.
Variable species_data : gmap Z species_def.

Lemma str_to_species_loop_sound (species : string) (range : list Z) :
  ∀ sp, str_to_species_loop species_data species range = Some sp →
  sp = SP_UNKNOWN
  ∨ ∃ k : nat,
      range !! k = Some sp
      ∧ species_name species_data sp SPNAME_PLAIN = Some species
      ∧ ∀ (j : nat) sj, (j < k)%nat → range !! j = Some sj →
          species_name species_data sj SPNAME_PLAIN ≠ Some species.
Proof.
  induction range as [|i range IH]; intros sp Hrun; simpl in Hrun.
  - left. by simplify_eq.
  - apply bind_Some in Hrun as (n & Hn & Hrun).
    destruct (String.eqb species n) eqn:Heq.
    + apply String.eqb_eq in Heq. subst n. injection Hrun as <-.
      right. exists 0%nat. split_and!; [done..|]. intros j sj Hj. lia.
    + apply String.eqb_neq in Heq.
      destruct (IH sp Hrun) as [->|(k & Hk & Hname & Hmin)]; [by left|].
      right. exists (S k). split_and!; [done..|].
      intros [|j] sj Hj Hlook.
      * simpl in Hlook. injection Hlook as <-. rewrite Hn. congruence.
      * apply (Hmin j sj); [lia|done].
Qed.

(** X1.  What [str_to_species] returns is [SP_UNKNOWN] or the first species
    below [NUM_SPECIES] whose plain name is the argument. *)
Theorem str_to_species_sound (n : string) (sp : species_type) :
  str_to_species species_data n = Some sp →
  sp = SP_UNKNOWN
  ∨ (n ≠ ""%string ∧ 0 ≤ sp < NUM_SPECIES
     ∧ species_name species_data sp SPNAME_PLAIN = Some n
     ∧ ∀ j, 0 ≤ j < sp →
         species_name species_data j SPNAME_PLAIN ≠ Some n).
Proof.
  unfold str_to_species. destruct (String.eqb n "") eqn:Hempty.
  - intros [= <-]. by left.
  - apply String.eqb_neq in Hempty. intros Hrun.
    apply str_to_species_loop_sound in Hrun as [->|(k & Hk & Hname & Hmin)];
      [by left|].
    right. apply lookup_seqZ in Hk as [-> Hk].
    split_and!; [done|lia|lia|done|].
    intros j Hj. apply (Hmin (Z.to_nat j)); [lia|].
    apply lookup_seqZ. lia.
Qed.

Lemma str_to_species_loop_none (species : string) (range : list Z) :
  (∀ i, i ∈ range →
     ∃ n, species_name species_data i SPNAME_PLAIN = Some n ∧ n ≠ species) →
  str_to_species_loop species_data species range = Some SP_UNKNOWN.
Proof.
  induction range as [|i range IH]; intros Hno; [done|].
  destruct (Hno i) as (n & Hn & Hne); [by left|].
  simpl. rewrite Hn. simpl.
  rewrite (proj2 (String.eqb_neq species n)) by congruence.
  apply IH. intros j ?. apply Hno. by right.
Qed.

(** X2.  The empty string and a name no species has both give [SP_UNKNOWN]. *)
Theorem str_to_species_unknown (n : string) :
  table_complete species_data →
  n = ""%string
  ∨ (∀ sp, 0 ≤ sp < NUM_SPECIES →
       species_name species_data sp SPNAME_PLAIN ≠ Some n) →
  str_to_species species_data n = Some SP_UNKNOWN.
Proof.
  intros Hcomplete Hno. unfold str_to_species.
  destruct (String.eqb n "") eqn:Hempty; [done|].
  apply String.eqb_neq in Hempty. destruct Hno as [->|Hno]; [done|].
  apply str_to_species_loop_none. intros i Hi%elem_of_seqZ.
  assert (Hrange : 0 ≤ i < NUM_SPECIES) by lia.
  destruct (Hcomplete i Hrange) as [def Hdef].
  exists (name def). split.
  - apply species_name_plain. by rewrite get_species_def_in_range.
  - intros <-. apply (Hno i Hrange).
    apply species_name_plain. by rewrite get_species_def_in_range.
Qed.

End NameLookup.

(** ** Looking a species up by part of its name *)

Lemma string_find_empty (s : string) : string_find s "" = Some 0%nat.
Proof. unfold string_find. by destruct s. Qed.

Lemma last_cons_default {A} (x d : A) (l : list A) :
  default d (last (x :: l)) = default x (last l).
Proof. rewrite last_cons. by destruct (last l). Qed.

Section PartOfName.

Context `{E : Enums}.
Variable species_data : gmap Z species_def.
Variable lowercase_string : string → string.

Lemma find_species_from_string_loop_spec (spec : string)
    (initial_only : bool) (range : list Z) : ∀ sp,
  (∀ i, i ∈ range → is_Some (species_name species_data i SPNAME_PLAIN)) →
  find_species_from_string_loop species_data lowercase_string spec
    initial_only range sp
  = Some match head (filter (starts_name species_data lowercase_string spec)
                       range) with
         | Some first => first
         | None =>
             if initial_only then sp
             else default sp
                    (last (filter (in_name species_data lowercase_string spec)
                             range))
         end.
Proof.
  induction range as [|si range IH]; intros sp Hnames.
  - simpl. by destruct initial_only.
  - assert (Hrest : ∀ i, i ∈ range →
              is_Some (species_name species_data i SPNAME_PLAIN))
      by (intros i ?; apply Hnames; by right).
    destruct (Hnames si) as [n Hn]; [by left|].
    assert (Hlow : lower_name species_data lowercase_string si
                   = lowercase_string n)
      by (unfold lower_name; by rewrite Hn).
    cbn [find_species_from_string_loop]. rewrite Hn. simpl.
    destruct (string_find (lowercase_string n) spec) as [[|pos]|] eqn:Hfind.
    + rewrite filter_cons_True; [done|].
      unfold starts_name. by rewrite Hlow.
    + rewrite bool_decide_eq_false_2 by done.
      rewrite filter_cons_False
        by (unfold starts_name; rewrite Hlow, Hfind; congruence).
      rewrite (filter_cons_True (in_name _ _ _))
        by (unfold in_name; rewrite Hlow, Hfind; eauto).
      destruct initial_only; simpl; rewrite IH by done; [done|].
      destruct (head _); [done|]. by rewrite last_cons_default.
    + rewrite filter_cons_False
        by (unfold starts_name; rewrite Hlow, Hfind; congruence).
      rewrite (filter_cons_False (in_name _ _ _))
        by (unfold in_name; rewrite Hlow, Hfind; by intros [? ?]).
      by rewrite IH.
Qed.

Lemma table_complete_names :
  table_complete species_data →
  ∀ i, i ∈ seqZ 0 NUM_SPECIES →
       is_Some (species_name species_data i SPNAME_PLAIN).
Proof.
  intros Hcomplete i Hi. apply elem_of_seqZ in Hi.
  assert (Hrange : 0 ≤ i < NUM_SPECIES) by lia.
  destruct (Hcomplete i Hrange) as [def Hdef].
  exists (name def). apply species_name_plain.
  by rewrite get_species_def_in_range.
Qed.

(** X3.  [find_species_from_string] returns the first species whose lower-case
    name starts with the lower-case argument.  When there is none it
    returns [SP_UNKNOWN] with [initial_only], and otherwise the last
    species whose name holds the argument somewhere. *)
Theorem find_species_from_string_spec (species : string)
    (initial_only : bool) :
  table_complete species_data →
  let spec := lowercase_string species in
  let range := seqZ 0 NUM_SPECIES in
  find_species_from_string species_data lowercase_string species
    initial_only
  = Some match head (filter (starts_name species_data lowercase_string spec)
                       range) with
         | Some first => first
         | None =>
             if initial_only then SP_UNKNOWN
             else default SP_UNKNOWN
                    (last (filter (in_name species_data lowercase_string spec)
                             range))
         end.
Proof.
  intros Hcomplete spec range. unfold find_species_from_string.
  apply find_species_from_string_loop_spec.
  by apply table_complete_names.
Qed.

(** X4.  An argument that is empty in lower case matches the first species of
    the table, where [str_to_species] answers [SP_UNKNOWN]. *)
Theorem find_species_from_string_empty (species : string)
    (initial_only : bool) :
  table_complete species_data → 0 < NUM_SPECIES →
  lowercase_string species = ""%string →
  find_species_from_string species_data lowercase_string species
    initial_only = Some 0.
Proof.
  intros Hcomplete Hpos Hlow. unfold find_species_from_string.
  rewrite find_species_from_string_loop_spec
    by (by apply table_complete_names).
  rewrite Hlow, seqZ_cons by done.
  rewrite filter_cons_True; [done|]. apply string_find_empty.
Qed.

End PartOfName.

(** ** Looking a species up by its abbreviation *)

Section Abbreviation.

Context `{E : Enums} `{M : MoreEnums}.
Variable species_data : gmap Z species_def.
Variable lowercase_string : string → string.

Lemma species_entries_lookup (sp : species_type) (def : species_def) :
  (sp, def) ∈ species_entries species_data ↔ species_data !! sp = Some def.
Proof.
  unfold species_entries. rewrite merge_sort_Permutation.
  apply elem_of_map_to_list.
Qed.

Lemma get_species_by_abbrev_loop_spec (abbr : string)
    (entries : list (species_type * species_def)) :
  StronglySorted key_le entries →
  (get_species_by_abbrev_loop lowercase_string abbr entries = SP_UNKNOWN
   ∧ ∀ e, e ∈ entries → ¬ abbrev_is lowercase_string abbr e.2)
  ∨ ∃ e, e ∈ entries
      ∧ get_species_by_abbrev_loop lowercase_string abbr entries = e.1
      ∧ abbrev_is lowercase_string abbr e.2
      ∧ ∀ e', e' ∈ entries → abbrev_is lowercase_string abbr e'.2 →
          e.1 ≤ e'.1.
Proof.
  induction entries as [|entry entries IH]; intros Hsorted.
  - left. split; [done|]. intros e Hin. by apply elem_of_nil in Hin.
  - apply StronglySorted_inv in Hsorted as [Hrest Hle].
    cbn [get_species_by_abbrev_loop].
    destruct (String.eqb _ _) eqn:Heq.
    + apply String.eqb_eq in Heq. right. exists entry.
      split_and!; [by left|done|done|].
      intros e' Hin' _. apply elem_of_cons in Hin' as [->|Hin']; [done|].
      rewrite Forall_forall in Hle. by apply Hle.
    + apply String.eqb_neq in Heq.
      destruct (IH Hrest) as [[Hres Hno]|(e & Hin & Hres & Hmatch & Hmin)].
      * left. split; [done|].
        intros e Hin. apply elem_of_cons in Hin as [->|Hin]; [|by apply Hno].
        unfold abbrev_is. intros Hm. apply Heq. by symmetry.
      * right. exists e. split_and!; [by right|done..|].
        intros e' Hin' Hmatch'.
        apply elem_of_cons in Hin' as [->|Hin']; [|by apply Hmin].
        unfold abbrev_is in Hmatch'. destruct Heq. by symmetry.
Qed.

(** X6.  Away from the abbreviation "dr": when no entry of the table has
    the abbreviation up to case, [get_species_by_abbrev] returns
    [SP_UNKNOWN]; when an entry has it, the answer is the smallest species
    that has it.  The answer [SP_UNKNOWN] means that no entry has the
    abbreviation only for a table without an entry under [SP_UNKNOWN]
    itself. *)
Theorem get_species_by_abbrev_sound (abbr : string) :
  lowercase_string abbr ≠ "dr"%string →
  let found := get_species_by_abbrev species_data lowercase_string abbr in
  ((∀ sp def, species_data !! sp = Some def →
      ¬ abbrev_is lowercase_string abbr def) →
   found = SP_UNKNOWN)
  ∧ (∀ sp def, species_data !! sp = Some def →
       abbrev_is lowercase_string abbr def →
       found ≤ sp
       ∧ ∃ first, species_data !! found = Some first
           ∧ abbrev_is lowercase_string abbr first)
  ∧ (species_data !! SP_UNKNOWN = None → found = SP_UNKNOWN →
     ∀ sp def, species_data !! sp = Some def →
       ¬ abbrev_is lowercase_string abbr def).
Proof.
  intros Hdr found. subst found. unfold get_species_by_abbrev.
  rewrite (proj2 (String.eqb_neq _ _) Hdr).
  destruct (get_species_by_abbrev_loop_spec abbr
              (species_entries species_data))
    as [[Hres Hno]|([sp0 def0] & Hin & Hres & Hmatch & Hmin)].
  { apply StronglySorted_merge_sort; apply _. }
  - assert (Hnone : ∀ sp def, species_data !! sp = Some def →
              ¬ abbrev_is lowercase_string abbr def).
    { intros sp def Hdef. apply (Hno (sp, def)).
      by apply species_entries_lookup. }
    split_and!; [done| |done].
    intros sp def Hdef Hm. by destruct (Hnone sp def Hdef).
  - simpl in *. apply species_entries_lookup in Hin. rewrite Hres.
    split_and!.
    + intros Hnone. by destruct (Hnone sp0 def0 Hin).
    + intros sp def Hdef Hm. split; [|by exists def0].
      apply (Hmin (sp, def)); [by apply species_entries_lookup|done].
    + intros Hkey Heq. rewrite Heq in Hin. congruence.
Qed.

(** X7.  The abbreviation of a species leads back to the species when no other
    entry has it up to case and it is not "dr", which always stands for
    the base draconian. *)
Theorem get_species_by_abbrev_round_trip (sp : species_type)
    (def : species_def) :
  species_data !! sp = Some def →
  lowercase_string (abbrev def) ≠ "dr"%string →
  (∀ sp' def', species_data !! sp' = Some def' →
     abbrev_is lowercase_string (abbrev def) def' → sp' = sp) →
  get_species_by_abbrev species_data lowercase_string (abbrev def) = sp.
Proof.
  intros Hdef Hdr Hunique. unfold get_species_by_abbrev.
  rewrite (proj2 (String.eqb_neq _ _) Hdr).
  destruct (get_species_by_abbrev_loop_spec (abbrev def)
              (species_entries species_data))
    as [[_ Hno]|([sp' def'] & Hin & Hres & Hmatch & _)].
  { apply StronglySorted_merge_sort; apply _. }
  - destruct (Hno (sp, def)); [by apply species_entries_lookup|done].
  - rewrite Hres. simpl in *. apply (Hunique sp' def'); [|done].
    by apply species_entries_lookup.
Qed.

End Abbreviation.

(** ** The order of the ring slots *)

Lemma sublist_StronglySorted {A} (R : relation A) (l k : list A) :
  l `sublist_of` k → StronglySorted R k → StronglySorted R l.
Proof.
  induction 1 as [|x l k Hsub IH|x l k Hsub IH]; intros Hk.
  - constructor.
  - apply StronglySorted_inv in Hk as [Hk Hx]. constructor; [by apply IH|].
    rewrite Forall_forall in Hx. apply Forall_forall. intros y Hy.
    apply Hx. by apply (sublist_subseteq _ _ Hsub).
  - apply StronglySorted_inv in Hk as [Hk _]. by apply IH.
Qed.

Lemma seqZ_StronglySorted (m : Z) (n : nat) :
  StronglySorted Z.lt (seqZ m (Z.of_nat n)).
Proof.
  revert m. induction n as [|n IH]; intros m; [constructor|].
  rewrite seqZ_cons by lia. constructor.
  - replace (Z.pred (Z.of_nat (S n))) with (Z.of_nat n) by lia. apply IH.
  - apply Forall_forall. intros x Hx%elem_of_seqZ. lia.
Qed.

Section RingSlotOrder.

Context `{E : Enums}.
Variable species_data : gmap Z species_def.

Lemma ring_slots_loop_sublist sp missing (range : list Z) :
  ∀ result out,
  species_ring_slots_loop species_data sp missing range result = Some out →
  ∃ keep, out = result ++ keep ∧ keep `sublist_of` range
          ∧ ∀ eq, eq ∈ keep → kept species_data sp missing eq.
Proof.
  induction range as [|eq range IH]; intros result out Hrun.
  - simpl in Hrun. injection Hrun as <-. exists [].
    rewrite app_nil_r. split_and!; [done..|].
    intros eq Hin. by apply elem_of_nil in Hin.
  - cbn [species_ring_slots_loop] in Hrun.
    destruct (bool_decide (eq ≠ EQ_AMULET) && bool_decide (eq ≠ EQ_RING_AMULET)
              && bool_decide (eq ≠ missing)) eqn:Htests.
    + apply bind_Some in Hrun as (banned & Hbanned & Hrun).
      apply IH in Hrun as (keep & -> & Hsub & Hkept).
      destruct banned; simpl.
      * exists keep. split_and!; [done| by apply sublist_cons |done].
      * exists (eq :: keep). rewrite <- app_assoc.
        split_and!; [done| by apply sublist_skip |].
        intros eq' Hin. apply elem_of_cons in Hin as [->|Hin]; [|by apply Hkept].
        apply andb_true_iff in Htests as [Htests H3].
        apply andb_true_iff in Htests as [H1 H2].
        apply bool_decide_eq_true in H1, H2, H3. by split_and!.
    + apply IH in Hrun as (keep & -> & Hsub & Hkept).
      exists keep. split_and!; [done| by apply sublist_cons |done].
Qed.

(** X8.  Whatever the numbering of the slots: the list [species_ring_slots]
    returns runs through the jewellery slots in increasing order without
    repeating one and leaves out the amulets, the banned slots and the
    missing hand. *)
Theorem species_ring_slots_ordered (sp : species_type) (missing_hand : bool)
    (slots : list equipment_type) :
  species_ring_slots species_data sp missing_hand = Some slots →
  slots `sublist_of` jewellery_range
  ∧ StronglySorted Z.lt slots
  ∧ NoDup slots
  ∧ ∀ eq, eq ∈ slots →
      EQ_FIRST_JEWELLERY ≤ eq ≤ EQ_LAST_JEWELLERY
      ∧ eq ≠ EQ_AMULET ∧ eq ≠ EQ_RING_AMULET
      ∧ species_bans_eq species_data sp eq = Some false
      ∧ (missing_hand = true → eq ≠ species_sacrificial_arm sp).
Proof.
  unfold species_ring_slots. intros Hrun.
  apply ring_slots_loop_sublist in Hrun as (keep & -> & Hsub & Hkept).
  simpl. split_and!; [done| | |].
  - apply (sublist_StronglySorted _ _ _ Hsub). unfold jewellery_range.
    destruct (decide (0 ≤ EQ_LAST_JEWELLERY - EQ_FIRST_JEWELLERY + 1)) as [?|?].
    + rewrite <- (Z2Nat.id (_ + 1)) by done. apply seqZ_StronglySorted.
    + rewrite seqZ_nil by lia. constructor.
  - apply (sublist_NoDup _ jewellery_range); [apply NoDup_seqZ|done].
  - intros eq Hin. destruct (Hkept eq Hin) as (? & ? & Hmiss & ?).
    assert (Hrange : eq ∈ jewellery_range)
      by (by apply (sublist_subseteq _ _ Hsub)).
    apply elem_of_seqZ in Hrange. split_and!; [lia|lia|done..|].
    intros ->. done.
Qed.

End RingSlotOrder.

(** ** The first level of a mutation *)

Section FirstLevel.

Context `{E : Enums}.
Variable species_data : gmap Z species_def.

(** The first addition to the running total starts from 0 and cannot
    overflow. *)
Lemma species_mutation_level_loop_first (mut : mutation_type)
    (lums : list level_up_mutation) :
  (∀ lum, lum ∈ lums → 1 ≤ lum_mut_level lum) →
  species_mutation_level_loop mut 1 0 lums
  = Some (default 0
            (lum_xp_level
             <$> head (filter (λ lum, lum_mut lum = mut) lums))).
Proof.
  induction lums as [|lum lums IH]; intros Hpos; [done|].
  assert (1 ≤ lum_mut_level lum) by (apply Hpos; by left).
  cbn [species_mutation_level_loop]. case_bool_decide as Hmut.
  - unfold int_add.
    rewrite (bool_decide_eq_false_2 (0 < 0 ∧ _)) by lia.
    rewrite (bool_decide_eq_false_2 (0 < 0 ∧ _)) by lia. simpl.
    rewrite bool_decide_eq_true_2 by lia.
    by rewrite filter_cons_True by done.
  - rewrite filter_cons_False by congruence.
    apply IH. intros lum' ?. apply Hpos. by right.
Qed.

(** X9.  With the default level 1 and a schedule that grants at least one level
    per entry, [species_mutation_level] is the experience level of the
    first entry for the mutation, and 0 without such an entry. *)
Theorem species_mutation_level_first_entry (sp : species_type)
    (mut : mutation_type) (def : species_def) :
  get_species_def species_data sp = Some def →
  (∀ lum, lum ∈ level_up_mutations def → 1 ≤ lum_mut_level lum) →
  species_mutation_level species_data sp mut 1
  = Some (default 0
            (lum_xp_level
             <$> head (filter (λ lum, lum_mut lum = mut)
                         (level_up_mutations def)))).
Proof.
  intros Hdef Hpos. unfold species_mutation_level. rewrite Hdef. simpl.
  by rewrite species_mutation_level_loop_first.
Qed.

(** X10.  For such a schedule that starts at experience level 1, the answer 0
    means exactly that the species never gains the mutation. *)
Theorem species_mutation_level_zero_iff (sp : species_type)
    (mut : mutation_type) (def : species_def) :
  get_species_def species_data sp = Some def →
  (∀ lum, lum ∈ level_up_mutations def →
          1 ≤ lum_mut_level lum ∧ 1 ≤ lum_xp_level lum) →
  species_mutation_level species_data sp mut 1 = Some 0
  ↔ ∀ lum, lum ∈ level_up_mutations def → lum_mut lum ≠ mut.
Proof.
  intros Hdef Hpos.
  assert (Hlevels : ∀ lum, lum ∈ level_up_mutations def →
            1 ≤ lum_mut_level lum) by (intros lum Hin; by apply Hpos).
  unfold species_mutation_level. rewrite Hdef. simpl.
  rewrite species_mutation_level_loop_first by done.
  destruct (head _) as [lum|] eqn:Hhead; simpl.
  - apply head_Some_elem_of, list_elem_of_filter in Hhead as [Hm Hin].
    split.
    + intros [= Hzero]. destruct (Hpos lum Hin). lia.
    + intros Hno. by destruct (Hno lum Hin).
  - split; [|done]. intros _ lum Hin Hm.
    apply head_None in Hhead.
    assert (Hf : lum ∈ filter (λ lum, lum_mut lum = mut)
                   (level_up_mutations def))
      by (by apply list_elem_of_filter).
    rewrite Hhead in Hf. by apply elem_of_nil in Hf.
Qed.

(** X11.  A draconian has no hair, whatever its other flags. *)
Theorem draconian_has_no_hair (sp : species_type) :
  species_is_draconian species_data sp = Some true →
  species_has_hair species_data sp = Some false.
Proof.
  unfold species_is_draconian, species_has_hair, has_flag.
  intros Hdr. apply bind_Some in Hdr as (def & Hdef & [= Hflag]).
  rewrite Hdef. simpl. f_equal. apply negb_false_iff.
  apply negb_true_iff, Z.eqb_neq in Hflag.
  apply negb_true_iff, Z.eqb_neq.
  rewrite Z.land_lor_distr_r. intros Hzero.
  apply Z.lor_eq_0_iff in Hzero as [_ Hzero]. done.
Qed.

(** X23.  [species_has_claws] holds exactly for a species whose first
    schedule entry for claws is at experience level 1: claws that come
    later do not count. *)
Theorem species_has_claws_iff (sp : species_type) (def : species_def) :
  get_species_def species_data sp = Some def →
  (∀ lum, lum ∈ level_up_mutations def → 1 ≤ lum_mut_level lum) →
  species_has_claws species_data sp = Some true
  ↔ ∃ lum, head (filter (λ lum, lum_mut lum = MUT_CLAWS)
                   (level_up_mutations def)) = Some lum
           ∧ lum_xp_level lum = 1.
Proof.
  intros Hdef Hpos. unfold species_has_claws, species_mutation_level.
  rewrite Hdef. simpl. rewrite species_mutation_level_loop_first by done.
  destruct (head _) as [lum|]; simpl.
  - split.
    + intros [= Hone]. apply Z.eqb_eq in Hone. by exists lum.
    + intros (lum' & [= <-] & Hone). f_equal. by apply Z.eqb_eq.
  - split; [done|]. by intros (lum' & ? & _).
Qed.

(** X24.  [species_is_unbreathing] holds for a species exactly when its
    schedule has an entry for the mutation, at whatever level. *)
Theorem species_is_unbreathing_iff (sp : species_type) (def : species_def) :
  get_species_def species_data sp = Some def →
  (∀ lum, lum ∈ level_up_mutations def →
          1 ≤ lum_mut_level lum ∧ 1 ≤ lum_xp_level lum) →
  species_is_unbreathing species_data sp = Some true
  ↔ ∃ lum, lum ∈ level_up_mutations def ∧ lum_mut lum = MUT_UNBREATHING.
Proof.
  intros Hdef Hpos.
  assert (Hlevels : ∀ lum, lum ∈ level_up_mutations def →
            1 ≤ lum_mut_level lum) by (intros lum Hin; by apply Hpos).
  unfold species_is_unbreathing, species_mutation_level.
  rewrite Hdef. simpl. rewrite species_mutation_level_loop_first by done.
  destruct (head _) as [lum|] eqn:Hhead; simpl.
  - apply head_Some_elem_of, list_elem_of_filter in Hhead as [Hm Hin].
    split; [by exists lum|]. intros _. f_equal.
    apply negb_true_iff, Z.eqb_neq. destruct (Hpos lum Hin). lia.
  - split; [done|]. intros (lum & Hin & Hm).
    apply head_None in Hhead.
    assert (Hf : lum ∈ filter (λ lum, lum_mut lum = MUT_UNBREATHING)
                   (level_up_mutations def))
      by (by apply list_elem_of_filter).
    rewrite Hhead in Hf. by apply elem_of_nil in Hf.
Qed.

End FirstLevel.

(** ** Starting species and removed species *)

Section Starting.

Context `{E : Enums} `{M : MoreEnums}.
Variable species_jobs : gmap Z species_def_jobs.

Lemma get_species_def_shown (sp : species_type) :
  get_species_def (shown <$> species_jobs) sp
  = shown <$> get_species_def_jobs species_jobs sp.
Proof.
  unfold get_species_def, get_species_def_jobs.
  destruct (_ && _); [done|]. apply lookup_fmap.
Qed.

(** X12.  A starting species is not a removed one, the mottled draconian of
    save version 34 apart. *)
Theorem starting_species_not_removed (species : species_type) :
  is_starting_species species_jobs species = Some true →
  ¬ (TAG_MAJOR_VERSION = 34 ∧ species = SP_MOTTLED_DRACONIAN) →
  species_is_removed species_jobs species = Some false.
Proof.
  unfold is_starting_species, species_is_removed. intros Hstart Hmottled.
  case_bool_decide; [|done].
  apply bind_Some in Hstart as (def & Hdef & [= Hjobs]).
  apply negb_true_iff in Hjobs.
  assert (Htest : bool_decide (TAG_MAJOR_VERSION = 34)
                  && bool_decide (species = SP_MOTTLED_DRACONIAN) = false).
  { apply andb_false_iff.
    destruct (decide (TAG_MAJOR_VERSION = 34)) as [Htag|Htag].
    - right. apply bool_decide_eq_false_2. intros ?. by apply Hmottled.
    - left. by apply bool_decide_eq_false_2. }
  rewrite Htest. unfold species_is_draconian.
  rewrite get_species_def_shown, Hdef. simpl.
  destruct (negb _); [done|]. by rewrite Hjobs.
Qed.

End Starting.

(** ** A random draconian colour *)

Section Colours.

Context `{E : Enums} `{M : MoreEnums}.
Variable species_jobs : gmap Z species_def_jobs.
Variable R : Type.
Variable random_range : Z → Z → R → Z * R.

Lemma random_draconian_colour_turn_stops (r r' : R) (sp : species_type) :
  random_draconian_colour_turn species_jobs R random_range r
  = Some (sp, false, r') →
  fit_colour species_jobs sp.
Proof.
  unfold random_draconian_colour_turn, fit_colour.
  destruct (random_range 0 (NUM_SPECIES - 1) r) as [species r1].
  intros Hturn.
  apply bind_Some in Hturn as (dr & Hdr & Hturn).
  apply bind_Some in Hturn as (again & Hagain & [= -> -> ->]).
  destruct dr; simpl in Hagain; [|done].
  apply bind_Some in Hagain as (removed & Hremoved & Hagain).
  destruct removed; [done|]. injection Hagain as Hbase.
  apply bool_decide_eq_false_1 in Hbase. done.
Qed.

(** X25.  Whatever the generator draws, a species [random_draconian_colour]
    returns is a draconian that is neither removed nor the base
    draconian. *)
Theorem random_draconian_colour_sound (fuel : nat) (r r' : R)
    (sp : species_type) :
  random_draconian_colour species_jobs R random_range fuel r
  = Some (sp, r') →
  fit_colour species_jobs sp.
Proof.
  revert r. induction fuel as [|fuel IH]; intros r Hrun; [done|].
  simpl in Hrun.
  apply bind_Some in Hrun as ([[species again] r1] & Hturn & Hrun).
  simpl in Hrun. destruct again.
  - by apply (IH r1).
  - injection Hrun as -> ->.
    by apply (random_draconian_colour_turn_stops r r').
Qed.

(** X26.  When no species of the table is such a colour the loop of
    [random_draconian_colour] has no end: every turn comes back with the
    loop condition true, and no number of turns gives a result. *)
Theorem random_draconian_colour_never_ends :
  random_range_in_range R random_range →
  0 < NUM_SPECIES →
  table_complete (shown <$> species_jobs) →
  (∀ sp, 0 ≤ sp < NUM_SPECIES → ¬ fit_colour species_jobs sp) →
  (∀ r, ∃ sp r',
     random_draconian_colour_turn species_jobs R random_range r
     = Some (sp, true, r'))
  ∧ ∀ fuel r,
      random_draconian_colour species_jobs R random_range fuel r = None.
Proof.
  intros Hrange Hpos Hcomplete Hnone.
  assert (Hturn : ∀ r, ∃ sp r',
            random_draconian_colour_turn species_jobs R random_range r
            = Some (sp, true, r')).
  { intros r. unfold random_draconian_colour_turn.
    pose proof (Hrange 0 (NUM_SPECIES - 1) r) as Hin.
    destruct (random_range 0 (NUM_SPECIES - 1) r) as [species r1].
    simpl in Hin.
    assert (Hsp : 0 ≤ species < NUM_SPECIES) by lia.
    exists species, r1.
    destruct (Hcomplete species Hsp) as [def Hdef].
    pose proof (Hnone species Hsp) as Hunfit. unfold fit_colour in Hunfit.
    assert (Hdr : species_is_draconian (shown <$> species_jobs) species
                  = Some (has_flag def SPF_DRACONIAN)).
    { unfold species_is_draconian.
      by rewrite get_species_def_in_range, Hdef by done. }
    rewrite Hdr in *. simpl.
    destruct (has_flag def SPF_DRACONIAN); simpl; [|done].
    assert (Hrem : ∃ removed,
              species_is_removed species_jobs species = Some removed).
    { unfold species_is_removed. destruct (_ && _); [by eexists|].
      rewrite Hdr. simpl. by eexists. }
    destruct Hrem as [removed Hrem]. rewrite Hrem in *. simpl.
    destruct removed; [done|].
    rewrite bool_decide_eq_true_2; [done|].
    destruct (decide (species = SP_BASE_DRACONIAN)) as [?|Hbase]; [done|].
    by destruct Hunfit. }
  split; [exact Hturn|].
  induction fuel as [|fuel IH]; intros r; [done|].
  destruct (Hturn r) as (sp & r' & Heq). simpl. rewrite Heq. simpl.
  apply IH.
Qed.

End Colours.

(** ** Changing the species: failures and frames *)

Lemma fv_get_ext {A} (v w : list A) :
  length v = length w → (∀ i, fv_get v i = fv_get w i) → v = w.
Proof.
  intros Hlen Hget. apply list_eq. intros k.
  specialize (Hget (Z.of_nat k)). by rewrite !fv_get_of_nat in Hget.
Qed.

Section ChangeFrames.

Context `{E : Enums} `{X : Extern}.
Variable species_data : gmap Z species_def.

(** X14.  [change_species_to] fails for a species without an entry in the
    table. *)
Theorem change_species_to_needs_entry (sp : species_type) (g : game) :
  get_species_def species_data sp = None →
  change_species_to species_data sp g = None.
Proof.
  intros Hdef. unfold change_species_to, change_species_prefix.
  case_bool_decide; [done|].
  destruct (on_you (rescale_skill_points sp) g) as [ga|]; [|done]. simpl.
  unfold species_name. by rewrite Hdef.
Qed.

Lemma swap_equip_sizes a b (p p' : player) :
  _swap_equip a b p = Some p' →
  length (equip p') = length (equip p)
  ∧ length (melded p') = length (melded p)
  ∧ (∀ i, fv_get (equip p') i = fv_get (equip p) (transposed a b i))
  ∧ (∀ i, fv_get (melded p') i = fv_get (melded p) (transposed a b i))
  ∧ p' = with_melded (melded p') (with_equip (equip p') p)
  ∧ 0 ≤ a < Z.of_nat (length (equip p))
  ∧ 0 ≤ b < Z.of_nat (length (equip p))
  ∧ 0 ≤ a < Z.of_nat (length (melded p))
  ∧ 0 ≤ b < Z.of_nat (length (melded p)).
Proof.
  unfold _swap_equip. intros Hrun.
  apply bind_Some in Hrun as (ea & Hea & Hrun).
  apply bind_Some in Hrun as (eb & Heb & Hrun).
  apply bind_Some in Hrun as (eq1 & Heq1 & Hrun).
  apply bind_Some in Hrun as (eq2 & Heq2 & Hrun).
  apply bind_Some in Hrun as (ma & Hma & Hrun).
  apply bind_Some in Hrun as (mb & Hmb & Hrun).
  apply bind_Some in Hrun as (me1 & Hme1 & Hrun).
  apply bind_Some in Hrun as (me2 & Hme2 & [= <-]). simpl.
  rewrite (fv_set_length _ _ _ _ Heq2), (fv_set_length _ _ _ _ Heq1).
  rewrite (fv_set_length _ _ _ _ Hme2), (fv_set_length _ _ _ _ Hme1).
  pose proof (fv_get_in_range _ _ _ Hea). pose proof (fv_get_in_range _ _ _ Heb).
  pose proof (fv_get_in_range _ _ _ Hma). pose proof (fv_get_in_range _ _ _ Hmb).
  split_and!; try done; try lia.
  - by apply (fv_swap_get _ eq1 _ _ _ ea eb).
  - by apply (fv_swap_get _ me1 _ _ _ ma mb).
Qed.

Lemma swap_equip_is_Some a b (p : player) :
  0 ≤ a < Z.of_nat (length (equip p)) → 0 ≤ b < Z.of_nat (length (equip p)) →
  0 ≤ a < Z.of_nat (length (melded p)) →
  0 ≤ b < Z.of_nat (length (melded p)) →
  is_Some (_swap_equip a b p).
Proof.
  intros Ha Hb Ha' Hb'. unfold _swap_equip.
  destruct (fv_get_is_Some (equip p) a Ha) as [ea ->].
  destruct (fv_get_is_Some (equip p) b Hb) as [eb ->].
  destruct (fv_get_is_Some (melded p) a Ha') as [ma ->].
  destruct (fv_get_is_Some (melded p) b Hb') as [mb ->]. simpl.
  destruct (fv_set_is_Some (equip p) a eb Ha) as [eq1 Heq1]. rewrite Heq1.
  simpl. destruct (fv_set_is_Some eq1 b ea) as [eq2 ->].
  { by rewrite (fv_set_length _ _ _ _ Heq1). }
  simpl. destruct (fv_set_is_Some (melded p) a mb Ha') as [me1 Hme1].
  rewrite Hme1. simpl. destruct (fv_set_is_Some me1 b ma) as [me2 ->].
  { by rewrite (fv_set_length _ _ _ _ Hme1). }
  simpl. eauto.
Qed.

Lemma with_arrays_same (p q : player) :
  q = with_melded (melded q) (with_equip (equip q) p) →
  equip q = equip p → melded q = melded p → q = p.
Proof. intros -> He Hm. simpl in *. destruct p. simpl in *. by subst. Qed.

Lemma with_arrays_twice (p q r : player) :
  q = with_melded (melded q) (with_equip (equip q) p) →
  r = with_melded (melded r) (with_equip (equip r) q) →
  r = with_melded (melded r) (with_equip (equip r) p).
Proof. intros -> ->. done. Qed.

(** X15.  Changing the species back undoes the exchange of the ring slots: the
    step of lines 675-681 for the change from [sp] to [old_sp] takes the
    player the step from [old_sp] to [sp] produced back to where it was. *)
Theorem swap_ring_slots_round_trip (old_sp sp : species_type)
    (p p1 : player) :
  bans_eq_labels_distinct →
  swap_ring_slots old_sp sp p = Some p1 →
  swap_ring_slots sp old_sp p1 = Some p.
Proof.
  intros Hlabels. unfold swap_ring_slots. rewrite (xorb_comm (bool_decide _)).
  destruct (xorb _ _); [|done]. intros Hrun.
  apply bind_Some in Hrun as (q & Hq & Hp1).
  pose proof (swapped_slots_distinct Hlabels) as Hnd.
  rewrite !NoDup_cons, !not_elem_of_cons in Hnd. destruct_and!.
  apply swap_equip_sizes in Hq
    as (Hle1 & Hlm1 & He1 & Hm1 & Hq & HL1 & HO1 & HL1' & HO1').
  apply swap_equip_sizes in Hp1
    as (Hle2 & Hlm2 & He2 & Hm2 & Hp1 & HR2 & HT2 & HR2' & HT2').
  destruct (swap_equip_is_Some EQ_LEFT_RING EQ_RING_ONE p1) as [q' Hq'];
    [lia..|].
  rewrite Hq'. simpl.
  apply swap_equip_sizes in Hq'
    as (Hle3 & Hlm3 & He3 & Hm3 & Hq' & _).
  destruct (swap_equip_is_Some EQ_RIGHT_RING EQ_RING_TWO q') as [p2 Hp2];
    [lia..|].
  rewrite Hp2. f_equal.
  apply swap_equip_sizes in Hp2
    as (Hle4 & Hlm4 & He4 & Hm4 & Hp2 & _).
  apply with_arrays_same.
  - eauto using with_arrays_twice.
  - apply fv_get_ext; [lia|]. intros i.
    rewrite He4, He3, He2, He1. unfold transposed.
    f_equal. repeat case_decide; congruence.
  - apply fv_get_ext; [lia|]. intros i.
    rewrite Hm4, Hm3, Hm2, Hm1. unfold transposed.
    f_equal. repeat case_decide; congruence.
Qed.

Lemma kept_or_emptied_trans (g t u : game) (i : equipment_type) :
  kept_or_emptied g t i →
  (fv_get (equip (you u)) i = fv_get (equip (you t)) i
   ∧ fv_get (melded (you u)) i = fv_get (melded (you t)) i)
  ∨ (EQ_FIRST_EQUIP ≤ i < NUM_EQUIP
     ∧ fv_get (equip (you u)) i = Some (-1)
     ∧ fv_get (melded (you u)) i = Some false) →
  kept_or_emptied g u i.
Proof.
  unfold kept_or_emptied. intros [[He Hm]|Hempty] [[He' Hm']|Hempty'].
  - left. split; congruence.
  - by right.
  - right. destruct Hempty as (? & ? & ?).
    split_and!; [lia|lia|congruence|congruence].
  - by right.
Qed.

(** X16.  The loop of lines 685-695 takes items off and does nothing else to the
    equipment: every slot ends with what it held, or empty and not melded,
    and the inventory is not touched. *)
Theorem drop_unwearables_only_empties (g g' : game) :
  drop_unwearables g = Some g' →
  inv (you g') = inv (you g)
  ∧ ∀ i, kept_or_emptied g g' i.
Proof.
  unfold drop_unwearables.
  apply (for_each_invariant
           (λ t, inv (you t) = inv (you g) ∧ ∀ i, kept_or_emptied g t i)).
  - intros i t t' Hin [Hinv Hslots] Hstep. unfold drop_unwearable in Hstep.
    apply elem_of_seqZ in Hin.
    case_bool_decide; [|by simplify_eq].
    apply bind_Some in Hstep as (e & He & Hstep).
    case_bool_decide; [|by simplify_eq].
    apply bind_Some in Hstep as (it & _ & Hstep).
    apply bind_Some in Hstep as (eq' & Heq' & Hstep).
    apply bind_Some in Hstep as (me' & Hme' & [= <-]).
    simpl in *. split; [done|]. intros j.
    apply (kept_or_emptied_trans g t); [done|]. simpl.
    destruct (decide (j = i)) as [->|Hne].
    + right. rewrite (fv_get_set_eq _ _ _ _ Heq'), (fv_get_set_eq _ _ _ _ Hme').
      split_and!; [lia|lia|done..].
    + left. rewrite (fv_get_set_ne _ _ _ _ _ Heq') by done.
      by rewrite (fv_get_set_ne _ _ _ _ _ Hme') by done.
  - split; [done|]. intros i. by left.
Qed.

Lemma for_each_range_invariant {S} (body : Z → S → option S)
    (I : nat → S → Prop) (m : Z) (N : nat) (s s' : S) :
  I 0%nat s →
  (∀ k t t', (k < N)%nat → I k t → body (m + Z.of_nat k) t = Some t' →
             I (Datatypes.S k) t') →
  for_each body (seqZ m (Z.of_nat N)) s = Some s' → I N s'.
Proof.
  intros H0. revert s'. induction N as [|N IH]; intros s' Hstep Hrun.
  - simpl in Hrun. by simplify_eq.
  - rewrite seqZ_snoc, for_each_app in Hrun.
    apply bind_Some in Hrun as (t & Ht & Hrun). simpl in Hrun.
    apply bind_Some in Hrun as (t' & Hbody & [= <-]).
    apply (Hstep N t); [lia| |done].
    apply IH; [|done]. intros k u u' ?. apply Hstep. lia.
Qed.

Lemma float_to_uint_Some (f : spec_float) (z : Z) :
  float_to_uint f = Some z → z = float_trunc f ∧ 0 ≤ z ≤ UINT_MAX.
Proof.
  unfold float_to_uint. intros Hz.
  destruct f; try done; case_bool_decide; by simplify_eq.
Qed.

(** The loop of lines 620-625, skill by skill: the conversion back to
    [unsigned int] is defined for every skill it handles. *)
Lemma rescale_skill_points_run (sp : species_type) (p p' : player) :
  rescale_skill_points sp p = Some p' →
  p' = with_skill_points (skill_points p') p
  ∧ length (skill_points p') = length (skill_points p)
  ∧ ∀ sk pts,
      fv_get (skill_points p) sk = Some pts →
      if bool_decide (SK_FIRST_SKILL ≤ sk < NUM_SKILLS)
      then float_to_uint (apt_product sk sp (species p) pts)
           = Some (rescale_by_apt sk sp (species p) pts)
           ∧ fv_get (skill_points p') sk
             = Some (rescale_by_apt sk sp (species p) pts)
      else fv_get (skill_points p') sk = Some pts.
Proof.
  unfold rescale_skill_points. intros Hrun.
  destruct (decide (0 ≤ NUM_SKILLS - SK_FIRST_SKILL)) as [Hn|Hn].
  2:{ rewrite seqZ_nil in Hrun by lia. injection Hrun as <-.
      split_and!; [by destruct p|done|].
      intros sk pts Hpts. by rewrite bool_decide_eq_false_2 by lia. }
  rewrite <- (Z2Nat.id _ Hn) in Hrun.
  pose (I := λ (k : nat) (t : player),
          t = with_skill_points (skill_points t) p
          ∧ length (skill_points t) = length (skill_points p)
          ∧ ∀ sk pts,
              fv_get (skill_points p) sk = Some pts →
              if bool_decide
                   (SK_FIRST_SKILL ≤ sk < SK_FIRST_SKILL + Z.of_nat k)
              then float_to_uint (apt_product sk sp (species p) pts)
                   = Some (rescale_by_apt sk sp (species p) pts)
                   ∧ fv_get (skill_points t) sk
                     = Some (rescale_by_apt sk sp (species p) pts)
              else fv_get (skill_points t) sk = Some pts).
  assert (Hend : I (Z.to_nat (NUM_SKILLS - SK_FIRST_SKILL)) p').
  { revert Hrun. apply for_each_range_invariant.
    - unfold I. split_and!; [by destruct p|done|].
      intros sk pts Hpts. by rewrite bool_decide_eq_false_2 by lia.
    - intros k t t' Hk (Ht & Hlen & Hpt) Hstep.
      unfold rescale_skill_point in Hstep.
      apply bind_Some in Hstep as (pts0 & Hpts0 & Hstep).
      apply bind_Some in Hstep as (new & Hnew & Hstep).
      apply bind_Some in Hstep as (v & Hv & [= <-]).
      pose proof (float_to_uint_Some _ _ Hnew) as [Hval _].
      assert (Hsp : species t = species p) by (by rewrite Ht).
      destruct (fv_get_is_Some (skill_points p) (SK_FIRST_SKILL + Z.of_nat k))
        as [pts1 Hpts1].
      { rewrite <- Hlen. by apply fv_get_in_range in Hpts0. }
      pose proof (Hpt _ _ Hpts1) as Hcur.
      rewrite bool_decide_eq_false_2 in Hcur by lia.
      rewrite Hpts0 in Hcur. injection Hcur as ->.
      rewrite Hsp in Hnew, Hval.
      unfold I. simpl. split_and!.
      + rewrite Ht. done.
      + by rewrite (fv_set_length _ _ _ _ Hv).
      + intros sk pts Hpts.
        destruct (decide (sk = SK_FIRST_SKILL + Z.of_nat k)) as [->|Hne].
        * rewrite bool_decide_eq_true_2 by lia.
          rewrite (fv_get_set_eq _ _ _ _ Hv).
          assert (pts = pts1) as -> by congruence.
          unfold rescale_by_apt. rewrite <- Hval. done.
        * rewrite (fv_get_set_ne _ _ _ _ _ Hv) by done.
          pose proof (Hpt _ _ Hpts) as Hold.
          repeat case_bool_decide; done || lia. }
  destruct Hend as (Ht & Hlen & Hpt). split_and!; [done..|].
  intros sk pts Hpts. pose proof (Hpt _ _ Hpts) as Hold.
  repeat case_bool_decide; done || lia.
Qed.

(** X17.  Lines 620-625 rescale every skill from [SK_FIRST_SKILL] to the last
    one once, from the species the player still has to the new one, and
    change nothing else of the player. *)
Theorem rescale_skill_points_spec (sp : species_type) (p p' : player) :
  rescale_skill_points sp p = Some p' →
  p' = with_skill_points (skill_points p') p
  ∧ length (skill_points p') = length (skill_points p)
  ∧ ∀ sk pts,
      fv_get (skill_points p) sk = Some pts →
      fv_get (skill_points p') sk
      = Some (if bool_decide (SK_FIRST_SKILL ≤ sk < NUM_SKILLS)
              then rescale_by_apt sk sp (species p) pts else pts).
Proof.
  intros Hrun.
  destruct (rescale_skill_points_run sp p p' Hrun) as (Hp & Hlen & Hpt).
  split_and!; [done..|]. intros sk pts Hpts.
  pose proof (Hpt sk pts Hpts) as Hsk.
  case_bool_decide; [by destruct Hsk|done].
Qed.

(** X18.  The loop over the levels 2 to the player's level comes to its end when
    [perma_mutate] succeeds and keeps the experience level: the fuel the
    model gives it is enough. *)
Theorem give_level_mutations_from_enough_fuel (sp : species_type)
    (def : species_def) (g : game) :
  get_species_def species_data sp = Some def →
  (∀ mut lvl reason h,
     ∃ h', perma_mutate mut lvl reason h = Some h'
           ∧ experience_level (you h') = experience_level (you h)) →
  ∃ g', give_level_mutations_from species_data
          (Z.to_nat (experience_level (you g))) sp 2 g = Some g'
        ∧ experience_level (you g') = experience_level (you g).
Proof.
  intros Hdef Hperma.
  assert (Hlevel : ∀ xl h, ∃ h',
            give_level_mutations species_data sp xl h = Some h'
            ∧ experience_level (you h') = experience_level (you h)).
  { intros xl h. unfold give_level_mutations. rewrite Hdef. simpl.
    assert (Hone : ∀ lum h0, ∃ h',
              give_level_mutation species_data sp xl lum h0 = Some h'
              ∧ experience_level (you h') = experience_level (you h0)).
    { intros lum h0. unfold give_level_mutation.
      case_bool_decide; [|by exists h0].
      rewrite (species_name_plain species_data sp def Hdef). simpl.
      apply Hperma. }
    revert h. induction (level_up_mutations def) as [|lum lums IH]; intros h.
    - by exists h.
    - cbn [for_each]. destruct (Hone lum h) as (h1 & -> & Hxl1). simpl.
      destruct (IH h1) as (h2 & Hh2 & Hxl2).
      exists h2. split; [done|congruence]. }
  assert (Hloop : ∀ fuel i0 h,
            (i0 ≤ experience_level (you h) →
             experience_level (you h) - i0 < Z.of_nat fuel) →
            ∃ h', give_level_mutations_from species_data fuel sp i0 h = Some h'
                  ∧ experience_level (you h') = experience_level (you h)).
  { induction fuel as [|fuel IH]; intros i0 h Hfuel; simpl.
    - case_bool_decide; [lia|]. by exists h.
    - case_bool_decide; [|by exists h].
      destruct (Hlevel i0 h) as (h1 & -> & Hxl1). simpl.
      destruct (IH (i0 + 1) h1) as (h2 & Hh2 & Hxl2); [rewrite Hxl1; lia|].
      exists h2. split; [done|congruence]. }
  apply Hloop. lia.
Qed.

(** *** The level-1 mutations: bounds and levels *)

Lemma give_basic_mutations_is_Some (lums : list level_up_mutation) :
  ∀ p : player,
  length (innate_mutation p) = length (mutation p) →
  is_Some (for_each give_basic_mutation lums p)
  ↔ ∀ lum, lum ∈ lums → lum_xp_level lum = 1 →
      0 ≤ lum_mut lum < Z.of_nat (length (mutation p)).
Proof.
  induction lums as [|lum lums IH]; intros p Hlen.
  - simpl. split; [|eauto]. intros _ lum Hin. by apply elem_of_nil in Hin.
  - cbn [for_each].
    destruct (decide (lum_xp_level lum = 1)) as [Hxp|Hxp].
    + destruct (decide (0 ≤ lum_mut lum < Z.of_nat (length (mutation p))))
        as [Hin|Hout].
      * destruct (fv_set_is_Some (innate_mutation p) (lum_mut lum)
                    (u8 (lum_mut_level lum))) as [inn Hinn]; [lia|].
        destruct (fv_set_is_Some (mutation p) (lum_mut lum)
                    (u8 (lum_mut_level lum))) as [mu Hmu]; [lia|].
        assert (Hstep : give_basic_mutation lum p
                  = Some (with_mutation mu (with_innate_mutation inn p))).
        { unfold give_basic_mutation.
          rewrite (bool_decide_eq_true_2 _ Hxp), Hinn. simpl.
          by rewrite Hmu. }
        rewrite Hstep. simpl. rewrite IH.
        2:{ simpl. rewrite (fv_set_length _ _ _ _ Hinn).
            by rewrite (fv_set_length _ _ _ _ Hmu). }
        simpl. rewrite (fv_set_length _ _ _ _ Hmu). split.
        -- intros Hall lum' Hin'. apply elem_of_cons in Hin' as [->|Hin'];
             [done|by apply Hall].
        -- intros Hall lum' Hin'. apply Hall. by right.
      * assert (Hstep : give_basic_mutation lum p = None).
        { unfold give_basic_mutation, fv_set.
          rewrite (bool_decide_eq_true_2 _ Hxp).
          by rewrite (bool_decide_eq_false_2
                        (0 ≤ lum_mut lum
                         < Z.of_nat (length (innate_mutation p))))
            by (rewrite Hlen; lia). }
        rewrite Hstep. simpl. split; [by intros [? ?]|].
        intros Hall. destruct Hout. apply Hall; [by left|done].
    + assert (Hstep : give_basic_mutation lum p = Some p).
      { unfold give_basic_mutation.
        by rewrite (bool_decide_eq_false_2 _ Hxp). }
      rewrite Hstep. simpl. rewrite IH by done.
      split.
      * intros Hall lum' Hin'. apply elem_of_cons in Hin' as [->|Hin'];
          [done|by apply Hall].
      * intros Hall lum' Hin'. apply Hall. by right.
Qed.

(** X19.  [give_basic_mutations] trips an assertion exactly when the species has
    no entry or its schedule names, at experience level 1, a mutation
    outside [0, NUM_MUTATIONS). *)
Theorem give_basic_mutations_in_bounds (sp : species_type) (p : player) :
  player_ok p →
  is_Some (give_basic_mutations species_data sp p)
  ↔ ∃ def, get_species_def species_data sp = Some def
      ∧ ∀ lum, lum ∈ level_up_mutations def → lum_xp_level lum = 1 →
          0 ≤ lum_mut lum < NUM_MUTATIONS.
Proof.
  intros Hok. unfold give_basic_mutations.
  pose proof (ok_mutation p Hok) as Hm.
  pose proof (ok_innate_mutation p Hok) as Hn.
  destruct (get_species_def species_data sp) as [def|]; simpl.
  - rewrite give_basic_mutations_is_Some by lia. rewrite Hm. split.
    + intros Hall. by exists def.
    + by intros (? & [= <-] & Hall).
  - split; [by intros [? ?]|by intros (? & ? & _)].
Qed.

Lemma player_ok_arrays (p q : player) :
  mutation q = mutation p → innate_mutation q = innate_mutation p →
  player_ok p → player_ok q.
Proof. intros Hm Hn [H0 H1 H2 H3]. split; rewrite ?Hm, ?Hn; done. Qed.

Lemma give_basic_mutations_keeps_ok (lums : list level_up_mutation)
    (p p' : player) :
  player_ok p → for_each give_basic_mutation lums p = Some p' → player_ok p'.
Proof.
  intros Hok Hrun.
  apply give_basic_mutations_spec in Hrun as (Hlm & Hli & _ & Hpt).
  pose proof (ok_mutation p Hok). pose proof (ok_innate_mutation p Hok).
  split; [by apply (ok_num_mutations p)|lia|lia|].
  intros i m n Hm Hn.
  apply fv_get_Some in Hm as [Hi Hm]. apply fv_get_Some in Hn as [_ Hn].
  destruct (Hpt (Z.to_nat i)) as [Hm' Hn'].
  { apply lookup_lt_Some in Hm. lia. }
  { apply lookup_lt_Some in Hn. lia. }
  rewrite Hm in Hm'. rewrite Hn in Hn'.
  destruct (basic_level lums (Z.of_nat (Z.to_nat i))) as [l|] eqn:Hbasic;
    simpl in Hm', Hn'.
  - apply basic_level_range in Hbasic. simplify_eq. lia.
  - apply (ok_levels p Hok i); apply fv_get_Some; done.
Qed.

(** X20.  [give_basic_mutations] gives each mutation of the schedule's level 1
    its scheduled level as total and as innate level, leaves the other
    mutations alone and keeps every level a [uint8_t] that covers the
    innate level. *)
Theorem give_basic_mutations_levels (sp : species_type) (def : species_def)
    (p p' : player) :
  player_ok p →
  get_species_def species_data sp = Some def →
  give_basic_mutations species_data sp p = Some p' →
  player_ok p'
  ∧ ∀ i, 0 ≤ i < NUM_MUTATIONS →
      fv_get (mutation p') i
      = granted (basic_level (level_up_mutations def) i)
          (fv_get (mutation p) i)
      ∧ fv_get (innate_mutation p') i
        = granted (basic_level (level_up_mutations def) i)
            (fv_get (innate_mutation p) i).
Proof.
  intros Hok Hdef Hrun. unfold give_basic_mutations in Hrun.
  rewrite Hdef in Hrun. simpl in Hrun.
  split; [by eapply give_basic_mutations_keeps_ok|].
  apply give_basic_mutations_spec in Hrun as (_ & _ & _ & Hpt).
  pose proof (ok_mutation p Hok). pose proof (ok_innate_mutation p Hok).
  intros i Hi. destruct (Hpt (Z.to_nat i)) as [Hm Hn]; [lia..|].
  rewrite Z2Nat.id in Hm, Hn by lia.
  unfold fv_get. by rewrite bool_decide_eq_true_2 by lia.
Qed.

(** *** The mutation levels stay well formed *)

Lemma remove_innate_mutations_keeps_ok (p0 p1 : player) (prev : list Z) :
  player_ok p0 →
  remove_innate_mutations p0 = Some (p1, prev) →
  player_ok p1
  ∧ length prev = Z.to_nat NUM_MUTATIONS
  ∧ ∀ (i : nat) pv, prev !! i = Some pv → 0 ≤ pv.
Proof.
  intros Hok Hrun.
  apply remove_innate_mutations_spec in Hrun
    as (Hlm & Hli & Hlp & _ & Hpt); [|done].
  simpl in *.
  pose proof (ok_mutation p0 Hok). pose proof (ok_innate_mutation p0 Hok).
  assert (Horig : ∀ i : nat, (i < Z.to_nat NUM_MUTATIONS)%nat →
            ∃ m n, mutation p0 !! i = Some m ∧ innate_mutation p0 !! i = Some n
                   ∧ 0 ≤ n ≤ m ∧ m < 256).
  { intros i Hi.
    destruct (lookup_lt_is_Some_2 (mutation p0) i) as [m Hm]; [lia|].
    destruct (lookup_lt_is_Some_2 (innate_mutation p0) i) as [n Hn]; [lia|].
    destruct (player_ok_levels p0 i m n Hok Hm Hn).
    exists m, n. split_and!; done || lia. }
  split_and!; [|done|].
  - split; [by apply (ok_num_mutations p0)|lia|lia|].
    intros i m' n' Hm' Hn'.
    apply fv_get_Some in Hm' as [Hi Hm']. apply fv_get_Some in Hn' as [_ Hn'].
    destruct (Horig (Z.to_nat i)) as (m & n & Hm & Hn & ? & ?).
    { apply lookup_lt_Some in Hm'. lia. }
    pose proof (Hpt _ _ _ Hm Hn) as Hcur.
    rewrite decide_True in Hcur by (apply lookup_lt_Some in Hm'; lia).
    destruct Hcur as (Hm1 & Hn1 & _). simplify_eq. lia.
  - intros i pv Hpv.
    destruct (Horig i) as (m & n & Hm & Hn & ? & ?).
    { apply lookup_lt_Some in Hpv. lia. }
    pose proof (Hpt _ _ _ Hm Hn) as Hcur.
    rewrite decide_True in Hcur by (apply lookup_lt_Some in Hpv; lia).
    destruct Hcur as (_ & _ & Hprev). simplify_eq. lia.
Qed.

Lemma give_level_mutations_from_keeps_ok (sp : species_type) (fuel : nat) :
  ∀ (i0 : Z) (g g' : game),
  (∀ mut lvl reason, keeps_player_ok (perma_mutate mut lvl reason)) →
  give_level_mutations_from species_data fuel sp i0 g = Some g' →
  player_ok (you g) → player_ok (you g').
Proof.
  induction fuel as [|fuel IH]; intros i0 g g' Hperma Hrun Hok;
    simpl in Hrun.
  - case_bool_decide; [done|]. by simplify_eq.
  - case_bool_decide; [|by simplify_eq].
    apply bind_Some in Hrun as (g1 & Hstep & Hrun).
    apply (IH (i0 + 1) g1 g' Hperma Hrun).
    unfold give_level_mutations in Hstep.
    apply bind_Some in Hstep as (def & _ & Hstep).
    revert Hstep. apply (for_each_invariant (λ t, player_ok (you t))); [|done].
    intros lum t t' _ Ht Hone. unfold give_level_mutation in Hone.
    case_bool_decide; [|by simplify_eq].
    apply bind_Some in Hone as (n & _ & Hone).
    by eapply Hperma.
Qed.

Lemma settle_innate_mutations_keeps_ok (prev : list Z) (p p' : player) :
  player_ok p →
  length prev = Z.to_nat NUM_MUTATIONS →
  (∀ (i : nat) pv, prev !! i = Some pv → 0 ≤ pv) →
  settle_innate_mutations prev p = Some p' →
  player_ok p'.
Proof.
  intros Hok Hlp Hprev Hrun.
  apply settle_innate_mutations_spec in Hrun
    as (Hm & Hl & _ & Hpt); [|by apply (ok_num_mutations p)].
  pose proof (ok_mutation p Hok). pose proof (ok_innate_mutation p Hok).
  split; [by apply (ok_num_mutations p)|rewrite Hm; lia|lia|].
  intros i m' n' Hm' Hn'.
  apply fv_get_Some in Hm' as [Hi Hm']. apply fv_get_Some in Hn' as [_ Hn'].
  rewrite Hm in Hm'.
  assert (Hk : (Z.to_nat i < Z.to_nat NUM_MUTATIONS)%nat)
    by (apply lookup_lt_Some in Hm'; lia).
  destruct (lookup_lt_is_Some_2 prev (Z.to_nat i)) as [pv Hpv]; [lia|].
  destruct (lookup_lt_is_Some_2 (innate_mutation p) (Z.to_nat i))
    as [n Hn]; [lia|].
  rewrite (Hpt _ _ _ Hpv Hn), decide_True in Hn' by done.
  destruct (player_ok_levels p _ m' n Hok Hm' Hn).
  pose proof (Hprev _ _ Hpv). injection Hn' as <-.
  case_bool_decide; [lia|]. rewrite u8_small by lia. lia.
Qed.

(** X21.  [change_species_to] keeps the mutation levels well formed: for a
    species other than the demonspawn one, every level it leaves is a
    [uint8_t] that covers the innate level, provided the procedures it
    calls keep them so. *)
Theorem change_species_to_keeps_levels_ok (sp : species_type)
    (g g' : game) :
  player_ok (you g) →
  sp ≠ SP_DEMONSPAWN →
  (∀ mut lvl reason, keeps_player_ok (perma_mutate mut lvl reason)) →
  bystanders_keep_mutations →
  change_species_to species_data sp g = Some g' →
  player_ok (you g').
Proof.
  intros Hok Hds Hperma Hkeep Hrun.
  destruct (change_species_to_mutations species_data sp g g' Hkeep Hds Hrun)
    as (g0 & g1 & Hsame & Hmigrate & Hmu & Hinn).
  pose proof (player_ok_same _ _ Hsame Hok) as Hok0.
  apply (player_ok_arrays (you g1)); [done..|].
  unfold migrate_mutations in Hmigrate.
  apply bind_Some in Hmigrate as ([p1 prev] & Hremove & Hmigrate).
  apply bind_Some in Hmigrate as (p2 & Hbasic & Hmigrate).
  apply bind_Some in Hmigrate as (g3 & Hlevels & Hmigrate).
  apply bind_Some in Hmigrate as (p3 & Hsettle & [= <-]). simpl.
  apply remove_innate_mutations_keeps_ok in Hremove
    as (Hok1 & Hlp & Hprev); [|done].
  unfold give_basic_mutations in Hbasic.
  apply bind_Some in Hbasic as (def & _ & Hbasic).
  apply give_basic_mutations_keeps_ok in Hbasic; [|done].
  apply give_level_mutations_from_keeps_ok in Hlevels; [|done..].
  by apply (settle_innate_mutations_keeps_ok prev (you g3)).
Qed.

(** *** The demonic traits *)

Lemma traits_gained_snoc (traits : list demon_trait) (t : demon_trait)
    (xl : Z) (mut : mutation_type) :
  traits_gained (traits ++ [t]) xl mut
  = traits_gained traits xl mut
    ++ (if decide (dt_mutation t = mut ∧ level_gained t ≤ xl) then [t]
        else []).
Proof.
  unfold traits_gained. rewrite filter_app, filter_cons, filter_nil.
  by case_decide.
Qed.

Lemma traits_gained_length (traits : list demon_trait) (xl : Z)
    (mut : mutation_type) :
  (length (traits_gained traits xl mut) ≤ length traits)%nat.
Proof. apply length_filter. Qed.

Lemma gain_demonic_traits_spec (p0 p' : player) :
  player_ok p0 →
  (∀ i m, fv_get (mutation p0) i = Some m →
          m + Z.of_nat (length (demonic_traits p0)) < 256) →
  for_each gain_demonic_trait
    (seqZ 0 (Z.of_nat (length (demonic_traits p0)))) p0 = Some p' →
  ∀ i m n,
    fv_get (mutation p0) i = Some m →
    fv_get (innate_mutation p0) i = Some n →
    let gained :=
      Z.of_nat (length (traits_gained (demonic_traits p0)
                          (experience_level p0) i)) in
    fv_get (mutation p') i = Some (m + gained)
    ∧ fv_get (innate_mutation p') i = Some (n + gained).
Proof.
  intros Hok Hroom Hrun.
  pose (traits := demonic_traits p0). pose (xl := experience_level p0).
  pose (I := λ (k : nat) (p : player),
          demonic_traits p = traits ∧ experience_level p = xl
          ∧ ∀ i m n,
              fv_get (mutation p0) i = Some m →
              fv_get (innate_mutation p0) i = Some n →
              let gained :=
                Z.of_nat (length (traits_gained (take k traits) xl i)) in
              fv_get (mutation p) i = Some (m + gained)
              ∧ fv_get (innate_mutation p) i = Some (n + gained)).
  assert (Hend : I (length traits) p').
  { revert Hrun. apply for_each_index_invariant.
    - unfold I. split_and!; [done..|]. intros i m n Hm Hn. simpl.
      rewrite !Z.add_0_r. done.
    - intros k p q Hk (Htraits & Hxl & Hpt) Hstep.
      unfold gain_demonic_trait in Hstep. rewrite fv_get_of_nat in Hstep.
      apply bind_Some in Hstep as (t & Ht & Hstep).
      rewrite Htraits in Ht. rewrite Hxl in Hstep.
      assert (Htake : take (S k) traits = take k traits ++ [t])
        by (by apply take_S_r).
      case_bool_decide as Hlate.
      + injection Hstep as <-. unfold I. split_and!; [done..|].
        intros i m n Hm Hn. rewrite Htake, traits_gained_snoc.
        rewrite decide_False by lia. rewrite app_nil_r. by apply Hpt.
      + apply bind_Some in Hstep as (lvl & Hlvl & Hstep).
        apply bind_Some in Hstep as (mu & Hmu & Hstep).
        apply bind_Some in Hstep as (inn & Hinn0 & Hstep).
        apply bind_Some in Hstep as (inn' & Hinn & [= <-]).
        unfold I. simpl. split_and!; [done..|].
        intros i m n Hm Hn. rewrite Htake, traits_gained_snoc.
        destruct (Hpt i m n Hm Hn) as [Hpm Hpn].
        destruct (decide (dt_mutation t = i)) as [Hi|Hi].
        * rewrite decide_True by (split; [done|lia]).
          rewrite length_app. simpl. subst i.
          rewrite Hpm in Hlvl. rewrite Hpn in Hinn0.
          injection Hlvl as <-. injection Hinn0 as <-.
          rewrite (fv_get_set_eq _ _ _ _ Hmu), (fv_get_set_eq _ _ _ _ Hinn).
          pose proof (traits_gained_length (take k traits) xl (dt_mutation t)).
          rewrite length_take in H.
          destruct (ok_levels p0 Hok _ m n Hm Hn).
          pose proof (Hroom _ _ Hm). fold traits in H2.
          rewrite !u8_small by lia. split; f_equal; lia.
        * rewrite decide_False by (by intros [? _]). rewrite app_nil_r.
          rewrite (fv_get_set_ne _ _ _ _ _ Hmu) by done.
          by rewrite (fv_get_set_ne _ _ _ _ _ Hinn) by done. }
  destruct Hend as (_ & _ & Hpt). intros i m n Hm Hn.
  specialize (Hpt i m n Hm Hn). by rewrite firstn_all in Hpt.
Qed.

(** X22.  For the demonspawn species lines 658-671 raise the total and the
    innate level of a mutation together, once for every demonic trait for
    it that the player has reached: the acquired level stays.  The levels are
    those after [roll_demonspawn_mutations], with room left below 256. *)
Theorem demonspawn_traits_spec (g g1 g' : game) (i m n : Z) :
  roll_demonspawn_mutations g = Some g1 →
  demonspawn_traits SP_DEMONSPAWN g = Some g' →
  player_ok (you g1) →
  (∀ j mj, fv_get (mutation (you g1)) j = Some mj →
           mj + Z.of_nat (length (demonic_traits (you g1))) < 256) →
  fv_get (mutation (you g1)) i = Some m →
  fv_get (innate_mutation (you g1)) i = Some n →
  let gained :=
    Z.of_nat (length (traits_gained (demonic_traits (you g1))
                        (experience_level (you g1)) i)) in
  fv_get (mutation (you g')) i = Some (m + gained)
  ∧ fv_get (innate_mutation (you g')) i = Some (n + gained)
  ∧ acquired_level (you g') i = Some (m - n).
Proof.
  intros Hroll Hrun Hok Hroom Hm Hn gained.
  unfold demonspawn_traits in Hrun.
  rewrite bool_decide_eq_true_2, Hroll in Hrun by done. simpl in Hrun.
  apply bind_Some in Hrun as (p' & Hloop & [= <-]). simpl.
  destruct (gain_demonic_traits_spec (you g1) p' Hok Hroom Hloop i m n Hm Hn)
    as [Hmu Hinn].
  fold gained in Hmu, Hinn. unfold acquired_level. rewrite Hmu, Hinn. simpl.
  split_and!; [done..|]. f_equal. lia.
Qed.

End ChangeFrames.

(** ** Changing the species: the call as a whole *)

Section Whole.

Context `{E : Enums} `{X : Extern}.
Variable species_data : gmap Z species_def.

(** The phases of a call of [change_species_to] that returns. *)
Lemma change_species_to_phases (sp : species_type) (g g' : game) :
  change_species_to species_data sp g = Some g' →
  ∃ pa n gc gd ge ps gf g2 g3 g4 g5 g6,
    sp ≠ SP_UNKNOWN
    ∧ rescale_skill_points sp (you g) = Some pa
    ∧ species_name species_data sp SPNAME_PLAIN = Some n
    ∧ migrate_mutations species_data sp
        (with_you (with_species sp n pa) (with_you pa g)) = Some gc
    ∧ demonspawn_traits sp gc = Some gd
    ∧ update_vision_range gd = Some ge
    ∧ swap_ring_slots (species pa) sp (you ge) = Some ps
    ∧ drop_unwearables (with_you ps ge) = Some gf
    ∧ fixup_skills gf = Some g2 ∧ calc_hp g2 = Some g3
    ∧ calc_mp g3 = Some g4 ∧ update_player_symbol g4 = Some g5
    ∧ redraw_screen g5 = Some g6 ∧ update_screen g6 = Some g'.
Proof.
  intros Hrun. unfold change_species_to in Hrun.
  apply bind_Some in Hrun as ([old_sp ge] & Hprefix & Hrun).
  apply bind_Some in Hrun as (gs & Hswap & Hsuffix).
  unfold change_species_prefix in Hprefix.
  case_bool_decide as Hunknown; [done|].
  apply bind_Some in Hprefix as (ga & Hrescale & Hprefix).
  apply bind_Some in Hprefix as (n & Hname & Hprefix).
  apply bind_Some in Hprefix as (gc & Hmigrate & Hprefix).
  apply bind_Some in Hprefix as (gd & Hdemon & Hprefix).
  apply bind_Some in Hprefix as (ge' & Hvision & [= <- <-]).
  apply bind_Some in Hrescale as (pa & Hrescale & [= <-]).
  apply bind_Some in Hswap as (ps & Hswap & [= <-]).
  unfold change_species_suffix in Hsuffix.
  apply bind_Some in Hsuffix as (gf & Hdrop & Hsuffix).
  apply bind_Some in Hsuffix as (g2 & H2 & Hsuffix).
  apply bind_Some in Hsuffix as (g3 & H3 & Hsuffix).
  apply bind_Some in Hsuffix as (g4 & H4 & Hsuffix).
  apply bind_Some in Hsuffix as (g5 & H5 & Hsuffix).
  apply bind_Some in Hsuffix as (g6 & H6 & H7).
  exists pa, n, gc, gd, ge', ps, gf, g2, g3, g4, g5, g6.
  split_and!; done.
Qed.

(** *** Parts of [you] that the loops over the mutations do not touch *)

Section Part.

Variable A : Type.
Variable part : player → A.
Hypothesis part_mutation : ∀ v p, part (with_mutation v p) = part p.
Hypothesis part_innate_mutation :
  ∀ v p, part (with_innate_mutation v p) = part p.
Hypothesis outside : outside_keeps part.

Lemma remove_innate_mutations_part (p p' : player) (prev : list Z) :
  remove_innate_mutations p = Some (p', prev) → part p' = part p.
Proof.
  unfold remove_innate_mutations. intros Hrun.
  change p' with (p', prev).1. revert Hrun.
  apply (for_each_invariant (λ s, part s.1 = part p)); [|done].
  intros i [t tp] [t' tp'] _ Ht Hstep. simpl in *.
  apply bind_Some in Hstep as (inn & _ & Hstep).
  apply bind_Some in Hstep as (p1 & Hp1 & Hstep).
  apply bind_Some in Hstep as (m & _ & Hstep).
  apply bind_Some in Hstep as (pm & _ & [= <- _]).
  destruct inn; [|by simplify_eq].
  apply bind_Some in Hp1 as (m1 & _ & Hp1).
  apply bind_Some in Hp1 as (n1 & _ & Hp1).
  apply bind_Some in Hp1 as (mu & _ & Hp1).
  apply bind_Some in Hp1 as (inn' & _ & [= <-]).
  by rewrite part_innate_mutation, part_mutation.
Qed.

Lemma give_basic_mutations_part (sp : species_type) (p p' : player) :
  give_basic_mutations species_data sp p = Some p' → part p' = part p.
Proof.
  unfold give_basic_mutations. intros Hrun.
  apply bind_Some in Hrun as (def & _ & Hrun). revert Hrun.
  apply (for_each_invariant (λ t, part t = part p)); [|done].
  intros lum t t' _ Ht Hstep. unfold give_basic_mutation in Hstep.
  case_bool_decide; [|by simplify_eq].
  apply bind_Some in Hstep as (inn & _ & Hstep).
  apply bind_Some in Hstep as (mu & _ & [= <-]).
  by rewrite part_mutation, part_innate_mutation.
Qed.

Lemma give_level_mutations_part (sp : species_type) (xl : Z) (g g' : game) :
  give_level_mutations species_data sp xl g = Some g' →
  part (you g') = part (you g).
Proof.
  unfold give_level_mutations. intros Hrun.
  apply bind_Some in Hrun as (def & _ & Hrun). revert Hrun.
  apply (for_each_invariant (λ t, part (you t) = part (you g))); [|done].
  intros lum t t' _ Ht Hstep. unfold give_level_mutation in Hstep.
  case_bool_decide; [|by simplify_eq].
  apply bind_Some in Hstep as (n & _ & Hstep).
  destruct outside as (Hperma & _). apply Hperma in Hstep. congruence.
Qed.

Lemma give_level_mutations_from_part (sp : species_type) (fuel : nat) :
  ∀ (i : Z) (g g' : game),
    give_level_mutations_from species_data fuel sp i g = Some g' →
    part (you g') = part (you g).
Proof.
  induction fuel as [|fuel IH]; intros i g g' Hrun; simpl in Hrun.
  - case_bool_decide; [done|]. by simplify_eq.
  - case_bool_decide; [|by simplify_eq].
    apply bind_Some in Hrun as (g1 & Hstep & Hrun).
    apply give_level_mutations_part in Hstep. apply IH in Hrun. congruence.
Qed.

Lemma settle_innate_mutations_part (prev : list Z) (p p' : player) :
  settle_innate_mutations prev p = Some p' → part p' = part p.
Proof.
  unfold settle_innate_mutations.
  apply (for_each_invariant (λ t, part t = part p)); [|done].
  intros i t t' _ Ht Hstep. unfold settle_innate_mutation in Hstep.
  apply bind_Some in Hstep as (pv & _ & Hstep).
  apply bind_Some in Hstep as (n & _ & Hstep).
  apply bind_Some in Hstep as (inn & _ & [= <-]).
  by rewrite part_innate_mutation.
Qed.

Lemma migrate_mutations_part (sp : species_type) (g g' : game) :
  migrate_mutations species_data sp g = Some g' →
  part (you g') = part (you g).
Proof.
  unfold migrate_mutations. intros Hrun.
  apply bind_Some in Hrun as ([p1 prev] & Hremove & Hrun).
  apply bind_Some in Hrun as (p2 & Hbasic & Hrun).
  apply bind_Some in Hrun as (g3 & Hlevels & Hrun).
  apply bind_Some in Hrun as (p3 & Hsettle & [= <-]).
  apply remove_innate_mutations_part in Hremove.
  apply give_basic_mutations_part in Hbasic.
  apply give_level_mutations_from_part in Hlevels.
  apply settle_innate_mutations_part in Hsettle.
  simpl in *. congruence.
Qed.

Lemma demonspawn_traits_part (sp : species_type) (g g' : game) :
  demonspawn_traits sp g = Some g' → part (you g') = part (you g).
Proof.
  unfold demonspawn_traits. case_bool_decide; [|by intros [= <-]].
  intros Hrun. apply bind_Some in Hrun as (g1 & Hroll & Hrun).
  apply bind_Some in Hrun as (p & Hloop & [= <-]).
  destruct outside as (_ & Hkeep & _). apply Hkeep in Hroll.
  simpl. rewrite <- Hroll. revert Hloop.
  apply (for_each_invariant (λ t, part t = part (you g1))); [|done].
  intros i t t' _ Ht Hstep. unfold gain_demonic_trait in Hstep.
  apply bind_Some in Hstep as (tr & _ & Hstep).
  case_bool_decide; [by simplify_eq|].
  apply bind_Some in Hstep as (lvl & _ & Hstep).
  apply bind_Some in Hstep as (mu & _ & Hstep).
  apply bind_Some in Hstep as (n & _ & Hstep).
  apply bind_Some in Hstep as (inn & _ & [= <-]).
  by rewrite part_innate_mutation, part_mutation.
Qed.

(** Lines 631-673 and 697-709 leave the part alone. *)
Lemma change_species_to_part (sp : species_type) (g g' : game) :
  change_species_to species_data sp g = Some g' →
  ∃ pa n ge ps gf,
    rescale_skill_points sp (you g) = Some pa
    ∧ part (you ge) = part (with_species sp n pa)
    ∧ swap_ring_slots (species pa) sp (you ge) = Some ps
    ∧ drop_unwearables (with_you ps ge) = Some gf
    ∧ part (you g') = part (you gf).
Proof.
  intros Hrun.
  destruct (change_species_to_phases sp g g' Hrun)
    as (pa & n & gc & gd & ge & ps & gf & g2 & g3 & g4 & g5 & g6 & _
        & Hrescale & _ & Hmigrate & Hdemon & Hvision & Hswap & Hdrop
        & H2 & H3 & H4 & H5 & H6 & H7).
  exists pa, n, ge, ps, gf. split_and!; [done| |done|done|].
  - apply migrate_mutations_part in Hmigrate.
    apply demonspawn_traits_part in Hdemon.
    destruct outside as (_ & _ & Hkeep & _). apply Hkeep in Hvision.
    simpl in Hmigrate. congruence.
  - destruct outside as (_ & _ & _ & Hk2 & Hk3 & Hk4 & Hk5 & Hk6 & Hk7).
    apply Hk2 in H2. apply Hk3 in H3. apply Hk4 in H4. apply Hk5 in H5.
    apply Hk6 in H6. apply Hk7 in H7. congruence.
Qed.

End Part.

(** *** The skill points *)

Lemma swap_equip_skill_points a b (p p' : player) :
  _swap_equip a b p = Some p' → skill_points p' = skill_points p.
Proof.
  unfold _swap_equip. intros Hrun.
  repeat (apply bind_Some in Hrun as (? & _ & Hrun)).
  by injection Hrun as <-.
Qed.

Lemma swap_ring_slots_skill_points old_sp sp (p p' : player) :
  swap_ring_slots old_sp sp p = Some p' → skill_points p' = skill_points p.
Proof.
  unfold swap_ring_slots. destruct (xorb _ _); [|by intros [= <-]].
  intros Hrun. apply bind_Some in Hrun as (q & Hq & Hrun).
  apply swap_equip_skill_points in Hq.
  apply swap_equip_skill_points in Hrun. congruence.
Qed.

Lemma drop_unwearables_skill_points (g g' : game) :
  drop_unwearables g = Some g' →
  skill_points (you g') = skill_points (you g).
Proof.
  unfold drop_unwearables.
  apply (for_each_invariant
           (λ t, skill_points (you t) = skill_points (you g))); [|done].
  intros i t t' _ Hsame Hstep. unfold drop_unwearable in Hstep.
  case_bool_decide; [|by simplify_eq].
  apply bind_Some in Hstep as (e & _ & Hstep).
  case_bool_decide; [|by simplify_eq].
  repeat (apply bind_Some in Hstep as (? & _ & Hstep)).
  by injection Hstep as <-.
Qed.

(** C2, as the code has it.  Line 623 works in [float]: the points of a
    skill are converted to [float], multiplied by the quotient of the two
    aptitude factors, itself rounded to a [float], and the product is cut
    to an [unsigned int].  That is what [change_species_to] leaves in every
    skill from [SK_FIRST_SKILL] on, when the procedures it calls outside
    [species.cc] leave the skill points alone; the conversion is defined
    for every skill of a call that returns. *)
Theorem change_species_rescales_skill_points (sp : species_type)
    (g g' : game) (sk : skill_type) (pts : Z) :
  outside_keeps skill_points →
  change_species_to species_data sp g = Some g' →
  fv_get (skill_points (you g)) sk = Some pts →
  let product :=
    float_mul (float_of_uint pts)
      (float_div (species_apt_factor sk sp)
         (species_apt_factor sk (species (you g)))) in
  if bool_decide (SK_FIRST_SKILL ≤ sk < NUM_SKILLS)
  then float_to_uint product = Some (float_trunc product)
       ∧ fv_get (skill_points (you g')) sk = Some (float_trunc product)
  else fv_get (skill_points (you g')) sk = Some pts.
Proof.
  intros Houtside Hrun Hpts product.
  destruct (change_species_to_part _ skill_points
              ltac:(done) ltac:(done) Houtside sp g g' Hrun)
    as (pa & n & ge & ps & gf & Hrescale & Hmid & Hswap & Hdrop & Hend).
  apply swap_ring_slots_skill_points in Hswap.
  apply drop_unwearables_skill_points in Hdrop. simpl in Hmid, Hdrop.
  assert (Hsame : skill_points (you g') = skill_points pa) by congruence.
  rewrite Hsame.
  destruct (rescale_skill_points_run sp (you g) pa Hrescale)
    as (_ & _ & Hsk).
  exact (Hsk sk pts Hpts).
Qed.

(** *** The ring slots *)




End Whole.

(** ** A full name as a part of a name *)

Lemma string_prefix_refl (s : string) : String.prefix s s = true.
Proof.
  induction s as [|c s IH]; [done|]. simpl.
  by destruct (Ascii.ascii_dec c c).
Qed.

Lemma string_find_self (s : string) : string_find s s = Some 0%nat.
Proof.
  unfold string_find. destruct s as [|c s]; [done|].
  cbn [String.index]. by rewrite string_prefix_refl.
Qed.

Section ExactName.

Context `{E : Enums}.
Variable species_data : gmap Z species_def.
Variable lowercase_string : string → string.

(** X5.  The plain name of a species is always found by
    [find_species_from_string]: the answer is a species not after it whose
    lower-case name starts with the lower-case argument. *)
Theorem find_species_from_string_full_name (sp : species_type)
    (n : string) (initial_only : bool) :
  table_complete species_data →
  0 ≤ sp < NUM_SPECIES →
  species_name species_data sp SPNAME_PLAIN = Some n →
  ∃ first,
    find_species_from_string species_data lowercase_string n initial_only
    = Some first
    ∧ 0 ≤ first ≤ sp
    ∧ starts_name species_data lowercase_string (lowercase_string n) first.
Proof.
  intros Hcomplete Hsp Hname. unfold find_species_from_string.
  rewrite find_species_from_string_loop_spec
    by (by apply table_complete_names).
  assert (Hstarts : starts_name species_data lowercase_string
                      (lowercase_string n) sp).
  { unfold starts_name, lower_name. rewrite Hname. apply string_find_self. }
  assert (Hin : sp ∈ filter (starts_name species_data lowercase_string
                               (lowercase_string n)) (seqZ 0 NUM_SPECIES)).
  { apply list_elem_of_filter. split; [done|]. apply elem_of_seqZ. lia. }
  destruct (filter _ _) as [|first rest] eqn:Hfilter.
  { by apply elem_of_nil in Hin. }
  simpl. exists first.
  assert (Hfirst : first ∈ filter (starts_name species_data lowercase_string
                                     (lowercase_string n))
                             (seqZ 0 NUM_SPECIES))
    by (rewrite Hfilter; by left).
  apply list_elem_of_filter in Hfirst as [Hfs Hfr].
  apply elem_of_seqZ in Hfr. split_and!; [done|lia| |done].
  assert (Hsorted : StronglySorted Z.lt (first :: rest)).
  { rewrite <- Hfilter.
    apply (sublist_StronglySorted _ _ (seqZ 0 NUM_SPECIES));
      [apply sublist_filter|].
    rewrite <- (Z2Nat.id NUM_SPECIES) by lia. apply seqZ_StronglySorted. }
  apply StronglySorted_inv in Hsorted as [_ Hlt].
  apply elem_of_cons in Hin as [->|Hin]; [lia|].
  rewrite Forall_forall in Hlt. specialize (Hlt sp Hin). lia.
Qed.

End ExactName.

(** * Runs on the sample instance *)

Import Sample.

Lemma sample_labels : bans_eq_labels_distinct.
Proof. refine (bool_decide_unpack _ _). vm_compute. exact I. Defined.

Lemma sample_layout : jewellery_layout.
Proof.
  split.
  - vm_compute. reflexivity.
  - refine (bool_decide_unpack _ _). vm_compute. exact I.
Defined.


Lemma sample_species (sp : species_type) :
  0 ≤ sp < NUM_SPECIES →
  sp = 0 ∨ sp = 1 ∨ sp = 2 ∨ sp = 3 ∨ sp = 4 ∨ sp = 5 ∨ sp = 6.
Proof. cbn. lia. Defined.

Lemma sample_table_complete : table_complete species_data.
Proof.
  intros sp Hsp. apply sample_species in Hsp.
  destruct_or!; subst sp; vm_compute; eauto.
Defined.

Lemma sample_names_distinct : names_distinct species_data.
Proof.
  intros sp1 sp2 d1 d2 H1 H2 Hd1 Hd2 Hname.
  apply sample_species in H1. apply sample_species in H2.
  destruct_or!; subst sp1 sp2; try reflexivity;
    vm_compute in Hd1, Hd2; simplify_eq; vm_compute in Hname; discriminate.
Defined.

Lemma sample_names_not_empty : names_not_empty species_data.
Proof.
  intros sp d Hsp Hd. apply sample_species in Hsp.
  destruct_or!; subst sp; vm_compute in Hd; simplify_eq; discriminate.
Defined.

Lemma sample_human_ok : player_ok (you start).
Proof.
  split; [cbn; lia|reflexivity|reflexivity|].
  intros i m n Hm Hn. pose proof (fv_get_in_range _ _ _ Hm) as Hi.
  cbn in Hi.
  assert (i = 0 ∨ i = 1 ∨ i = 2 ∨ i = 3 ∨ i = 4 ∨ i = 5) as Hcases by lia.
  destruct_or!; subst i; vm_compute in Hm, Hn; simplify_eq; lia.
Defined.

Lemma sample_idle_keeps : bystanders_keep_mutations.
Proof.
  unfold bystanders_keep_mutations, keeps_mutations. cbn.
  split_and!; intros g g' [= <-]; done.
Defined.

(** The octopode's first tentacle ring is not banned, its hand rings are. *)
Lemma species_bans_eq_ring_slots_witness :
  bans_eq_labels_distinct
  ∧ EQ_RING_ONE ∈ ring_one_to_eight
  ∧ species_bans_eq species_data SP_OCTOPODE EQ_RING_ONE
    = Some (bool_decide (species_arm_count SP_OCTOPODE ≤ 2)).
Proof.
  assert (Hin : EQ_RING_ONE ∈ ring_one_to_eight) by (vm_compute; left).
  split; [exact sample_labels|]. split; [exact Hin|].
  exact (proj2 (species_bans_eq_ring_slots species_data SP_OCTOPODE
                  EQ_RING_ONE sample_labels) Hin).
Defined.

Lemma species_bans_eq_amulets_witness :
  bans_eq_labels_distinct
  ∧ species_bans_eq species_data SP_TROLL EQ_AMULET = Some false
  ∧ species_bans_eq species_data SP_TROLL EQ_RING_AMULET = Some false.
Proof.
  split; [exact sample_labels|].
  exact (species_bans_eq_amulets species_data SP_TROLL sample_labels).
Defined.

Lemma species_ring_slots_spec_witness :
  bans_eq_labels_distinct ∧ jewellery_layout
  ∧ ∃ slots full,
      species_ring_slots species_data SP_OCTOPODE true = Some slots
      ∧ species_ring_slots species_data SP_OCTOPODE false = Some full
      ∧ (∀ eq, eq ∈ slots →
           species_bans_eq species_data SP_OCTOPODE eq = Some false
           ∧ eq ≠ EQ_AMULET ∧ eq ≠ EQ_RING_AMULET)
      ∧ Z.of_nat (length slots) = species_arm_count SP_OCTOPODE - 1
      ∧ (true = true →
           species_sacrificial_arm SP_OCTOPODE ∈ full
           ∧ slots
             = filter (λ eq, eq ≠ species_sacrificial_arm SP_OCTOPODE) full).
Proof.
  split; [exact sample_labels|]. split; [exact sample_layout|].
  exact (species_ring_slots_spec species_data SP_OCTOPODE true
           sample_labels sample_layout).
Defined.

Lemma species_shout_verb_reads_past_end_witness :
  2 ≤ sizeof_string
  ∧ shout_index 3 = 3
  ∧ ¬ (0 ≤ shout_index 3 ≤ 2)
  ∧ (species_shout_verb SP_HUMAN 3 false heads_then_tails).1 = None.
Proof.
  assert (Hsize : 2 ≤ sizeof_string) by (cbn; lia).
  split; [exact Hsize|].
  exact (species_shout_verb_reads_past_end SP_HUMAN false heads_then_tails
           Hsize).
Defined.

Lemma sample_troll_sums :
  sums_fit_int (level_up_mutations troll) MUT_CLAWS.
Proof.
  intros k. do 4 (destruct k as [|k]; [vm_compute; split; discriminate|]).
  vm_compute. split; discriminate.
Defined.

Lemma species_mutation_level_first_reach_witness :
  get_species_def species_data SP_TROLL = Some troll
  ∧ sums_fit_int (level_up_mutations troll) MUT_CLAWS
  ∧ ((∃ k lum,
        level_up_mutations troll !! k = Some lum ∧ lum_mut lum = MUT_CLAWS
        ∧ 3 ≤ cumulative_level (level_up_mutations troll) MUT_CLAWS (S k)
        ∧ (∀ j lum', (j < k)%nat →
             level_up_mutations troll !! j = Some lum' →
             lum_mut lum' = MUT_CLAWS →
             cumulative_level (level_up_mutations troll) MUT_CLAWS (S j) < 3)
        ∧ species_mutation_level species_data SP_TROLL MUT_CLAWS 3
          = Some (lum_xp_level lum))
     ∨ ((∀ k lum,
           level_up_mutations troll !! k = Some lum → lum_mut lum = MUT_CLAWS →
           cumulative_level (level_up_mutations troll) MUT_CLAWS (S k) < 3)
        ∧ species_mutation_level species_data SP_TROLL MUT_CLAWS 3 = Some 0)).
Proof.
  assert (Hdef : get_species_def species_data SP_TROLL = Some troll)
    by (vm_compute; reflexivity).
  split; [exact Hdef|]. split; [exact sample_troll_sums|].
  exact (species_mutation_level_first_reach species_data SP_TROLL MUT_CLAWS 3
           troll Hdef sample_troll_sums).
Defined.

Lemma str_to_species_species_name_witness :
  table_complete species_data ∧ names_distinct species_data
  ∧ names_not_empty species_data ∧ 0 ≤ SP_GNOLL < NUM_SPECIES
  ∧ ∃ n, species_name species_data SP_GNOLL SPNAME_PLAIN = Some n
         ∧ str_to_species species_data n = Some SP_GNOLL.
Proof.
  assert (Hsp : 0 ≤ SP_GNOLL < NUM_SPECIES) by (cbn; lia).
  split; [exact sample_table_complete|].
  split; [exact sample_names_distinct|].
  split; [exact sample_names_not_empty|].
  split; [exact Hsp|].
  exact (str_to_species_species_name species_data SP_GNOLL
           sample_table_complete sample_names_distinct
           sample_names_not_empty Hsp).
Defined.

(** A human with a ring on each hand becomes an octopode: the rings move to
    the first two tentacles. *)
Example octopode_rings :
  (λ g, (equip (you g), melded (you g)))
  <$> change_species_to species_data SP_OCTOPODE start
  = Some ([-1; -1; -1; -1; -1; -1; -1; -1; -1; -1;
           0; 1; -1; -1; -1; -1; -1; -1; -1],
          [false; false; false; false; false; false; false; false; false;
           false; true; false; false; false; false; false; false; false;
           false]).
Proof. vm_compute. reflexivity. Qed.


(** Acquired levels above the grant do not survive: with two acquired
    levels of claws and a felid's grant of one, the total is one and no
    level counts as acquired beyond it. *)
Example felid_claws_cut_to_grant :
  change_species_to species_data SP_FELID clawed = Some as_felid
  ∧ acquired_level (you clawed) MUT_CLAWS = Some 2
  ∧ fv_get (mutation (you as_felid)) MUT_CLAWS = Some 1
  ∧ fv_get (innate_mutation (you as_felid)) MUT_CLAWS = Some 0
  ∧ acquired_level (you as_felid) MUT_CLAWS = Some 1.
Proof. split_and!; vm_compute; reflexivity. Qed.

(** ** Runs of the further properties *)

Import Sample2.

Lemma sample_table_keys (sp : species_type) (def : species_def) :
  species_data !! sp = Some def → 0 ≤ sp < NUM_SPECIES.
Proof.
  intros Hdef. apply elem_of_map_to_list in Hdef. vm_compute in Hdef.
  repeat (apply elem_of_cons in Hdef as [Hdef|Hdef];
          [injection Hdef as -> _; cbn; lia|]).
  by apply elem_of_nil in Hdef.
Defined.

Lemma sample_index {A} (v : list A) (i : Z) (x : A) :
  length v = 6%nat → fv_get v i = Some x →
  i = 0 ∨ i = 1 ∨ i = 2 ∨ i = 3 ∨ i = 4 ∨ i = 5.
Proof. intros Hlen Hget. apply fv_get_in_range in Hget. lia. Defined.

Lemma sample_fiend_ok : player_ok (you fiend).
Proof.
  split; [cbn; lia|reflexivity|reflexivity|].
  intros i m n Hm Hn.
  pose proof (sample_index (mutation (you fiend)) i m eq_refl Hm) as Hcases.
  destruct_or!; subst i; vm_compute in Hm, Hn; simplify_eq; lia.
Defined.

Lemma str_to_species_sound_witness :
  str_to_species species_data "Gnoll" = Some SP_GNOLL
  ∧ (SP_GNOLL = SP_UNKNOWN
     ∨ ("Gnoll"%string ≠ ""%string ∧ 0 ≤ SP_GNOLL < NUM_SPECIES
        ∧ species_name species_data SP_GNOLL SPNAME_PLAIN = Some "Gnoll"%string
        ∧ ∀ j, 0 ≤ j < SP_GNOLL →
            species_name species_data j SPNAME_PLAIN ≠ Some "Gnoll"%string)).
Proof.
  assert (Hrun : str_to_species species_data "Gnoll" = Some SP_GNOLL)
    by (vm_compute; reflexivity).
  split; [exact Hrun|].
  exact (str_to_species_sound species_data "Gnoll" SP_GNOLL Hrun).
Defined.

Lemma str_to_species_unknown_witness :
  table_complete species_data
  ∧ (""%string = ""%string
     ∨ (∀ sp, 0 ≤ sp < NUM_SPECIES →
          species_name species_data sp SPNAME_PLAIN ≠ Some ""%string))
  ∧ str_to_species species_data "" = Some SP_UNKNOWN.
Proof.
  assert (Hno : ""%string = ""%string
                ∨ (∀ sp, 0 ≤ sp < NUM_SPECIES →
                     species_name species_data sp SPNAME_PLAIN
                     ≠ Some ""%string)) by (left; reflexivity).
  split; [exact sample_table_complete|]. split; [exact Hno|].
  exact (str_to_species_unknown species_data "" sample_table_complete Hno).
Defined.

Lemma find_species_from_string_spec_witness :
  table_complete species_data
  ∧ find_species_from_string species_data lowercase "OLL" false
    = Some match head (filter (starts_name species_data lowercase
                                 (lowercase "OLL")) (seqZ 0 NUM_SPECIES)) with
           | Some first => first
           | None =>
               default SP_UNKNOWN
                 (last (filter (in_name species_data lowercase
                                  (lowercase "OLL")) (seqZ 0 NUM_SPECIES)))
           end.
Proof.
  split; [exact sample_table_complete|].
  exact (find_species_from_string_spec species_data lowercase "OLL" false
           sample_table_complete).
Defined.

(** "oll" starts no name of the sample and is part of [Troll] and of
    [Gnoll]: the answer is the last of the two. *)
Example find_species_from_string_oll :
  find_species_from_string species_data lowercase "OLL" false = Some SP_GNOLL
  ∧ find_species_from_string species_data lowercase "OLL" true
    = Some SP_UNKNOWN
  ∧ find_species_from_string species_data lowercase "tr" false
    = Some SP_TROLL.
Proof. split_and!; vm_compute; reflexivity. Qed.

Lemma find_species_from_string_empty_witness :
  table_complete species_data ∧ 0 < NUM_SPECIES
  ∧ lowercase "" = ""%string
  ∧ find_species_from_string species_data lowercase "" true = Some 0.
Proof.
  assert (Hpos : 0 < NUM_SPECIES) by (cbn; lia).
  assert (Hlow : lowercase "" = ""%string) by reflexivity.
  split; [exact sample_table_complete|]. split; [exact Hpos|].
  split; [exact Hlow|].
  exact (find_species_from_string_empty species_data lowercase "" true
           sample_table_complete Hpos Hlow).
Defined.

Lemma find_species_from_string_full_name_witness :
  table_complete species_data ∧ 0 ≤ SP_GNOLL < NUM_SPECIES
  ∧ species_name species_data SP_GNOLL SPNAME_PLAIN = Some "Gnoll"%string
  ∧ ∃ first,
      find_species_from_string species_data lowercase "Gnoll" false
      = Some first
      ∧ 0 ≤ first ≤ SP_GNOLL
      ∧ starts_name species_data lowercase (lowercase "Gnoll") first.
Proof.
  assert (Hsp : 0 ≤ SP_GNOLL < NUM_SPECIES) by (cbn; lia).
  assert (Hname : species_name species_data SP_GNOLL SPNAME_PLAIN
                  = Some "Gnoll"%string) by (vm_compute; reflexivity).
  split; [exact sample_table_complete|]. split; [exact Hsp|].
  split; [exact Hname|].
  exact (find_species_from_string_full_name species_data lowercase SP_GNOLL
           "Gnoll" false sample_table_complete Hsp Hname).
Defined.

Lemma get_species_by_abbrev_sound_witness :
  lowercase "TR" ≠ "dr"%string
  ∧ ((∀ sp def, species_data !! sp = Some def →
        ¬ abbrev_is lowercase "TR" def) →
     get_species_by_abbrev species_data lowercase "TR" = SP_UNKNOWN)
  ∧ (∀ sp def, species_data !! sp = Some def →
       abbrev_is lowercase "TR" def →
       get_species_by_abbrev species_data lowercase "TR" ≤ sp
       ∧ ∃ first,
           species_data !! get_species_by_abbrev species_data lowercase "TR"
           = Some first
           ∧ abbrev_is lowercase "TR" first)
  ∧ (species_data !! SP_UNKNOWN = None →
     get_species_by_abbrev species_data lowercase "TR" = SP_UNKNOWN →
     ∀ sp def, species_data !! sp = Some def →
       ¬ abbrev_is lowercase "TR" def).
Proof.
  assert (Hdr : lowercase "TR" ≠ "dr"%string) by (vm_compute; discriminate).
  split; [exact Hdr|].
  exact (get_species_by_abbrev_sound species_data lowercase "TR" Hdr).
Defined.

Lemma get_species_by_abbrev_round_trip_witness :
  species_data !! SP_TROLL = Some troll
  ∧ lowercase (abbrev troll) ≠ "dr"%string
  ∧ (∀ sp' def', species_data !! sp' = Some def' →
       abbrev_is lowercase (abbrev troll) def' → sp' = SP_TROLL)
  ∧ get_species_by_abbrev species_data lowercase (abbrev troll) = SP_TROLL.
Proof.
  assert (Hdef : species_data !! SP_TROLL = Some troll)
    by (vm_compute; reflexivity).
  assert (Hdr : lowercase (abbrev troll) ≠ "dr"%string)
    by (vm_compute; discriminate).
  assert (Hunique : ∀ sp' def', species_data !! sp' = Some def' →
            abbrev_is lowercase (abbrev troll) def' → sp' = SP_TROLL).
  { intros sp' def' Hdef' Habbr.
    pose proof (sample_species sp' (sample_table_keys sp' def' Hdef'))
      as Hcases.
    destruct_or!; subst sp'; try reflexivity;
      vm_compute in Hdef'; simplify_eq; vm_compute in Habbr;
      discriminate Habbr. }
  split; [exact Hdef|]. split; [exact Hdr|]. split; [exact Hunique|].
  exact (get_species_by_abbrev_round_trip species_data lowercase SP_TROLL
           troll Hdef Hdr Hunique).
Defined.

Lemma species_ring_slots_ordered_witness :
  species_ring_slots species_data SP_TROLL true = Some [EQ_RIGHT_RING]
  ∧ [EQ_RIGHT_RING] `sublist_of` jewellery_range
  ∧ StronglySorted Z.lt [EQ_RIGHT_RING]
  ∧ NoDup [EQ_RIGHT_RING]
  ∧ ∀ eq, eq ∈ [EQ_RIGHT_RING] →
      EQ_FIRST_JEWELLERY ≤ eq ≤ EQ_LAST_JEWELLERY
      ∧ eq ≠ EQ_AMULET ∧ eq ≠ EQ_RING_AMULET
      ∧ species_bans_eq species_data SP_TROLL eq = Some false
      ∧ (true = true → eq ≠ species_sacrificial_arm SP_TROLL).
Proof.
  assert (Hrun : species_ring_slots species_data SP_TROLL true
                 = Some [EQ_RIGHT_RING]) by (vm_compute; reflexivity).
  split; [exact Hrun|].
  exact (species_ring_slots_ordered species_data SP_TROLL true
           [EQ_RIGHT_RING] Hrun).
Defined.

Lemma sample_troll_levels :
  ∀ lum, lum ∈ level_up_mutations troll →
         1 ≤ lum_mut_level lum ∧ 1 ≤ lum_xp_level lum.
Proof.
  intros lum Hin. cbn in Hin. rewrite !elem_of_cons in Hin.
  destruct Hin as [->|[->|[->|Hin]]]; [cbn; lia..|].
  by apply elem_of_nil in Hin.
Defined.

Lemma species_mutation_level_first_entry_witness :
  get_species_def species_data SP_TROLL = Some troll
  ∧ (∀ lum, lum ∈ level_up_mutations troll → 1 ≤ lum_mut_level lum)
  ∧ species_mutation_level species_data SP_TROLL MUT_CLAWS 1
    = Some (default 0
              (lum_xp_level
               <$> head (filter (λ lum, lum_mut lum = MUT_CLAWS)
                           (level_up_mutations troll)))).
Proof.
  assert (Hdef : get_species_def species_data SP_TROLL = Some troll)
    by (vm_compute; reflexivity).
  assert (Hpos : ∀ lum, lum ∈ level_up_mutations troll →
            1 ≤ lum_mut_level lum)
    by (intros lum Hin; exact (proj1 (sample_troll_levels lum Hin))).
  split; [exact Hdef|]. split; [exact Hpos|].
  exact (species_mutation_level_first_entry species_data SP_TROLL MUT_CLAWS
           troll Hdef Hpos).
Defined.

Lemma species_mutation_level_zero_iff_witness :
  get_species_def species_data SP_TROLL = Some troll
  ∧ (∀ lum, lum ∈ level_up_mutations troll →
            1 ≤ lum_mut_level lum ∧ 1 ≤ lum_xp_level lum)
  ∧ (species_mutation_level species_data SP_TROLL MUT_PAWS 1 = Some 0
     ↔ ∀ lum, lum ∈ level_up_mutations troll → lum_mut lum ≠ MUT_PAWS).
Proof.
  assert (Hdef : get_species_def species_data SP_TROLL = Some troll)
    by (vm_compute; reflexivity).
  split; [exact Hdef|]. split; [exact sample_troll_levels|].
  exact (species_mutation_level_zero_iff species_data SP_TROLL MUT_PAWS
           troll Hdef sample_troll_levels).
Defined.

Lemma draconian_has_no_hair_witness :
  species_is_draconian dragons 0 = Some true
  ∧ species_has_hair dragons 0 = Some false.
Proof.
  assert (Hdr : species_is_draconian dragons 0 = Some true)
    by (vm_compute; reflexivity).
  split; [exact Hdr|].
  exact (draconian_has_no_hair dragons 0 Hdr).
Defined.

Lemma starting_species_not_removed_witness :
  is_starting_species species_jobs SP_HUMAN = Some true
  ∧ ¬ (TAG_MAJOR_VERSION = 34 ∧ SP_HUMAN = SP_MOTTLED_DRACONIAN)
  ∧ species_is_removed species_jobs SP_HUMAN = Some false.
Proof.
  assert (Hstart : is_starting_species species_jobs SP_HUMAN = Some true)
    by (vm_compute; reflexivity).
  assert (Hmottled : ¬ (TAG_MAJOR_VERSION = 34
                        ∧ SP_HUMAN = SP_MOTTLED_DRACONIAN))
    by (intros [_ Heq]; vm_compute in Heq; discriminate Heq).
  split; [exact Hstart|]. split; [exact Hmottled|].
  exact (starting_species_not_removed species_jobs SP_HUMAN Hstart Hmottled).
Defined.

Lemma species_shout_verb_in_range_witness :
  1 ≤ sizeof_string ∧ -5 ≤ 2
  ∧ 0 ≤ shout_index (-5) ≤ 2
  ∧ is_Some (species_shout_verb SP_FELID (-5) true heads_then_tails).1.
Proof.
  assert (Hsize : 1 ≤ sizeof_string) by (cbn; lia).
  assert (Hle : -5 ≤ 2) by lia.
  split; [exact Hsize|]. split; [exact Hle|].
  exact (species_shout_verb_in_range SP_FELID (-5) true heads_then_tails
           Hsize Hle).
Defined.

Lemma change_species_to_needs_entry_witness :
  get_species_def species_data 20 = None
  ∧ change_species_to species_data 20 start = None.
Proof.
  assert (Hdef : get_species_def species_data 20 = None)
    by (vm_compute; reflexivity).
  split; [exact Hdef|].
  exact (change_species_to_needs_entry species_data 20 start Hdef).
Defined.

Lemma swap_ring_slots_round_trip_witness :
  bans_eq_labels_distinct
  ∧ swap_ring_slots SP_HUMAN SP_OCTOPODE human = Some human_as_octopode
  ∧ swap_ring_slots SP_OCTOPODE SP_HUMAN human_as_octopode = Some human.
Proof.
  assert (Hrun : swap_ring_slots SP_HUMAN SP_OCTOPODE human
                 = Some human_as_octopode) by (vm_compute; reflexivity).
  split; [exact sample_labels|]. split; [exact Hrun|].
  exact (swap_ring_slots_round_trip SP_HUMAN SP_OCTOPODE human
           human_as_octopode sample_labels Hrun).
Defined.

Lemma drop_unwearables_only_empties_witness :
  drop_unwearables (X := no_left_ring) start = Some start_dropped
  ∧ inv (you start_dropped) = inv (you start)
  ∧ ∀ i, kept_or_emptied start start_dropped i.
Proof.
  assert (Hrun : drop_unwearables (X := no_left_ring) start
                 = Some start_dropped) by (vm_compute; reflexivity).
  split; [exact Hrun|].
  exact (drop_unwearables_only_empties (X := no_left_ring) start
           start_dropped Hrun).
Defined.

(** The one slot [no_left_ring] refuses is emptied and unmelded, its item
    stays in the pack. *)
Example drop_unwearables_left_ring :
  fv_get (equip (you start)) EQ_LEFT_RING = Some 0
  ∧ fv_get (melded (you start)) EQ_LEFT_RING = Some true
  ∧ fv_get (equip (you start_dropped)) EQ_LEFT_RING = Some (-1)
  ∧ fv_get (melded (you start_dropped)) EQ_LEFT_RING = Some false
  ∧ fv_get (equip (you start_dropped)) EQ_RIGHT_RING = Some 1.
Proof. split_and!; vm_compute; reflexivity. Qed.

Lemma rescale_skill_points_spec_witness :
  rescale_skill_points (X := no_left_ring) SP_TROLL human
  = Some human_rescaled
  ∧ human_rescaled = with_skill_points (skill_points human_rescaled) human
  ∧ length (skill_points human_rescaled) = length (skill_points human)
  ∧ ∀ sk pts,
      fv_get (skill_points human) sk = Some pts →
      fv_get (skill_points human_rescaled) sk
      = Some (if bool_decide (SK_FIRST_SKILL ≤ sk < NUM_SKILLS)
              then rescale_by_apt (X := no_left_ring) sk SP_TROLL
                     (species human) pts
              else pts).
Proof.
  assert (Hrun : rescale_skill_points (X := no_left_ring) SP_TROLL human
                 = Some human_rescaled) by (vm_compute; reflexivity).
  split; [exact Hrun|].
  exact (rescale_skill_points_spec (X := no_left_ring) SP_TROLL human
           human_rescaled Hrun).
Defined.

Lemma sample_idle_perma_mutate :
  ∀ mut lvl reason h,
    ∃ h', perma_mutate mut lvl reason h = Some h'
          ∧ experience_level (you h') = experience_level (you h).
Proof. intros mut lvl reason h. exists h. split; reflexivity. Defined.

Lemma give_level_mutations_from_enough_fuel_witness :
  get_species_def species_data SP_TROLL = Some troll
  ∧ (∀ mut lvl reason h,
       ∃ h', perma_mutate mut lvl reason h = Some h'
             ∧ experience_level (you h') = experience_level (you h))
  ∧ ∃ g', give_level_mutations_from species_data
            (Z.to_nat (experience_level (you fiend))) SP_TROLL 2 fiend
          = Some g'
          ∧ experience_level (you g') = experience_level (you fiend).
Proof.
  assert (Hdef : get_species_def species_data SP_TROLL = Some troll)
    by (vm_compute; reflexivity).
  split; [exact Hdef|]. split; [exact sample_idle_perma_mutate|].
  exact (give_level_mutations_from_enough_fuel species_data SP_TROLL troll
           fiend Hdef sample_idle_perma_mutate).
Defined.

Lemma give_basic_mutations_in_bounds_witness :
  player_ok human
  ∧ (is_Some (give_basic_mutations species_data SP_TROLL human)
     ↔ ∃ def, get_species_def species_data SP_TROLL = Some def
         ∧ ∀ lum, lum ∈ level_up_mutations def → lum_xp_level lum = 1 →
             0 ≤ lum_mut lum < NUM_MUTATIONS).
Proof.
  split; [exact sample_human_ok|].
  exact (give_basic_mutations_in_bounds species_data SP_TROLL human
           sample_human_ok).
Defined.

Lemma give_basic_mutations_levels_witness :
  player_ok human
  ∧ get_species_def species_data SP_TROLL = Some troll
  ∧ give_basic_mutations species_data SP_TROLL human = Some human_basic
  ∧ player_ok human_basic
  ∧ ∀ i, 0 ≤ i < NUM_MUTATIONS →
      fv_get (mutation human_basic) i
      = granted (basic_level (level_up_mutations troll) i)
          (fv_get (mutation human) i)
      ∧ fv_get (innate_mutation human_basic) i
        = granted (basic_level (level_up_mutations troll) i)
            (fv_get (innate_mutation human) i).
Proof.
  assert (Hdef : get_species_def species_data SP_TROLL = Some troll)
    by (vm_compute; reflexivity).
  assert (Hrun : give_basic_mutations species_data SP_TROLL human
                 = Some human_basic) by (vm_compute; reflexivity).
  split; [exact sample_human_ok|]. split; [exact Hdef|].
  split; [exact Hrun|].
  exact (give_basic_mutations_levels species_data SP_TROLL troll human
           human_basic sample_human_ok Hdef Hrun).
Defined.

Lemma sample_idle_keeps_ok :
  ∀ mut lvl reason, keeps_player_ok (perma_mutate mut lvl reason).
Proof. intros mut lvl reason g g' [= <-] Hok. exact Hok. Defined.

Lemma change_species_to_keeps_levels_ok_witness :
  player_ok (you start) ∧ SP_TROLL ≠ SP_DEMONSPAWN
  ∧ (∀ mut lvl reason, keeps_player_ok (perma_mutate mut lvl reason))
  ∧ bystanders_keep_mutations
  ∧ change_species_to species_data SP_TROLL start = Some as_troll
  ∧ player_ok (you as_troll).
Proof.
  assert (Hsp : SP_TROLL ≠ SP_DEMONSPAWN) by (vm_compute; lia).
  assert (Hrun : change_species_to species_data SP_TROLL start
                 = Some as_troll) by (vm_compute; reflexivity).
  split; [exact sample_human_ok|]. split; [exact Hsp|].
  split; [exact sample_idle_keeps_ok|]. split; [exact sample_idle_keeps|].
  split; [exact Hrun|].
  exact (change_species_to_keeps_levels_ok species_data SP_TROLL start
           as_troll sample_human_ok Hsp sample_idle_keeps_ok
           sample_idle_keeps Hrun).
Defined.

Lemma sample_fiend_room :
  ∀ j mj, fv_get (mutation (you fiend)) j = Some mj →
          mj + Z.of_nat (length (demonic_traits (you fiend))) < 256.
Proof.
  intros j mj Hm.
  pose proof (sample_index (mutation (you fiend)) j mj eq_refl Hm) as Hcases.
  destruct_or!; subst j; vm_compute in Hm; simplify_eq; cbn; lia.
Defined.

Lemma demonspawn_traits_spec_witness :
  roll_demonspawn_mutations fiend = Some fiend
  ∧ demonspawn_traits SP_DEMONSPAWN fiend = Some fiend_traits
  ∧ player_ok (you fiend)
  ∧ (∀ j mj, fv_get (mutation (you fiend)) j = Some mj →
             mj + Z.of_nat (length (demonic_traits (you fiend))) < 256)
  ∧ fv_get (mutation (you fiend)) MUT_CLAWS = Some 1
  ∧ fv_get (innate_mutation (you fiend)) MUT_CLAWS = Some 0
  ∧ fv_get (mutation (you fiend_traits)) MUT_CLAWS
    = Some (1 + Z.of_nat
                  (length (traits_gained (demonic_traits (you fiend))
                             (experience_level (you fiend)) MUT_CLAWS)))
  ∧ fv_get (innate_mutation (you fiend_traits)) MUT_CLAWS
    = Some (0 + Z.of_nat
                  (length (traits_gained (demonic_traits (you fiend))
                             (experience_level (you fiend)) MUT_CLAWS)))
  ∧ acquired_level (you fiend_traits) MUT_CLAWS = Some (1 - 0).
Proof.
  assert (Hroll : roll_demonspawn_mutations fiend = Some fiend)
    by reflexivity.
  assert (Hrun : demonspawn_traits SP_DEMONSPAWN fiend = Some fiend_traits)
    by (vm_compute; reflexivity).
  assert (Hm : fv_get (mutation (you fiend)) MUT_CLAWS = Some 1)
    by (vm_compute; reflexivity).
  assert (Hn : fv_get (innate_mutation (you fiend)) MUT_CLAWS = Some 0)
    by (vm_compute; reflexivity).
  split; [exact Hroll|]. split; [exact Hrun|].
  split; [exact sample_fiend_ok|]. split; [exact sample_fiend_room|].
  split; [exact Hm|]. split; [exact Hn|].
  exact (demonspawn_traits_spec fiend fiend fiend_traits MUT_CLAWS 1 0
           Hroll Hrun sample_fiend_ok sample_fiend_room Hm Hn).
Defined.

(** Of the fiend's two traits only the one of level 2 is reached at level
    3: one level of claws is gained, innate, beside the acquired one. *)
Example fiend_gains_one_trait :
  fv_get (mutation (you fiend_traits)) MUT_CLAWS = Some 2
  ∧ fv_get (innate_mutation (you fiend_traits)) MUT_CLAWS = Some 1.
Proof. split; vm_compute; reflexivity. Qed.

Lemma species_has_claws_iff_witness :
  get_species_def species_data SP_TROLL = Some troll
  ∧ (∀ lum, lum ∈ level_up_mutations troll → 1 ≤ lum_mut_level lum)
  ∧ (species_has_claws species_data SP_TROLL = Some true
     ↔ ∃ lum, head (filter (λ lum, lum_mut lum = MUT_CLAWS)
                      (level_up_mutations troll)) = Some lum
              ∧ lum_xp_level lum = 1).
Proof.
  assert (Hdef : get_species_def species_data SP_TROLL = Some troll)
    by (vm_compute; reflexivity).
  assert (Hpos : ∀ lum, lum ∈ level_up_mutations troll →
            1 ≤ lum_mut_level lum)
    by (intros lum Hin; exact (proj1 (sample_troll_levels lum Hin))).
  split; [exact Hdef|]. split; [exact Hpos|].
  exact (species_has_claws_iff species_data SP_TROLL troll Hdef Hpos).
Defined.

Lemma species_is_unbreathing_iff_witness :
  get_species_def species_data SP_TROLL = Some troll
  ∧ (∀ lum, lum ∈ level_up_mutations troll →
            1 ≤ lum_mut_level lum ∧ 1 ≤ lum_xp_level lum)
  ∧ (species_is_unbreathing species_data SP_TROLL = Some true
     ↔ ∃ lum, lum ∈ level_up_mutations troll
              ∧ lum_mut lum = MUT_UNBREATHING).
Proof.
  assert (Hdef : get_species_def species_data SP_TROLL = Some troll)
    by (vm_compute; reflexivity).
  split; [exact Hdef|]. split; [exact sample_troll_levels|].
  exact (species_is_unbreathing_iff species_data SP_TROLL troll Hdef
           sample_troll_levels).
Defined.

Lemma random_draconian_colour_sound_witness :
  random_draconian_colour dragon_jobs nat counting 3 0%nat
  = Some (SP_FELID, 3%nat)
  ∧ fit_colour dragon_jobs SP_FELID.
Proof.
  assert (Hrun : random_draconian_colour dragon_jobs nat counting 3 0%nat
                 = Some (SP_FELID, 3%nat)) by (vm_compute; reflexivity).
  split; [exact Hrun|].
  exact (random_draconian_colour_sound dragon_jobs nat counting 3 0%nat
           3%nat SP_FELID Hrun).
Defined.

Lemma sample_counting_in_range : random_range_in_range nat counting.
Proof.
  intros lo hi r Hle. unfold counting. simpl.
  pose proof (Z.mod_pos_bound (Z.of_nat r) (hi - lo + 1)). lia.
Defined.

Lemma sample_jobs_complete : table_complete (shown <$> species_jobs).
Proof.
  intros sp Hsp. apply sample_species in Hsp.
  destruct_or!; subst sp; vm_compute; eauto.
Defined.

Lemma sample_no_colour :
  ∀ sp, 0 ≤ sp < NUM_SPECIES → ¬ fit_colour species_jobs sp.
Proof.
  intros sp Hsp [Hdr _]. apply sample_species in Hsp.
  destruct_or!; subst sp; vm_compute in Hdr; discriminate Hdr.
Defined.

Lemma random_draconian_colour_never_ends_witness :
  random_range_in_range nat counting
  ∧ 0 < NUM_SPECIES
  ∧ table_complete (shown <$> species_jobs)
  ∧ (∀ sp, 0 ≤ sp < NUM_SPECIES → ¬ fit_colour species_jobs sp)
  ∧ (∀ r, ∃ sp r',
       random_draconian_colour_turn species_jobs nat counting r
       = Some (sp, true, r'))
  ∧ ∀ fuel r, random_draconian_colour species_jobs nat counting fuel r = None.
Proof.
  assert (Hpos : 0 < NUM_SPECIES) by (cbn; lia).
  split; [exact sample_counting_in_range|]. split; [exact Hpos|].
  split; [exact sample_jobs_complete|]. split; [exact sample_no_colour|].
  exact (random_draconian_colour_never_ends species_jobs nat counting
           sample_counting_in_range Hpos sample_jobs_complete
           sample_no_colour).
Defined.

(** ** Runs of the species change as a whole *)

Lemma sample_idle_keeps_part {A} (part : player → A) : outside_keeps part.
Proof.
  unfold outside_keeps, keeps. cbn.
  split_and!; intros; by simplify_eq.
Defined.

Lemma change_species_rescales_skill_points_witness :
  outside_keeps skill_points
  ∧ change_species_to species_data SP_TROLL veteran = Some veteran_as_troll
  ∧ fv_get (skill_points (you veteran)) 0 = Some 16777217
  ∧ let product :=
      float_mul (float_of_uint 16777217)
        (float_div (species_apt_factor 0 SP_TROLL)
           (species_apt_factor 0 (species (you veteran)))) in
    if bool_decide (SK_FIRST_SKILL ≤ 0 < NUM_SKILLS)
    then float_to_uint product = Some (float_trunc product)
         ∧ fv_get (skill_points (you veteran_as_troll)) 0
           = Some (float_trunc product)
    else fv_get (skill_points (you veteran_as_troll)) 0 = Some 16777217.
Proof.
  assert (Hrun : change_species_to species_data SP_TROLL veteran
                 = Some veteran_as_troll) by (vm_compute; reflexivity).
  assert (Hpts : fv_get (skill_points (you veteran)) 0 = Some 16777217)
    by reflexivity.
  split; [exact (sample_idle_keeps_part skill_points)|].
  split; [exact Hrun|]. split; [exact Hpts|].
  exact (change_species_rescales_skill_points species_data SP_TROLL veteran
           veteran_as_troll 0 16777217 (sample_idle_keeps_part skill_points)
           Hrun Hpts).
Defined.

(** C2 fails as the spec words it: with both aptitude factors 1 the
    16777217 points of the veteran's first skill become 16777216, the
    nearest [float], and not 16777217 * 1 / 1. *)
Lemma veteran_loses_a_skill_point :
  change_species_to species_data SP_TROLL veteran = Some veteran_as_troll
  ∧ fv_get (skill_points (you veteran)) 0 = Some 16777217
  ∧ fv_get (skill_points (you veteran_as_troll)) 0 = Some 16777216
  ∧ ¬ rescales_as_specified SP_TROLL veteran veteran_as_troll.
Proof.
  split_and!; [vm_compute; reflexivity..|].
  intros Hspec.
  assert (Hsk : SK_FIRST_SKILL ≤ 0 < NUM_SKILLS) by (cbn; lia).
  specialize (Hspec 0 16777217 16777216 Hsk eq_refl eq_refl).
  vm_compute in Hspec. discriminate Hspec.
Qed.







(** The fiend as an ogre, as the model computes it: three levels of claws,
    two innate, and the tough skin of level 3, innate. *)
Example fiend_as_ogre_levels :
  mutation (you fiend_as_ogre) = [1; 3; 0; 0; 0; 0]
  ∧ innate_mutation (you fiend_as_ogre) = [1; 2; 0; 0; 0; 0].
Proof. split; vm_compute; reflexivity. Qed.

(** The running total of [species_mutation_level] overflows on the
    hoarder's schedule: the call has no result, where sums without a bound
    would reach the level at experience level 5. *)
Example species_mutation_level_overflows :
  species_mutation_level hoarders SP_TROLL MUT_CLAWS 2147483647 = None
  ∧ cumulative_level (level_up_mutations hoarder) MUT_CLAWS 2 = 2147483648.
Proof. split; vm_compute; reflexivity. Qed.

(** ** Runs of the calls *)

Lemma queries_stateless_witness :
  ¬ touches_state (Q_species_shout_verb SP_GNOLL 0 false)
  ∧ stateless_lookup species_table
      (sample_call (Q_species_shout_verb SP_GNOLL 0 false)).
Proof.
  assert (Hno : ¬ touches_state (Q_species_shout_verb SP_GNOLL 0 false))
    by (intros (_ & _ & Hd); discriminate Hd).
  split; [exact Hno|].
  exact (queries_stateless species_table lowercase (λ _ wpn, wpn) playable _
           Hno).
Defined.

(** Lookups in the state [start]: each one returns its value and leaves
    [start] as it is. *)
Example sample_calls :
  run species_table (sample_call (Q_species_name SP_TROLL SPNAME_PLAIN)) start
  = Some (A_string "Troll", start)
  ∧ run species_table (sample_call (Q_species_hand_name SP_FELID)) start
    = Some (A_string "paw", start)
  ∧ run species_table (sample_call (Q_species_arm_name SP_OCTOPODE)) start
    = Some (A_string "tentacle", start)
  ∧ run species_table (sample_call (Q_get_species_by_abbrev "TR")) start
    = Some (A_int SP_TROLL, start)
  ∧ run species_table (sample_call (Q_species_recommends_job SP_TROLL 0))
      start
    = Some (A_bool false, start)
  ∧ run species_table (sample_call (Q_species_stat_gain_multiplier SP_TROLL))
      start
    = Some (A_int 1, start)
  ∧ run species_table (sample_call (Q_draconian_breath SP_TROLL)) start = None
  ∧ run species_table (sample_call (Q_get_species_def 7)) start = None.
Proof. split_and!; vm_compute; reflexivity. Qed.

(** Two calls in a row of the gnoll's directed shout at loudness 0: the
    first one moves the generator and the verbs differ. *)
Example gnoll_shouts_twice :
  let p := sample_call (Q_species_shout_verb SP_GNOLL 0 true) in
  ∃ after,
    run species_table p start = Some (A_string "growl", after)
    ∧ pos (rng start) = 0%nat ∧ pos (rng after) = 1%nat
    ∧ fst <$> run species_table p after = Some (A_string "bark").
Proof.
  eexists. split; [vm_compute; reflexivity|].
  split_and!; vm_compute; reflexivity.
Qed.

(** The dragon of [dragon_form_dragon_type] goes with the player's species:
    fire for the human of [start], ice for a white draconian. *)
Example dragon_form_follows_player :
  let p := sample_call Q_dragon_form_dragon_type in
  run species_table p start = Some (A_int MONS_FIRE_DRAGON, start)
  ∧ run species_table p white_dragon = Some (A_int MONS_ICE_DRAGON, white_dragon).
Proof. split; vm_compute; reflexivity. Qed.

(** [random_starting_species] and [random_draconian_colour] draw from the
    generator: once, and three times before a colour fits. *)
Example random_choices_draw :
  (∃ after,
     run species_table (sample_call Q_random_starting_species) start
     = Some (A_int SP_HUMAN, after)
     ∧ pos (rng after) = 1%nat
     ∧ fst <$> run species_table (sample_call Q_random_starting_species) after
       = Some (A_int SP_FELID))
  ∧ ∃ after,
      run dragon_table (sample_call (Q_random_draconian_colour 3)) start
      = Some (A_int SP_FELID, after)
      ∧ pos (rng after) = 3%nat.
Proof.
  split; eexists; (split; [vm_compute; reflexivity|]);
    split_and?; vm_compute; reflexivity.
Qed.

(** C6 fails as the spec words it: [species_shout_verb] is one of the
    queries it names, and a gnoll's directed shout is not a stateless
    lookup; neither are [dragon_form_dragon_type], which answers by the
    player's species, and the two random choices, which move the
    generator. *)
Lemma calls_that_touch_state :
  ¬ stateless_lookup species_table
      (sample_call (Q_species_shout_verb SP_GNOLL 0 true))
  ∧ ¬ stateless_lookup species_table (sample_call Q_dragon_form_dragon_type)
  ∧ ¬ stateless_lookup species_table (sample_call Q_random_starting_species)
  ∧ ¬ stateless_lookup dragon_table
        (sample_call (Q_random_draconian_colour 3)).
Proof.
  split_and!.
  - eapply (moves_generator_not_stateless _ _ start);
      [vm_compute; reflexivity|vm_compute; discriminate].
  - apply (answers_differ_not_stateless _ _ start white_dragon).
    vm_compute. discriminate.
  - eapply (moves_generator_not_stateless _ _ start);
      [vm_compute; reflexivity|vm_compute; discriminate].
  - eapply (moves_generator_not_stateless _ _ start);
      [vm_compute; reflexivity|vm_compute; discriminate].
Qed.
